(** * MILP_Solver: the model-file parser (src/parser.cpp, src/parser.h)
      and the solver's column lookup (src/solver.cpp)

    A shallow embedding of [Parser::parseFile] and of its helpers in the
    anonymous namespace of parser.cpp.  C++ exceptions become the [Throw]
    outcome of a small error monad, [std::string] is [string],
    [std::unordered_map<std::string, Bound>] is [gmap string Bound], and the
    ECMAScript regular expressions of the source are run by a backtracking
    matcher with the priorities of [std::regex]. *)

From stdpp Require Import gmap strings list.
From Stdlib Require Import ZArith QArith Ascii String.

Local Open Scope string_scope.
Local Open Scope Z_scope.

(** ** Exceptions

    Every [throw runtime_error("Line N: ...")] of parser.cpp is one
    constructor carrying the line number (and the quoted token when the
    message has one).  [std::stod] throws exceptions of its own, which carry
    neither; the last two constructors are the exceptions of
    [GLPKSolver::loadModel]: the [std::out_of_range] of [unordered_map::at]
    and its [runtime_error]. *)

Inductive exn : Type :=
| CouldNotOpenInputFile (path : string)
| InvalidTermFormat (line : Z) (token : string)
| NoValidTerms (line : Z)
| InvalidConstraintFormat (line : Z)
| DuplicateOptimizationType (line : Z)
| InvalidBoundFormat (line : Z)
| UnexpectedLine (line : Z)
| StodInvalidArgument
| StodOutOfRange
| AtOutOfRange
| UnknownConstraintOperator (op : string).

Inductive result (A : Type) : Type :=
| OK (a : A)
| Throw (e : exn).
Arguments OK {A} a.
Arguments Throw {A} e.

Global Instance result_ret : MRet result := fun A a => OK a.
Global Instance result_bind : MBind result := fun A B f r =>
  match r with
  | OK a => f a
  | Throw e => Throw e
  end.

(** The line number an exception reports, if it reports one. *)
Definition exn_line (e : exn) : option Z :=
  match e with
  | InvalidTermFormat n _ | NoValidTerms n | InvalidConstraintFormat n
  | DuplicateOptimizationType n | InvalidBoundFormat n | UnexpectedLine n => Some n
  | CouldNotOpenInputFile _ | StodInvalidArgument | StodOutOfRange
  | AtOutOfRange | UnknownConstraintOperator _ => None
  end.

(** The error kinds of the specification, by message. *)
Definition isFormatError (e : exn) : bool :=
  match e with
  | InvalidTermFormat _ _ | NoValidTerms _ | InvalidConstraintFormat _
  | InvalidBoundFormat _ => true
  | _ => false
  end.

Definition isDuplicateSectionError (e : exn) : bool :=
  match e with DuplicateOptimizationType _ => true | _ => false end.

(** ** Characters and strings *)

Definition code (c : ascii) : Z := Z.of_nat (nat_of_ascii c).

Definition between (lo hi c : ascii) : bool :=
  (code lo <=? code c) && (code c <=? code hi).

Definition isdigit (c : ascii) : bool := between "0" "9" c.
Definition isupper (c : ascii) : bool := between "A" "Z" c.
Definition islower (c : ascii) : bool := between "a" "z" c.
Definition isalpha (c : ascii) : bool := isupper c || islower c.

(** [isspace] in the "C" locale: space, \t, \n, \v, \f, \r. *)
Definition isspace (c : ascii) : bool :=
  (code c =? 32) || ((9 <=? code c) && (code c <=? 13)).

(** The set [" \t\r\n"] that [trim] passes to [find_first_not_of]. *)
Definition trim_set (c : ascii) : bool :=
  (code c =? 32) || (code c =? 9) || (code c =? 13) || (code c =? 10).

Fixpoint find_first_not_of (set : ascii -> bool) (s : string) : option nat :=
  match s with
  | EmptyString => None
  | String c s' => if set c then S <$> find_first_not_of set s' else Some 0%nat
  end.

Fixpoint find_last_not_of (set : ascii -> bool) (s : string) : option nat :=
  match s with
  | EmptyString => None
  | String c s' =>
      match find_last_not_of set s' with
      | Some i => Some (S i)
      | None => if set c then None else Some 0%nat
      end
  end.

(** [s.substr(pos, len)]. *)
Definition substr (pos len : nat) (s : string) : string := substring pos len s.

Definition trim (s : string) : string :=
  match find_first_not_of trim_set s, find_last_not_of trim_set s with
  | Some start, Some e => substr start (e - start + 1) s
  | _, _ => ""
  end.

Definition isBlank (s : string) : bool := (trim s =? "")%string.

(** [s.rfind(p, 0) == 0]: [p] is found at the first position of [s]. *)
Fixpoint starts_with (p s : string) : bool :=
  match p, s with
  | EmptyString, _ => true
  | String a p', String b s' => Ascii.eqb a b && starts_with p' s'
  | String _ _, EmptyString => false
  end.

(** [s.find(needle)]: the index of the first occurrence, [None] for npos. *)
Fixpoint find (needle s : string) : option nat :=
  if starts_with needle s then Some 0%nat
  else match s with
       | EmptyString => None
       | String _ s' => S <$> find needle s'
       end.

(** The loop [while (getline(stream, item, delim))]: the items between
    delimiters; [getline] fails, and the loop ends, when the stream is at its
    end before any character is read, so a final delimiter opens no item. *)
Fixpoint getlines (delim : ascii) (s : string) : list string :=
  match s with
  | EmptyString => []
  | String c s' =>
      if Ascii.eqb c delim then "" :: getlines delim s'
      else match getlines delim s' with
           | [] => [String c ""]
           | item :: items => String c item :: items
           end
  end.

Definition split (s : string) (delimiter : ascii) : list string :=
  trim <$> getlines delimiter s.

Definition isOperator (s : string) : bool :=
  (s =? "<=")%string || (s =? ">=")%string || (s =? "=")%string.

(** ** Regular expressions

    The fragment of ECMAScript syntax that the five patterns of parser.cpp
    use.  Every quantified atom in them is a character class, so the star is
    a star of a class.  [run] is the backtracking search of [std::regex] (the
    depth-first executor): a greedy star tries its longest repetition first,
    an alternation its left branch first, and the first way to reach the
    continuation wins. *)

Inductive regex : Type :=
| Empty
| Class (p : ascii -> bool)
| Cat (r1 r2 : regex)
| Or (r1 r2 : regex)
| Many (p : ascii -> bool)
| Capture (i : nat) (r : regex).

Definition Many1 (p : ascii -> bool) : regex := Cat (Class p) (Many p).
Definition Maybe (r : regex) : regex := Or r Empty.
Definition Chr (c : ascii) : regex := Class (Ascii.eqb c).

Fixpoint Str (s : string) : regex :=
  match s with
  | EmptyString => Empty
  | String c s' => Cat (Chr c) (Str s')
  end.

(** The sub-matches [match[i]]; an unset group reads as the empty string. *)
Definition captures : Type := nat -> string.
Definition no_captures : captures := fun _ => "".
Definition set_capture (i : nat) (v : string) (c : captures) : captures :=
  fun j => if (j =? i)%nat then v else c j.

(** The text consumed between the position [s] and the later position [s1]. *)
Definition consumed (s s1 : string) : string :=
  substr 0 (String.length s - String.length s1) s.

Section Matcher.
Context {R : Type}.

Fixpoint many (p : ascii -> bool) (s : string) (k : string -> option R) : option R :=
  match s with
  | String a s' =>
      if p a then
        match many p s' k with
        | Some r => Some r
        | None => k s
        end
      else k s
  | EmptyString => k s
  end.

Fixpoint run (r : regex) (s : string) (c : captures)
    (k : string -> captures -> option R) : option R :=
  match r with
  | Empty => k s c
  | Class p =>
      match s with
      | String a s' => if p a then k s' c else None
      | EmptyString => None
      end
  | Cat r1 r2 => run r1 s c (fun s1 c1 => run r2 s1 c1 k)
  | Or r1 r2 =>
      match run r1 s c k with
      | Some x => Some x
      | None => run r2 s c k
      end
  | Many p => many p s (fun s1 => k s1 c)
  | Capture i r1 => run r1 s c (fun s1 c1 => k s1 (set_capture i (consumed s s1) c1))
  end.
End Matcher.

(** [regex_match]: the whole string must be matched; [at_end] is the final
    continuation, which accepts only when the input is used up. *)
Definition at_end (s1 : string) (c : captures) : option captures :=
  match s1 with
  | EmptyString => Some c
  | String _ _ => None
  end.

Definition regex_match (r : regex) (s : string) : option captures :=
  run r s no_captures at_end.

(** A match that starts at the first character of [s]: the matched text. *)
Definition match_here (r : regex) (s : string) : option string :=
  run r s no_captures (fun s1 _ => Some (consumed s s1)).

(** [sregex_iterator]: the matches of successive [regex_search] calls, each
    starting where the match before it ended.  [inside] counts the characters
    still covered by the last match.  Every match of the pattern iterated in
    parser.cpp holds an identifier character, so the library's special step
    after an empty match is never taken; here an empty match is passed over. *)
Fixpoint matches_from (r : regex) (inside : nat) (s : string) : list string :=
  match inside with
  | S n =>
      match s with
      | String _ s' => matches_from r n s'
      | EmptyString => []
      end
  | O =>
      match s with
      | String a s' =>
          match match_here r s with
          | Some (String b m) => String b m :: matches_from r (String.length m) s'
          | _ => matches_from r 0 s'
          end
      | EmptyString => []
      end
  end.

Definition sregex_iterator (r : regex) (s : string) : list string :=
  matches_from r 0 s.

(** [regex_replace(s, regex(R"(\s+)"), "")]: every run of white space is
    replaced by nothing, which leaves the characters that are not white
    space. *)
Fixpoint remove_spaces (s : string) : string :=
  match s with
  | EmptyString => ""
  | String c s' => if isspace c then remove_spaces s' else String c (remove_spaces s')
  end.

(** Character classes of the patterns. *)
Definition sign_char (c : ascii) : bool := Ascii.eqb c "+" || Ascii.eqb c "-".
Definition ident_start (c : ascii) : bool := isalpha c || Ascii.eqb c "_".
Definition word_char (c : ascii) : bool := isalpha c || isdigit c || Ascii.eqb c "_".
(** [.] matches any character but a line terminator. *)
Definition dot (c : ascii) : bool := negb ((code c =? 10) || (code c =? 13)).

(** parser.cpp line 63: group 1 is [+-]? \d* \.? \d* and group 2 is
    [a-zA-Z_] [a-zA-Z0-9_]* (the atoms are written apart here). *)
Definition termPattern : regex :=
  Cat (Capture 1 (Cat (Maybe (Class sign_char))
                 (Cat (Many isdigit) (Cat (Maybe (Chr ".")) (Many isdigit)))))
      (Capture 2 (Cat (Class ident_start) (Many word_char))).

(** parser.cpp line 87: one group,
    [+-]? \s* \d* \.? \d* [a-zA-Z_] [a-zA-Z0-9_]* *)
Definition tokenPattern : regex :=
  Capture 1 (Cat (Maybe (Class sign_char))
            (Cat (Many isspace)
            (Cat (Many isdigit) (Cat (Maybe (Chr ".")) (Cat (Many isdigit)
            (Cat (Class ident_start) (Many word_char))))))).

(** parser.cpp line 110: group 1 is .+ , group 2 is <=|>=|= and group 3
    is .+ *)
Definition constraintPattern : regex :=
  Cat (Capture 1 (Many1 dot))
      (Cat (Capture 2 (Or (Str "<=") (Or (Str ">=") (Str "="))))
           (Capture 3 (Many1 dot))).

(** parser.cpp line 195: group 1 is \w+ , then \s* , group 2 is >=|<=|= ,
    then \s* , and group 3 is -? \d+ \.? \d* *)
Definition boundPattern : regex :=
  Cat (Capture 1 (Many1 word_char))
      (Cat (Many isspace)
      (Cat (Capture 2 (Or (Str ">=") (Or (Str "<=") (Str "="))))
      (Cat (Many isspace)
           (Capture 3 (Cat (Maybe (Chr "-"))
                      (Cat (Many1 isdigit) (Cat (Maybe (Chr ".")) (Many isdigit)))))))).

(** ** double and std::stod

    A [double] is modelled by the exact rational it denotes (kept reduced, so
    that equal values are equal terms), or an infinity, or NaN.  The rounding
    of a literal to binary64 is not modelled, negative zero is not told from
    zero, and of the range errors of [strtod] only overflow is (the treatment
    of underflow is left to the implementation by the C standard). *)

Inductive double : Type :=
| NaN
| Inf (negative : bool)
| Fin (q : Q).

Definition INFINITY : double := Inf false.
Definition dneg (d : double) : double :=
  match d with
  | NaN => NaN
  | Inf b => Inf (negb b)
  | Fin q => Fin (Qred (Qopp q))
  end.
Definition dZ (z : Z) : double := Fin (inject_Z z).

(** Magnitudes from this bound on round to an infinity: 2^1024 - 2^970. *)
Definition overflow_bound : Z := 2 ^ 1024 - 2 ^ 970.

Definition lower_case (c : ascii) : ascii :=
  if isupper c then ascii_of_nat (nat_of_ascii c + 32) else c.

Fixpoint prefix_ci (p s : string) : bool :=
  match p, s with
  | EmptyString, _ => true
  | String a p', String b s' => Ascii.eqb a (lower_case b) && prefix_ci p' s'
  | String _ _, EmptyString => false
  end.

Definition dec_digit (c : ascii) : option Z :=
  if isdigit c then Some (code c - 48) else None.

Definition hex_digit (c : ascii) : option Z :=
  if isdigit c then Some (code c - 48)
  else if between "a" "f" (lower_case c) then Some (code (lower_case c) - 87)
  else None.

(** The longest run of digits at the head of [s]: its value in [base] on top
    of [acc], the number of digits, and the rest. *)
Fixpoint digits (digit : ascii -> option Z) (base : Z) (acc : Z) (s : string)
    : Z * nat * string :=
  match s with
  | String c s' =>
      match digit c with
      | Some d =>
          let '(v, n, rest) := digits digit base (acc * base + d) s' in (v, S n, rest)
      | None => (acc, O, s)
      end
  | EmptyString => (acc, O, s)
  end.

(** An exponent part: the marker, an optional sign and at least one decimal
    digit; [0] when there is none. *)
Definition exponent (marker : ascii) (s : string) : Z :=
  match s with
  | String c s' =>
      if Ascii.eqb (lower_case c) marker then
        let '(neg, s2) :=
          match s' with
          | String "-" t => (true, t)
          | String "+" t => (false, t)
          | _ => (false, s')
          end in
        let '(e, n, _) := digits dec_digit 10 0 s2 in
        match n with
        | O => 0
        | S _ => if neg : bool then - e else e
        end
      else 0
  | EmptyString => 0
  end.

(** [m * b^e] for an integer [m] and a possibly negative [e]. *)
Definition scale (m : Z) (b : Z) (e : Z) : Q :=
  if 0 <=? e then inject_Z (m * b ^ e)
  else Qred (Qmake m 1 / inject_Z (b ^ (- e))).

(** A mantissa [digits [. digits]] in [base] with its exponent part; [None]
    when it has no digit at all. *)
Definition mantissa (digit : ascii -> option Z) (base : Z) (marker : ascii)
    (ebase : Z) (s : string) : option Q :=
  let '(a, n1, rest) := digits digit base 0 s in
  let '(v, n2, rest2) :=
    match rest with
    | String "." t => digits digit base a t
    | _ => (a, O, rest)
    end in
  match (n1 + n2)%nat with
  | O => None
  | S _ =>
      Some (Qred (Qmult (scale v base (- Z.of_nat n2))
                        (scale 1 ebase (exponent marker rest2))))
  end.

Definition magnitude (s : string) : option double :=
  if prefix_ci "inf" s then Some INFINITY
  else if prefix_ci "nan" s then Some NaN
  else
    let hex :=
      match s with
      | String "0" (String x t) =>
          if Ascii.eqb (lower_case x) "x" then mantissa hex_digit 16 "p" 2 t else None
      | _ => None
      end in
    match hex with
    | Some q => Some (Fin q)
    | None => Fin <$> mantissa dec_digit 10 "e" 10 s
    end.

Fixpoint skip_spaces (s : string) : string :=
  match s with
  | String c s' => if isspace c then skip_spaces s' else s
  | EmptyString => s
  end.

(** [std::stod(s)]: leading white space is skipped, the longest numeric
    prefix is converted and what follows it is ignored; [invalid_argument]
    when there is no such prefix, [out_of_range] on overflow. *)
Definition stod (s : string) : result double :=
  let s1 := skip_spaces s in
  let '(neg, s2) :=
    match s1 with
    | String "-" t => (true, t)
    | String "+" t => (false, t)
    | _ => (false, s1)
    end in
  match magnitude s2 with
  | None => Throw StodInvalidArgument
  | Some (Fin q) =>
      if Qle_bool (inject_Z overflow_bound) q then Throw StodOutOfRange
      else OK (if neg : bool then dneg (Fin q) else Fin q)
  | Some d => OK (if neg : bool then dneg d else d)
  end.

(** ** The data model of parser.h *)

Inductive OptType : Type := MAXIMIZE | MINIMIZE.

Record Term : Type := { coefficient : double; variable : string }.

Record LinearExpression : Type := {
  terms : list Term;
  rhs : double;
  op : string;
  lineNumber : Z
}.

Inductive VarType : Type := CONTINUOUS | INTEGER | BINARY.

(** The member [type] of [Bound] is [kind] here; [type] is the member of
    [LPModel]. *)
Record Bound : Type := {
  lower : double;
  upper : double;
  isFree : bool;
  kind : VarType
}.

Record LPModel : Type := {
  type : OptType;
  objective : LinearExpression;
  constraints : list LinearExpression;
  bounds : gmap string Bound
}.

(** The default member initializers of [Bound]. *)
Definition default_Bound : Bound :=
  {| lower := dneg INFINITY; upper := INFINITY; isFree := false; kind := CONTINUOUS |}.

(** [LPModel model;] leaves the members without an initializer, [type] and
    [objective.lineNumber], indeterminate.  What such a member reads as is an
    input of the model. *)
Record Indeterminate : Type := { any_type : OptType; any_lineNumber : Z }.

Definition default_LPModel (u : Indeterminate) : LPModel :=
  {| type := any_type u;
     objective := {| terms := []; rhs := dZ 0; op := ""; lineNumber := any_lineNumber u |};
     constraints := [];
     bounds := ∅ |}.

(** ** The readers of parser.cpp *)

Definition parseTerm (token : string) (line : Z) : result Term :=
  match regex_match termPattern token with
  | None => Throw (InvalidTermFormat line token)
  | Some m =>
      let coeffStr := m 1%nat in
      coeff ←
        (if negb (coeffStr =? "")%string && negb (coeffStr =? "+")%string
            && negb (coeffStr =? "-")%string
         then stod coeffStr
         else if (coeffStr =? "-")%string then OK (dZ (-1))
         else OK (dZ 1));
      OK {| coefficient := coeff; variable := m 2%nat |}
  end.

Definition parseExpression (exprStr : string) (line : Z) : result (list Term) :=
  terms ← mapM (fun m => parseTerm (remove_spaces m) line)
               (sregex_iterator tokenPattern exprStr);
  match terms with
  | [] => Throw (NoValidTerms line)
  | _ :: _ => OK terms
  end.

Definition parseConstraint (lineStr : string) (line : Z) : result LinearExpression :=
  match regex_match constraintPattern lineStr with
  | None => Throw (InvalidConstraintFormat line)
  | Some m =>
      let lhs := m 1%nat in
      let op := m 2%nat in
      let rhsStr := m 3%nat in
      terms ← parseExpression lhs line;
      rhs ← stod rhsStr;
      OK {| terms := terms; rhs := rhs; op := op; lineNumber := line |}
  end.

(** ** Parser::parseFile *)

Inductive Section_ : Type := NONE | CONSTRAINTS | BOUNDS | INTEGERS | BINARIES.

(** The locals of [parseFile] that live across the iterations of its loop. *)
Record Locals : Type := {
  model : LPModel;
  lineNo : Z;
  current : Section_;
  objectiveParsed : bool
}.

Definition with_model (f : LPModel -> LPModel) (st : Locals) : Locals :=
  {| model := f (model st); lineNo := lineNo st; current := current st;
     objectiveParsed := objectiveParsed st |}.
Definition with_current (c : Section_) (st : Locals) : Locals :=
  {| model := model st; lineNo := lineNo st; current := c;
     objectiveParsed := objectiveParsed st |}.
Definition with_objectiveParsed (b : bool) (st : Locals) : Locals :=
  {| model := model st; lineNo := lineNo st; current := current st;
     objectiveParsed := b |}.
Definition with_lineNo (n : Z) (st : Locals) : Locals :=
  {| model := model st; lineNo := n; current := current st;
     objectiveParsed := objectiveParsed st |}.

Definition set_type (t : OptType) (m : LPModel) : LPModel :=
  {| type := t; objective := objective m; constraints := constraints m; bounds := bounds m |}.
Definition set_objective (e : LinearExpression) (m : LPModel) : LPModel :=
  {| type := type m; objective := e; constraints := constraints m; bounds := bounds m |}.
Definition push_constraint (e : LinearExpression) (m : LPModel) : LPModel :=
  {| type := type m; objective := objective m; constraints := constraints m ++ [e];
     bounds := bounds m |}.

(** [auto& b = model.bounds[var]; ...]: [operator[]] inserts a default
    [Bound] when [var] has none, and the statements that follow change the
    record in place. *)
Definition subscript (var : string) (f : Bound -> Bound) (bs : gmap string Bound)
    : gmap string Bound :=
  <[var := f (default default_Bound (bs !! var))]> bs.
Definition at_bounds (var : string) (f : Bound -> Bound) (m : LPModel) : LPModel :=
  {| type := type m; objective := objective m; constraints := constraints m;
     bounds := subscript var f (bounds m) |}.

Definition set_lower (v : double) (b : Bound) : Bound :=
  {| lower := v; upper := upper b; isFree := isFree b; kind := kind b |}.
Definition set_upper (v : double) (b : Bound) : Bound :=
  {| lower := lower b; upper := v; isFree := isFree b; kind := kind b |}.
Definition set_isFree (v : bool) (b : Bound) : Bound :=
  {| lower := lower b; upper := upper b; isFree := v; kind := kind b |}.
Definition set_kind (v : VarType) (b : Bound) : Bound :=
  {| lower := lower b; upper := upper b; isFree := isFree b; kind := v |}.

(** The statements that follow [auto& b = model.bounds[var]] for a bound
    assignment. *)
Definition narrow (op : string) (val : double) (b : Bound) : Bound :=
  if (op =? ">=")%string then set_lower val b
  else if (op =? "<=")%string then set_upper val b
  else if (op =? "=")%string then set_lower val (set_upper val b)
  else b.

(** The branch [current == BOUNDS]. *)
Definition boundLine (line : string) (n : Z) (m : LPModel) : result LPModel :=
  match find "free" line with
  | Some i =>
      let var := trim (substr 0 i line) in
      OK (at_bounds var (set_isFree true) m)
  | None =>
      match regex_match boundPattern line with
      | Some mt =>
          let var := mt 1%nat in
          let op := mt 2%nat in
          val ← stod (mt 3%nat);
          OK (at_bounds var (narrow op val) m)
      | None => Throw (InvalidBoundFormat n)
      end
  end.

(** The branch [current == INTEGERS || current == BINARIES]. *)
Definition declared (cur : Section_) (b : Bound) : Bound :=
  let b := set_kind (match cur with INTEGERS => INTEGER | _ => BINARY end) b in
  match cur with
  | BINARIES => set_upper (dZ 1) (set_lower (dZ 0) b)
  | _ => b
  end.

Definition declare (cur : Section_) (var : string) (m : LPModel) : LPModel :=
  at_bounds var (declared cur) m.

Definition declarations (cur : Section_) (line : string) (m : LPModel) : LPModel :=
  foldl (fun m var => declare cur var m) m (split line ",").

(** One iteration of [while (getline(file, line))]. *)
Definition parseLine (st : Locals) (raw : string) : result Locals :=
  let n := lineNo st + 1 in
  let st := with_lineNo n st in
  let line := trim raw in
  if isBlank line || starts_with "//" line then OK st
  else if (line =? "Max")%string || (line =? "Min")%string then
    if objectiveParsed st then Throw (DuplicateOptimizationType n)
    else OK (with_objectiveParsed true
               (with_model (set_type (if (line =? "Max")%string then MAXIMIZE
                                      else MINIMIZE)) st))
  else if negb (objectiveParsed st) then
    ts ← parseExpression line n;
    OK (with_current CONSTRAINTS
          (with_objectiveParsed true
             (with_model (set_objective
                {| terms := ts; rhs := dZ 0; op := ""; lineNumber := n |}) st)))
  else if (line =? "Bounds:")%string then OK (with_current BOUNDS st)
  else if (line =? "Integer:")%string then OK (with_current INTEGERS st)
  else if (line =? "Binary:")%string then OK (with_current BINARIES st)
  else
    match current st with
    | CONSTRAINTS =>
        c ← parseConstraint line n;
        OK (with_model (push_constraint c) st)
    | BOUNDS =>
        m ← boundLine line n (model st);
        OK (with_model (fun _ => m) st)
    | INTEGERS | BINARIES =>
        OK (with_model (declarations (current st) line) st)
    | NONE => Throw (UnexpectedLine n)
    end.

Definition initial (u : Indeterminate) : Locals :=
  {| model := default_LPModel u; lineNo := 0; current := NONE; objectiveParsed := false |}.

(** The loop from a given state, over the lines still to be read. *)
Fixpoint parseLines (st : Locals) (lines : list string) : result Locals :=
  match lines with
  | [] => OK st
  | raw :: rest => st' ← parseLine st raw; parseLines st' rest
  end.

(** The loop over a whole stream of text. *)
Definition parseStream (u : Indeterminate) (text : string) : result LPModel :=
  st ← parseLines (initial u) (getlines "010" text);
  OK (model st).

(** [parseFile(path)] on a file system that maps a path to the text of the
    file, when it can be opened. *)
Definition parseFile (fs : string -> option string) (u : Indeterminate)
    (path : string) : result LPModel :=
  match fs path with
  | None => Throw (CouldNotOpenInputFile path)
  | Some text => parseStream u text
  end.

(** ** GLPKSolver::loadModel (solver.cpp)

    The GLPK problem object is the record of what [loadModel] stores in it.
    [model.bounds] is an unordered map: the order in which step 1 numbers the
    columns is the order of [map_to_list] here, and nothing below depends on
    it.

    What is modelled is the code of [loadModel]: the calls it makes, in
    their order, and the two exceptions it can throw itself.  GLPK is not
    modelled.  Its routines end the process when they refuse an argument
    ([glp_add_cols] and [glp_add_rows] a count below 1, [glp_load_matrix] a
    cell given twice, [glp_set_col_name] a name with a control character or
    of more than 255 characters), so [OK p] says that [loadModel] comes to
    its end with the calls recorded in [p] provided GLPK returns from each
    of them, and [Throw e] that it throws [e] provided GLPK returns from the
    calls made before. *)

Definition deq (a b : double) : bool :=
  match a, b with
  | Inf x, Inf y => Bool.eqb x y
  | Fin p, Fin q => Qeq_bool p q
  | _, _ => false
  end.

Inductive glp_bnds : Type :=
| GLP_FR
| GLP_LO (lb : double)
| GLP_UP (ub : double)
| GLP_DB (lb ub : double)
| GLP_FX (v : double).

Inductive glp_kind : Type := GLP_CV | GLP_IV | GLP_BV.

Record glp_prob : Type := {
  obj_dir : OptType;
  cols : list (string * glp_bnds * glp_kind);
  obj_coef : list (Z * double);
  rows : list glp_bnds;
  matrix : list (Z * Z * double)
}.

Definition col_bnds (bound : Bound) : glp_bnds :=
  if isFree bound then GLP_FR
  else if negb (deq (lower bound) (dneg INFINITY)) && negb (deq (upper bound) INFINITY)
       then GLP_DB (lower bound) (upper bound)
  else if negb (deq (lower bound) (dneg INFINITY)) then GLP_LO (lower bound)
  else if negb (deq (upper bound) INFINITY) then GLP_UP (upper bound)
  else GLP_FR.

Definition col_kind (bound : Bound) : glp_kind :=
  match kind bound with
  | CONTINUOUS => GLP_CV
  | INTEGER => GLP_IV
  | BINARY => GLP_BV
  end.

(** [varNameToCol] after step 1: the columns are numbered from 1. *)
Definition varNameToCol (bs : gmap string Bound) : gmap string Z :=
  list_to_map (zip (map_to_list bs).*1 (seqZ 1 (Z.of_nat (size bs)))).

(** [varNameToCol.at(name)]. *)
Definition at_ (m : gmap string Z) (name : string) : result Z :=
  match m !! name with
  | Some idx => OK idx
  | None => Throw AtOutOfRange
  end.

Definition row_bnds (con : LinearExpression) : result glp_bnds :=
  if (op con =? "<=")%string then OK (GLP_UP (rhs con))
  else if (op con =? ">=")%string then OK (GLP_LO (rhs con))
  else if (op con =? "=")%string then OK (GLP_FX (rhs con))
  else Throw (UnknownConstraintOperator (op con)).

Definition loadModel (model : LPModel) : result glp_prob :=
  let columns := varNameToCol (bounds model) in
  (* 2. Set objective function *)
  obj ← mapM (fun term => idx ← at_ columns (variable term); OK (idx, coefficient term))
             (terms (objective model));
  (* 3. Add constraints (rows) *)
  rws ← mapM row_bnds (constraints model);
  (* 4. Set constraint matrix *)
  mat ← mapM (fun '(i, con) =>
                mapM (fun term => j ← at_ columns (variable term);
                                  OK (Z.of_nat i + 1, j, coefficient term))
                     (terms con))
             (imap (fun i con => (i, con)) (constraints model));
  OK {| obj_dir := type model;
        cols := (fun '(name, bound) => (name, col_bnds bound, col_kind bound))
                  <$> map_to_list (bounds model);
        obj_coef := obj;
        rows := rws;
        matrix := List.concat mat |}.

(** ** Texts *)

Definition nl : string := String "010" "".

(** The text whose lines are [ls], each ended by a newline. *)
Fixpoint unlines (ls : list string) : string :=
  match ls with
  | [] => ""
  | l :: ls' => l ++ nl ++ unlines ls'
  end.

(** A line of content: after trimming it is not blank, not a comment, not a
    direction line and not a section header, so that [parseLine] hands it to
    the reader of the current section. *)
Definition is_direction (line : string) : bool :=
  (line =? "Max")%string || (line =? "Min")%string.
Definition is_header (line : string) : bool :=
  (line =? "Bounds:")%string || (line =? "Integer:")%string || (line =? "Binary:")%string.
Definition skipped (line : string) : bool := isBlank line || starts_with "//" line.
Definition is_content (line : string) : bool :=
  negb (skipped line) && negb (is_direction line) && negb (is_header line).

(** The three sub-matches of a successful match. *)
Definition groups (o : option captures) : option (string * string * string) :=
  (fun c : captures => (c 1%nat, c 2%nat, c 3%nat)) <$> o.

(** Every character of [s] is in the class [p]. *)
Fixpoint all (p : ascii -> bool) (s : string) : bool :=
  match s with
  | EmptyString => true
  | String c s' => p c && all p s'
  end.

(** The third group of the constraint pattern, and its second and third
    groups together: what is matched after the first group. *)
Definition rhs_group : regex := Capture 3 (Many1 dot).
Definition constraint_tail : regex :=
  Cat (Capture 2 (Or (Str "<=") (Or (Str ">=") (Str "=")))) rhs_group.

(** The first character of [s] is in the class [p]. *)
Definition starts (p : ascii -> bool) (s : string) : bool :=
  match s with
  | EmptyString => false
  | String a _ => p a
  end.

(** Shapes of text: an identifier, and the text of a number as the bound
    pattern reads it ([-? \d+ \.? \d*]). *)
Definition identifier (v : string) : bool :=
  match v with
  | EmptyString => false
  | String a v' => ident_start a && all word_char v'
  end.

Definition word (v : string) : bool :=
  match v with
  | EmptyString => false
  | String a v' => word_char a && all word_char v'
  end.

Definition digits1 (d : string) : bool :=
  match d with
  | EmptyString => false
  | String a d' => isdigit a && all isdigit d'
  end.

Definition operator3 (o : string) : bool :=
  (o =? ">=")%string || (o =? "<=")%string || (o =? "=")%string.

(** The groups of the bound pattern. *)
Definition bound_operator : regex := Capture 2 (Or (Str ">=") (Or (Str "<=") (Str "="))).
Definition bound_number : regex :=
  Capture 3 (Cat (Maybe (Chr "-"))
            (Cat (Many1 isdigit) (Cat (Maybe (Chr ".")) (Many isdigit)))).

(** The states of the loop that some input reaches. *)
Definition reachable (st : Locals) : Prop :=
  exists u lines, parseLines (initial u) lines = OK st.

(** The record of [var] as [operator[]] finds it. *)
Definition record_of (var : string) (m : LPModel) : Bound :=
  default default_Bound (bounds m !! var).

(** Some line of the input is a direction line. *)
Definition has_direction (lines : list string) : bool :=
  existsb (fun raw => is_direction (trim raw)) lines.

(** Two runs of the loop agree: on everything the statements of the loop
    have written, and on [type] once a direction line was read ([d]).  The
    members left out are the ones [LPModel model;] leaves indeterminate until
    they are assigned: [type] and [objective.lineNumber]. *)
Definition agree (d : bool) (s1 s2 : Locals) : Prop :=
  lineNo s1 = lineNo s2
  /\ current s1 = current s2
  /\ objectiveParsed s1 = objectiveParsed s2
  /\ terms (objective (model s1)) = terms (objective (model s2))
  /\ rhs (objective (model s1)) = rhs (objective (model s2))
  /\ op (objective (model s1)) = op (objective (model s2))
  /\ constraints (model s1) = constraints (model s2)
  /\ bounds (model s1) = bounds (model s2)
  /\ (d = true -> type (model s1) = type (model s2)).

(** ** Shapes used by the further properties *)

(** The last character of [s] is in the class [p]. *)
Fixpoint last_is (p : ascii -> bool) (s : string) : bool :=
  match s with
  | EmptyString => false
  | String c EmptyString => p c
  | String _ s' => last_is p s'
  end.

(** A character that [trim] keeps. *)
Definition kept (c : ascii) : bool := negb (trim_set c).

(** A character other than [d]. *)
Definition other_than (d : ascii) (c : ascii) : bool := negb (Ascii.eqb c d).

(** What [trim] leaves of the text after a kept character: the text up to
    its last kept character. *)
Definition rtrim (s : string) : string :=
  match find_last_not_of trim_set s with
  | Some b => substr 0 (S b) s
  | None => ""
  end.

(** The language of a pattern, with the sub-matches a match records:
    [matches r p c c'] when [r] matches exactly the text [p] and turns the
    sub-matches [c] into [c']. *)
Inductive matches : regex -> string -> captures -> captures -> Prop :=
| matches_Empty c : matches Empty "" c c
| matches_Class (p : ascii -> bool) a c : p a = true -> matches (Class p) (String a "") c c
| matches_Cat r1 r2 p1 p2 c c1 c2 :
    matches r1 p1 c c1 -> matches r2 p2 c1 c2 -> matches (Cat r1 r2) (p1 ++ p2) c c2
| matches_Or_l r1 r2 p c c' : matches r1 p c c' -> matches (Or r1 r2) p c c'
| matches_Or_r r1 r2 p c c' : matches r2 p c c' -> matches (Or r1 r2) p c c'
| matches_Many (p : ascii -> bool) s c : all p s = true -> matches (Many p) s c c
| matches_Capture i r p c c' :
    matches r p c c' -> matches (Capture i r) p c (set_capture i p c').

(** The coefficient text of a term: [[+-]? \d* \.? \d*]. *)
Definition coefficient_text (sg d1 dt d2 : string) : Prop :=
  (sg = "" \/ sg = "+" \/ sg = "-")
  /\ all isdigit d1 = true /\ (dt = "" \/ dt = ".") /\ all isdigit d2 = true.

(** A character that is no white space, and one that cannot begin an
    identifier. *)
Definition nonspace (c : ascii) : bool := negb (isspace c).
Definition no_ident_start (c : ascii) : bool := negb (ident_start c).

(** The exceptions that the loop of [parseFile] throws while it reads the
    line numbered [n]. *)
Definition thrown_at (n : Z) (e : exn) : Prop :=
  e = DuplicateOptimizationType n \/ e = NoValidTerms n
  \/ e = InvalidConstraintFormat n \/ e = InvalidBoundFormat n
  \/ e = UnexpectedLine n \/ e = StodInvalidArgument \/ e = StodOutOfRange.

(** The constraint [c] is what [parseConstraint] returned for one of the
    lines [lines], and [c.lineNumber] is the 1-based number of that line. *)
Definition read_at (lines : list string) (c : LinearExpression) : Prop :=
  0 < lineNumber c
  /\ exists raw,
       lines !! Z.to_nat (lineNumber c - 1) = Some raw
       /\ parseConstraint (trim raw) (lineNumber c) = OK c.

(** A constraint as the loop stores it after the lines [lines]. *)
Definition well_read (lines : list string) (c : LinearExpression) : Prop :=
  op c = "=" /\ terms c <> []
  /\ Forall (fun t => identifier (variable t) = true) (terms c)
  /\ read_at lines c.

Definition in_line_order (cs : list LinearExpression) : Prop :=
  forall i j ci cj,
    cs !! i = Some ci -> cs !! j = Some cj -> (i < j)%nat ->
    lineNumber ci < lineNumber cj.

(** The objective is what [parseExpression] returned for one of the lines
    [lines], whose 1-based number is [o.lineNumber]. *)
Definition objective_at (lines : list string) (o : LinearExpression) : Prop :=
  0 < lineNumber o
  /\ exists raw,
       lines !! Z.to_nat (lineNumber o - 1) = Some raw
       /\ parseExpression (trim raw) (lineNumber o) = OK (terms o).

(** The objective was read, on a line before every constraint. *)
Definition objective_read (lines : list string) (st : Locals) : Prop :=
  objectiveParsed st = true
  /\ terms (objective (model st)) <> []
  /\ objective_at lines (objective (model st))
  /\ Forall (fun c => lineNumber (objective (model st)) < lineNumber c)
            (constraints (model st)).

(** The state of the loop after the lines [lines]. *)
Definition constraints_invariant (lines : list string) (st : Locals) : Prop :=
  lineNo st = Z.of_nat (List.length lines)
  /\ Forall (well_read lines) (constraints (model st))
  /\ in_line_order (constraints (model st))
  /\ (current st = CONSTRAINTS \/ constraints (model st) <> [] -> objective_read lines st).

(** What a later write to a bounds entry keeps of an earlier one, and a map
    of bounds that keeps every entry of another. *)
Definition keeps (b b' : Bound) : Prop :=
  (isFree b = true -> isFree b' = true)
  /\ (kind b <> CONTINUOUS -> kind b' <> CONTINUOUS).

Definition grows (bs bs' : gmap string Bound) : Prop :=
  forall v b, bs !! v = Some b -> exists b', bs' !! v = Some b' /\ keeps b b'.

(** What [loadModel] needs of a model: a column for the variable of every
    term, and on every constraint an operator that [isOperator] accepts. *)
Definition has_column (m : LPModel) (t : Term) : Prop :=
  is_Some (bounds m !! variable t).

Definition loadable (m : LPModel) : Prop :=
  Forall (has_column m) (terms (objective m))
  /\ Forall (fun c => isOperator (op c) = true /\ Forall (has_column m) (terms c))
            (constraints m).

(** Column [j] of the problem is the one that step 1 made for the variable
    of [t], with the bounds and the kind of its entry. *)
Definition column_of (m : LPModel) (p : glp_prob) (t : Term) (j : Z) : Prop :=
  1 <= j <= Z.of_nat (size (bounds m))
  /\ exists b, bounds m !! variable t = Some b
               /\ cols p !! Z.to_nat (j - 1) = Some (variable t, col_bnds b, col_kind b).

(** Neither an objective nor a constraint was read, and the loop is not in
    the constraints. *)
Definition nothing_read (st : Locals) : Prop :=
  terms (objective (model st)) = [] /\ constraints (model st) = []
  /\ current st <> CONSTRAINTS.

(** The state of the loop after lines of which one was a direction line
    ([d = true]) or none was. *)
Definition direction_invariant (u : Indeterminate) (d : bool) (st : Locals) : Prop :=
  (objectiveParsed st = false -> d = false /\ nothing_read st)
  /\ (d = true -> nothing_read st)
  /\ (d = false -> type (model st) = any_type u).

(** ** main (main.cpp)

    The locals that the argument loop of [main] assigns, the three ways in
    which [main] returns 1 before the [try] block, and the loop itself over
    [argv[1]] to [argv[argc - 1]].  [-f] and [-o] take the next argument,
    whatever it is, when there is one; without one they fall through to the
    last branch like any other unknown argument. *)
Record Options : Type := {
  inputFile : string;
  outputFile : string;
  useDualSimplex : bool;
  enableLogging : bool
}.

Definition initial_Options : Options :=
  {| inputFile := ""; outputFile := ""; useDualSimplex := false; enableLogging := false |}.

Definition with_inputFile (v : string) (o : Options) : Options :=
  {| inputFile := v; outputFile := outputFile o;
     useDualSimplex := useDualSimplex o; enableLogging := enableLogging o |}.
Definition with_outputFile (v : string) (o : Options) : Options :=
  {| inputFile := inputFile o; outputFile := v;
     useDualSimplex := useDualSimplex o; enableLogging := enableLogging o |}.
Definition with_useDualSimplex (o : Options) : Options :=
  {| inputFile := inputFile o; outputFile := outputFile o;
     useDualSimplex := true; enableLogging := enableLogging o |}.
Definition with_enableLogging (o : Options) : Options :=
  {| inputFile := inputFile o; outputFile := outputFile o;
     useDualSimplex := useDualSimplex o; enableLogging := true |}.

Inductive ArgError : Type :=
| Usage
| UnknownArgument (arg : string)
| PathsRequired.

Fixpoint scanArguments (args : list string) (o : Options) : ArgError + Options :=
  match args with
  | [] => inr o
  | a :: rest =>
      let flags :=
        if (a =? "--dual")%string then scanArguments rest (with_useDualSimplex o)
        else if (a =? "--log")%string then scanArguments rest (with_enableLogging o)
        else inl (UnknownArgument a) in
      match rest with
      | v :: rest' =>
          if (a =? "-f")%string then scanArguments rest' (with_inputFile v o)
          else if (a =? "-o")%string then scanArguments rest' (with_outputFile v o)
          else flags
      | [] => flags
      end
  end.

(** [main] up to the [try] block; [args] is [argv] without [argv[0]], so that
    [argc] is one more than its length. *)
Definition main_arguments (args : list string) : ArgError + Options :=
  if Z.of_nat (List.length args) + 1 <? 5 then inl Usage
  else match scanArguments args initial_Options with
       | inl e => inl e
       | inr o =>
           if (inputFile o =? "")%string || (outputFile o =? "")%string
           then inl PathsRequired
           else inr o
       end.

(** [main] up to the call of [solver.solve]: it has returned 1 on the
    arguments, or caught an exception of [parseFile] or [loadModel], or holds
    the loaded problem. *)
Inductive Started : Type :=
| Rejected (e : ArgError)
| Failed (e : exn)
| Solves (o : Options) (p : glp_prob).

Definition main_until_solve (fs : string -> option string) (u : Indeterminate)
    (args : list string) : Started :=
  match main_arguments args with
  | inl e => Rejected e
  | inr o =>
      match parseFile fs u (inputFile o) with
      | Throw e => Failed e
      | OK model =>
          match loadModel model with
          | Throw e => Failed e
          | OK p => Solves o p
          end
      end
  end.

(** A command line as a list of options, the arguments that write it, and
    the assignments it stands for. *)
Inductive Argument : Type :=
| InputFile (v : string)
| OutputFile (v : string)
| Dual
| Log.

Definition written (a : Argument) : list string :=
  match a with
  | InputFile v => ["-f"; v]
  | OutputFile v => ["-o"; v]
  | Dual => ["--dual"]
  | Log => ["--log"]
  end.

Definition command_line (items : list Argument) : list string :=
  List.concat (written <$> items).

Definition assigned (o : Options) (a : Argument) : Options :=
  match a with
  | InputFile v => with_inputFile v o
  | OutputFile v => with_outputFile v o
  | Dual => with_useDualSimplex o
  | Log => with_enableLogging o
  end.

Definition is_flag (a : string) : bool := (a =? "--dual")%string || (a =? "--log")%string.
Definition takes_path (a : string) : bool := (a =? "-f")%string || (a =? "-o")%string.

(** A character other than the equals sign. *)
Definition no_equals (c : ascii) : bool := negb (Ascii.eqb c "=").

(** The line [l'] is the line [l] with white space put before and after. *)
Definition padded (l l' : string) : Prop :=
  exists a b, all trim_set a = true /\ all trim_set b = true /\ l' = a ++ l ++ b.

(** A text in which an equals sign has text before it and text after it, on
    one line. *)
Definition splits_at_equals (s : string) : Prop :=
  all dot s = true
  /\ exists lhs rhs, lhs <> "" /\ rhs <> "" /\ s = lhs ++ "=" ++ rhs.

(** * Properties *)

(** ** The loop body, branch by branch *)

Lemma parseLine_skipped st raw :
  skipped (trim raw) = true ->
  parseLine st raw = OK (with_lineNo (lineNo st + 1) st).
Proof. unfold parseLine, skipped. intros ->. reflexivity. Qed.

Lemma parseLine_direction st raw :
  is_direction (trim raw) = true ->
  parseLine st raw =
    if objectiveParsed st then Throw (DuplicateOptimizationType (lineNo st + 1))
    else OK (with_objectiveParsed true
               (with_model (set_type (if (trim raw =? "Max")%string then MAXIMIZE
                                      else MINIMIZE))
                  (with_lineNo (lineNo st + 1) st))).
Proof.
  unfold parseLine, is_direction. intros H.
  assert (Hs : isBlank (trim raw) || starts_with "//" (trim raw) = false).
  { apply orb_true_iff in H as [H | H]; apply String.eqb_eq in H; rewrite H; reflexivity. }
  rewrite Hs, H. reflexivity.
Qed.

Lemma parseLine_header st raw :
  objectiveParsed st = true ->
  skipped (trim raw) = false ->
  is_direction (trim raw) = false ->
  is_header (trim raw) = true ->
  parseLine st raw =
    OK (with_current
          (if (trim raw =? "Bounds:")%string then BOUNDS
           else if (trim raw =? "Integer:")%string then INTEGERS else BINARIES)
          (with_lineNo (lineNo st + 1) st)).
Proof.
  unfold parseLine, skipped, is_direction, is_header. intros Ho -> -> H.
  cbn [objectiveParsed with_lineNo]. rewrite Ho. cbn [negb].
  destruct (trim raw =? "Bounds:")%string; [reflexivity |].
  destruct (trim raw =? "Integer:")%string; [reflexivity |].
  destruct (trim raw =? "Binary:")%string; [reflexivity | discriminate].
Qed.

Lemma parseLine_content st raw :
  objectiveParsed st = true ->
  is_content (trim raw) = true ->
  parseLine st raw =
    let n := lineNo st + 1 in
    let st1 := with_lineNo n st in
    match current st with
    | CONSTRAINTS =>
        c ← parseConstraint (trim raw) n; OK (with_model (push_constraint c) st1)
    | BOUNDS =>
        m ← boundLine (trim raw) n (model st); OK (with_model (fun _ => m) st1)
    | INTEGERS | BINARIES =>
        OK (with_model (declarations (current st) (trim raw)) st1)
    | NONE => Throw (UnexpectedLine n)
    end.
Proof.
  unfold parseLine, is_content, skipped, is_direction, is_header. intros Ho H.
  apply andb_true_iff in H as [H Hh]. apply andb_true_iff in H as [Hs Hd].
  apply negb_true_iff in Hs, Hd, Hh. rewrite Hs, Hd.
  cbn [objectiveParsed with_lineNo]. rewrite Ho. cbn [negb].
  apply orb_false_iff in Hh as [Hh Hh3]. apply orb_false_iff in Hh as [Hh1 Hh2].
  rewrite Hh1, Hh2, Hh3. reflexivity.
Qed.

Lemma parseLine_objective st raw :
  objectiveParsed st = false ->
  skipped (trim raw) = false ->
  is_direction (trim raw) = false ->
  parseLine st raw =
    let n := lineNo st + 1 in
    ts ← parseExpression (trim raw) n;
    OK (with_current CONSTRAINTS
          (with_objectiveParsed true
             (with_model (set_objective
                {| terms := ts; rhs := dZ 0; op := ""; lineNumber := n |})
                (with_lineNo n st)))).
Proof.
  unfold parseLine, skipped, is_direction. intros Ho -> ->.
  cbn [objectiveParsed with_lineNo]. rewrite Ho. reflexivity.
Qed.

(** The case analysis of [parseLine] on a line, in the order of the source. *)
Ltac parseLine_cases st raw :=
  let Hs := fresh "Hskip" in
  let Hd := fresh "Hdir" in
  let Ho := fresh "Hobj" in
  let Hh := fresh "Hhead" in
  destruct (skipped (trim raw)) eqn:Hs;
  [ rewrite (parseLine_skipped st raw Hs)
  | destruct (is_direction (trim raw)) eqn:Hd;
    [ rewrite (parseLine_direction st raw Hd)
    | destruct (objectiveParsed st) eqn:Ho;
      [ destruct (is_header (trim raw)) eqn:Hh;
        [ rewrite (parseLine_header st raw Ho Hs Hd Hh)
        | rewrite (parseLine_content st raw Ho);
          [| unfold is_content; rewrite Hs, Hd, Hh; reflexivity ] ]
      | rewrite (parseLine_objective st raw Ho Hs Hd) ] ] ].

Lemma bind_OK {A B : Type} (r : result A) (f : A -> result B) (b : B) :
  r ≫= f = OK b -> exists a, r = OK a /\ f a = OK b.
Proof. destruct r as [a | e]; [eauto | discriminate]. Qed.

Lemma bind_ret_l {A B : Type} (a : A) (f : A -> result B) : OK a ≫= f = f a.
Proof. reflexivity. Qed.

(** ** Invariants of the loop *)

Lemma parseLine_lineNo st raw st' :
  parseLine st raw = OK st' -> lineNo st' = lineNo st + 1.
Proof.
  parseLine_cases st raw; cbn zeta.
  - intros [= <-]. reflexivity.
  - destruct (objectiveParsed st); [discriminate |]. intros [= <-]. reflexivity.
  - intros [= <-]. reflexivity.
  - destruct (current st); cbn.
    + discriminate.
    + intros H. apply bind_OK in H as (c & _ & [= <-]). reflexivity.
    + intros H. apply bind_OK in H as (c & _ & [= <-]). reflexivity.
    + intros [= <-]. reflexivity.
    + intros [= <-]. reflexivity.
  - intros H. apply bind_OK in H as (c & _ & [= <-]). reflexivity.
Qed.

Lemma parseLines_lineNo lines : forall st st',
  parseLines st lines = OK st' -> lineNo st' = lineNo st + Z.of_nat (List.length lines).
Proof.
  induction lines as [| raw rest IH]; intros st st'; cbn [parseLines List.length].
  - intros [= <-]. lia.
  - intros H. apply bind_OK in H as (st1 & H1 & H2).
    apply IH in H2. apply parseLine_lineNo in H1. lia.
Qed.

Lemma parseLines_app l1 : forall st l2,
  parseLines st (l1 ++ l2) = st1 ← parseLines st l1; parseLines st1 l2.
Proof.
  induction l1 as [| raw rest IH]; intros st l2; cbn [parseLines app].
  - reflexivity.
  - destruct (parseLine st raw) as [st1 | e]; cbn; [apply IH | reflexivity].
Qed.

(** A section is entered only once the flag [objectiveParsed] is set, and the
    flag is never cleared. *)
Lemma parseLine_section st raw st' :
  parseLine st raw = OK st' ->
  (current st = NONE \/ objectiveParsed st = true) ->
  current st' = NONE \/ objectiveParsed st' = true.
Proof.
  parseLine_cases st raw; cbn zeta.
  - intros [= <-] ?. assumption.
  - destruct (objectiveParsed st); [discriminate |]. intros [= <-] _. right; reflexivity.
  - intros [= <-] _. right. assumption.
  - intros H _. right. destruct (current st); cbn in H.
    + discriminate.
    + apply bind_OK in H as (c & _ & [= <-]). assumption.
    + apply bind_OK in H as (c & _ & [= <-]). assumption.
    + injection H as <-. assumption.
    + injection H as <-. assumption.
  - intros H _. apply bind_OK in H as (c & _ & [= <-]). right; reflexivity.
Qed.

Lemma parseLine_objectiveParsed st raw st' :
  parseLine st raw = OK st' -> objectiveParsed st = true -> objectiveParsed st' = true.
Proof.
  intros H Ho. revert H. parseLine_cases st raw; cbn zeta; try congruence.
  - intros [= <-]. assumption.
  - rewrite Ho. discriminate.
  - intros [= <-]. assumption.
  - destruct (current st); cbn; intros H.
    + discriminate.
    + apply bind_OK in H as (c & _ & [= <-]). assumption.
    + apply bind_OK in H as (c & _ & [= <-]). assumption.
    + injection H as <-. assumption.
    + injection H as <-. assumption.
Qed.

Lemma reachable_section st :
  reachable st -> current st <> NONE -> objectiveParsed st = true.
Proof.
  intros (u & lines & H) Hc.
  assert (Hinv : forall ls s s', parseLines s ls = OK s' ->
            (current s = NONE \/ objectiveParsed s = true) ->
            current s' = NONE \/ objectiveParsed s' = true).
  { induction ls as [| raw rest IH]; intros s s'; cbn [parseLines].
    - intros [= <-] ?. assumption.
    - intros H1 Hs. apply bind_OK in H1 as (s1 & H1 & H2).
      eapply IH; [exact H2 |]. eapply parseLine_section; eassumption. }
  destruct (Hinv _ _ _ H) as [? | ?]; [left; reflexivity | contradiction | assumption].
Qed.

(** ** The bounds map *)

Lemma subscript_eq var f (bs : gmap string Bound) :
  subscript var f bs !! var = Some (f (default default_Bound (bs !! var))).
Proof. unfold subscript. apply lookup_insert_eq. Qed.

Lemma subscript_ne var f (bs : gmap string Bound) w :
  var <> w -> subscript var f bs !! w = bs !! w.
Proof. unfold subscript. intros H. apply lookup_insert_ne. exact H. Qed.

(** ** Lines that hold "free" *)

Lemma trim_cons_space c s : trim_set c = true -> trim (String c s) = trim s.
Proof.
  intros Hc. unfold trim. cbn [find_first_not_of find_last_not_of]. rewrite Hc.
  destruct (find_first_not_of trim_set s) as [a |];
    destruct (find_last_not_of trim_set s) as [b |]; reflexivity.
Qed.

Lemma trim_cons_other c s :
  trim_set c = false -> exists t, trim (String c s) = String c t.
Proof.
  intros Hc. unfold trim. cbn [find_first_not_of find_last_not_of]. rewrite Hc.
  destruct (find_last_not_of trim_set s) as [b |]; unfold substr.
  - replace (S b - 0 + 1)%nat with (S (S b)) by lia. cbn [substring]. eauto.
  - cbn. eauto.
Qed.

Lemma blank_has_no_free s : trim s = "" -> find "free" s = None.
Proof.
  induction s as [| c s IH]; [reflexivity |].
  destruct (trim_set c) eqn:Hc.
  - rewrite (trim_cons_space c s Hc). intros H. specialize (IH H).
    cbn [find]. rewrite IH.
    destruct (starts_with "free" (String c s)) eqn:Hp; [| reflexivity].
    cbn [starts_with] in Hp. apply andb_true_iff in Hp as [Hp _].
    apply Ascii.eqb_eq in Hp. subst c. discriminate.
  - destruct (trim_cons_other c s Hc) as [t ->]. discriminate.
Qed.

Lemma free_line_is_content line i :
  find "free" line = Some i -> starts_with "//" line = false -> is_content line = true.
Proof.
  intros Hf Hc. unfold is_content, skipped, isBlank. rewrite Hc.
  assert (Hb : (trim line =? "")%string = false).
  { apply String.eqb_neq. intros Ht. apply blank_has_no_free in Ht. congruence. }
  rewrite Hb. cbn [orb negb andb].
  assert (Hn : forall k, find "free" k = None -> (line =? k)%string = false).
  { intros k Hk. apply String.eqb_neq. intros ->. congruence. }
  unfold is_direction, is_header.
  rewrite !Hn by reflexivity. reflexivity.
Qed.

(** ** The matcher *)

Lemma substring_0_length s : substring 0 (String.length s) s = s.
Proof. induction s as [| c s IH]; cbn; [reflexivity | rewrite IH; reflexivity]. Qed.

Lemma substring_0_0 s : substring 0 0 s = "".
Proof. destruct s; reflexivity. Qed.

Lemma consumed_all s : consumed s "" = s.
Proof.
  unfold consumed, substr. cbn [String.length]. rewrite Nat.sub_0_r.
  apply substring_0_length.
Qed.

Lemma consumed_none s : consumed s s = "".
Proof. unfold consumed, substr. rewrite Nat.sub_diag. apply substring_0_0. Qed.

Lemma consumed_cons c s s1 :
  (String.length s1 <= String.length s)%nat ->
  consumed (String c s) s1 = String c (consumed s s1).
Proof.
  intros H. unfold consumed, substr. cbn [String.length].
  replace (S (String.length s) - String.length s1)%nat
    with (S (String.length s - String.length s1)) by lia.
  reflexivity.
Qed.

Lemma append_nil (r : string) : "" ++ r = r.
Proof. reflexivity. Qed.

Lemma append_cons c (p r : string) : String c p ++ r = String c (p ++ r).
Proof. reflexivity. Qed.

Lemma length_append (p r : string) :
  String.length (p ++ r) = (String.length p + String.length r)%nat.
Proof.
  induction p as [| c p IH]; [reflexivity |].
  rewrite append_cons. cbn [String.length]. rewrite IH. reflexivity.
Qed.

Lemma consumed_app p r : consumed (p ++ r) r = p.
Proof.
  induction p as [| c p IH].
  - apply consumed_none.
  - rewrite append_cons, consumed_cons; [rewrite IH; reflexivity |].
    rewrite length_append. lia.
Qed.

Lemma many_cons_in {R : Type} p a s (k : string -> option R) :
  p a = true ->
  many p (String a s) k =
    match many p s k with
    | Some r => Some r
    | None => k (String a s)
    end.
Proof. intros H. cbn [many]. rewrite H. reflexivity. Qed.

Lemma many_cons_out {R : Type} p a s (k : string -> option R) :
  p a = false -> many p (String a s) k = k (String a s).
Proof. intros H. cbn [many]. rewrite H. reflexivity. Qed.

(** A star whose continuation only accepts the end of the input succeeds
    exactly on a run of the class up to the end. *)
Lemma many_at_end {R : Type} p s (g : string -> option R) (k : string -> option R) :
  (forall s1, k s1 = match s1 with EmptyString => g s1 | String _ _ => None end) ->
  many p s k = if all p s then g "" else None.
Proof.
  intros Hk. induction s as [| a s IH]; cbn [many all].
  - apply Hk.
  - destruct (p a); cbn [andb].
    + rewrite IH. destruct (all p s).
      * destruct (g ""); [reflexivity | apply Hk].
      * apply Hk.
    + apply Hk.
Qed.

(** The third group of the constraint pattern, and what follows it. *)
Lemma constraint_rhs_match t c :
  run rhs_group t c at_end =
    match t with
    | EmptyString => None
    | String _ _ => if all dot t then Some (set_capture 3 t c) else None
    end.
Proof.
  destruct t as [| a t]; [reflexivity |].
  unfold rhs_group. cbn [run Many1 all]. destruct (dot a); [| reflexivity]. cbn [andb].
  rewrite (many_at_end dot t
             (fun s1 => Some (set_capture 3 (consumed (String a t) s1) c))).
  - rewrite consumed_all. reflexivity.
  - intros [| b s1]; reflexivity.
Qed.

Lemma constraint_tail_eq t c :
  t <> "" -> all dot t = true ->
  run constraint_tail (String "=" t) c at_end
    = Some (set_capture 3 t (set_capture 2 "=" c)).
Proof.
  intros Hne Hall. unfold constraint_tail. cbn [run Str Chr].
  cbn [Ascii.eqb Bool.eqb andb]. rewrite constraint_rhs_match.
  destruct t as [| a t]; [contradiction |]. rewrite Hall.
  rewrite consumed_cons, consumed_none by lia. reflexivity.
Qed.

Lemma constraint_tail_inv t c r :
  run constraint_tail t c at_end = Some r ->
  exists o t2,
    t = o ++ t2 /\ t2 <> "" /\ all dot t2 = true
    /\ r = set_capture 3 t2 (set_capture 2 o c)
    /\ (o = "<=" \/ o = ">=" \/ o = "=").
Proof.
  unfold constraint_tail. cbn [run Str Chr].
  destruct t as [| a t]; [discriminate |].
  destruct (Ascii.eqb "<" a) eqn:Ea.
  - apply Ascii.eqb_eq in Ea. subst a.
    destruct t as [| b t]; [discriminate |].
    destruct (Ascii.eqb "=" b) eqn:Eb; [| discriminate].
    apply Ascii.eqb_eq in Eb. subst b.
    rewrite constraint_rhs_match.
    destruct t as [| d t]; [discriminate |].
    destruct (all dot (String d t)) eqn:Hall; [| discriminate].
    intros [= <-]. exists "<=", (String d t).
    rewrite !consumed_cons, consumed_none by (cbn; lia).
    repeat split; auto; discriminate.
  - destruct (Ascii.eqb ">" a) eqn:Eg.
    + apply Ascii.eqb_eq in Eg. subst a.
      destruct t as [| b t]; [discriminate |].
      destruct (Ascii.eqb "=" b) eqn:Eb; [| discriminate].
      apply Ascii.eqb_eq in Eb. subst b.
      rewrite constraint_rhs_match.
      destruct t as [| d t]; [discriminate |].
      destruct (all dot (String d t)) eqn:Hall; [| discriminate].
      intros [= <-]. exists ">=", (String d t).
      rewrite !consumed_cons, consumed_none by (cbn; lia).
      repeat split; auto; discriminate.
    + destruct (Ascii.eqb "=" a) eqn:Ee; [| discriminate].
      apply Ascii.eqb_eq in Ee. subst a.
      rewrite constraint_rhs_match.
      destruct t as [| d t]; [discriminate |].
      destruct (all dot (String d t)) eqn:Hall; [| discriminate].
      intros [= <-]. exists "=", (String d t).
      rewrite !consumed_cons, consumed_none by (cbn; lia).
      repeat split; auto; discriminate.
Qed.

(** The greedy first group: whatever position the search settles on, the
    operator found there is [=].  Were it [<=] or [>=], the position one
    character further, tried before, would have matched with [=]. *)
Lemma greedy_lhs_ends_before_eq (g : string -> captures) t r :
  many dot t (fun s1 => run constraint_tail s1 (g s1) at_end) = Some r ->
  r 2%nat = "=".
Proof.
  induction t as [| a t IH]; cbn [many].
  - discriminate.
  - assert (Hhere : run constraint_tail (String a t) (g (String a t)) at_end = Some r ->
                    many dot t (fun s1 => run constraint_tail s1 (g s1) at_end) = None ->
                    r 2%nat = "=").
    { intros H Hnone. apply constraint_tail_inv in H
        as (o & t2 & Ht & Hne & Hall & -> & [-> | [-> | ->]]); [| | reflexivity].
      - injection Ht as -> ->.
        rewrite (many_cons_in dot "=" t2 _ eq_refl) in Hnone. cbn beta in Hnone.
        rewrite (constraint_tail_eq t2 _ Hne Hall) in Hnone.
        destruct (many dot t2 _); discriminate.
      - injection Ht as -> ->.
        rewrite (many_cons_in dot "=" t2 _ eq_refl) in Hnone. cbn beta in Hnone.
        rewrite (constraint_tail_eq t2 _ Hne Hall) in Hnone.
        destruct (many dot t2 _); discriminate. }
    destruct (dot a) eqn:Hd.
    + destruct (many dot t _) eqn:Hm.
      * intros [= <-]. apply IH. reflexivity.
      * intros H. apply Hhere; [exact H | reflexivity].
    + intros H. apply constraint_tail_inv in H
        as (o & t2 & Ht & Hne & Hall & -> & [-> | [-> | ->]]);
        [injection Ht as -> -> | injection Ht as -> -> | reflexivity]; discriminate.
Qed.

Lemma constraintPattern_operator s m :
  regex_match constraintPattern s = Some m -> m 2%nat = "=".
Proof.
  unfold regex_match.
  change constraintPattern with (Cat (Capture 1 (Many1 dot)) constraint_tail).
  cbn [run Many1].
  destruct s as [| a s]; [discriminate |].
  destruct (dot a); [| discriminate].
  apply (greedy_lhs_ends_before_eq
           (fun s1 => set_capture 1 (consumed (String a s) s1) no_captures)).
Qed.

(** Whatever the line, a constraint that [parseConstraint] returns has the
    operator [=]: the operators [<=] and [>=] are never returned. *)
Lemma parseConstraint_operator lineStr line e :
  parseConstraint lineStr line = OK e -> op e = "=".
Proof.
  unfold parseConstraint.
  destruct (regex_match constraintPattern lineStr) as [m |] eqn:Hm; [| discriminate].
  intros H. apply bind_OK in H as (ts & _ & H). apply bind_OK in H as (v & _ & [= <-]).
  cbn [op]. eapply constraintPattern_operator, Hm.
Qed.

(** ** First-attempt lemmas for the matcher

    Each says that when the preferred way through a construct reaches a
    continuation that succeeds, that success is the result. *)

Lemma run_cat {R : Type} r1 r2 s c (k : string -> captures -> option R) :
  run (Cat r1 r2) s c k = run r1 s c (fun s1 c1 => run r2 s1 c1 k).
Proof. reflexivity. Qed.

Lemma run_capture {R : Type} i r s c (k : string -> captures -> option R) :
  run (Capture i r) s c k =
    run r s c (fun s1 c1 => k s1 (set_capture i (consumed s s1) c1)).
Proof. reflexivity. Qed.

Lemma run_class {R : Type} p a s c (k : string -> captures -> option R) :
  p a = true -> run (Class p) (String a s) c k = k s c.
Proof. intros H. cbn [run]. rewrite H. reflexivity. Qed.

Lemma many_greedy {R : Type} p v r (k : string -> option R) x :
  all p v = true -> starts p r = false -> k r = Some x ->
  many p (v ++ r) k = Some x.
Proof.
  intros Hv Hr Hk. induction v as [| a v IH].
  - rewrite append_nil. destruct r as [| b r]; [exact Hk |].
    cbn [starts] in Hr. rewrite many_cons_out by exact Hr. exact Hk.
  - cbn [all] in Hv. apply andb_true_iff in Hv as [Ha Hv].
    rewrite append_cons, many_cons_in by exact Ha. rewrite (IH Hv). reflexivity.
Qed.

Lemma run_many_greedy {R : Type} p v r c (k : string -> captures -> option R) x :
  all p v = true -> starts p r = false -> k r c = Some x ->
  run (Many p) (v ++ r) c k = Some x.
Proof. intros Hv Hr Hk. cbn [run]. apply many_greedy; assumption. Qed.

Lemma run_maybe_skip {R : Type} p s c (k : string -> captures -> option R) :
  starts p s = false -> run (Maybe (Class p)) s c k = k s c.
Proof.
  intros H. unfold Maybe. cbn [run]. destruct s as [| a s]; [reflexivity |].
  cbn [starts] in H. rewrite H. reflexivity.
Qed.

Lemma run_maybe_take {R : Type} p a s c (k : string -> captures -> option R) x :
  p a = true -> k s c = Some x -> run (Maybe (Class p)) (String a s) c k = Some x.
Proof. intros H Hk. unfold Maybe. cbn [run]. rewrite H, Hk. reflexivity. Qed.

Lemma run_many_at_end p s c :
  all p s = true -> forall s0 i,
  run (Many p) s c (fun s1 c1 => at_end s1 (set_capture i (consumed s0 s1) c1))
    = Some (set_capture i (consumed s0 "") c).
Proof.
  intros H s0 i. cbn [run].
  rewrite (many_at_end p s (fun s1 => Some (set_capture i (consumed s0 s1) c))).
  - rewrite H. reflexivity.
  - intros [| b s1]; reflexivity.
Qed.

(** ** Character classes *)

Lemma ident_start_class a :
  ident_start a = true ->
  sign_char a = false /\ isdigit a = false /\ Ascii.eqb "." a = false
  /\ word_char a = true /\ trim_set a = false.
Proof.
  destruct a as [[] [] [] [] [] [] [] []]; vm_compute; intros H;
    try discriminate H; repeat split.
Qed.

Lemma isdigit_class a :
  isdigit a = true ->
  sign_char a = false /\ Ascii.eqb "." a = false /\ Ascii.eqb "-" a = false
  /\ isspace a = false /\ word_char a = true /\ trim_set a = false.
Proof.
  destruct a as [[] [] [] [] [] [] [] []]; vm_compute; intros H;
    try discriminate H; repeat split.
Qed.

Lemma isspace_class a :
  isspace a = true -> word_char a = false /\ isdigit a = false.
Proof.
  destruct a as [[] [] [] [] [] [] [] []]; vm_compute; intros H;
    try discriminate H; repeat split.
Qed.

Lemma word_char_class a :
  word_char a = true ->
  isspace a = false /\ trim_set a = false /\ Ascii.eqb "/" a = false.
Proof.
  destruct a as [[] [] [] [] [] [] [] []]; vm_compute; intros H;
    try discriminate H; repeat split.
Qed.

Lemma starts_app_false p (u w : string) :
  starts p u = false -> starts p w = false -> starts p (u ++ w) = false.
Proof. destruct u as [| a u]; intros Hu Hw; [exact Hw | exact Hu]. Qed.

Lemma all_starts q p (u : string) :
  (forall a, q a = true -> p a = false) -> all q u = true -> starts p u = false.
Proof.
  intros Hqp. destruct u as [| a u]; [reflexivity |]. cbn [all starts].
  intros H. apply andb_true_iff in H as [H _]. apply Hqp, H.
Qed.

Lemma append_assoc (a b c : string) : (a ++ b) ++ c = a ++ b ++ c.
Proof.
  induction a as [| x a IH]; [reflexivity |].
  rewrite !append_cons, IH. reflexivity.
Qed.

(** ** The term pattern on well-formed tokens *)

Lemma identifier_group v c :
  identifier v = true ->
  run (Capture 2 (Cat (Class ident_start) (Many word_char))) v c at_end
    = Some (set_capture 2 v c).
Proof.
  destruct v as [| a v]; [discriminate |]. cbn [identifier]. intros H.
  apply andb_true_iff in H as [Ha Hv].
  rewrite run_capture, run_cat, run_class by exact Ha.
  rewrite (run_many_at_end word_char v c Hv (String a v) 2), consumed_all.
  reflexivity.
Qed.

Lemma identifier_starts v :
  identifier v = true ->
  starts sign_char v = false /\ starts isdigit v = false
  /\ starts (Ascii.eqb ".") v = false.
Proof.
  destruct v as [| a v]; [discriminate |]. cbn [identifier starts]. intros H.
  apply andb_true_iff in H as [Ha _].
  destruct (ident_start_class a Ha) as (? & ? & ? & _). auto.
Qed.

Lemma termPattern_match sgn d1 frac v :
  sgn = "" \/ sgn = "+" \/ sgn = "-" ->
  all isdigit d1 = true ->
  frac = "" \/ (exists d2, frac = "." ++ d2 /\ all isdigit d2 = true) ->
  identifier v = true ->
  groups (regex_match termPattern (sgn ++ d1 ++ frac ++ v))
    = Some (sgn ++ d1 ++ frac, v, "").
Proof.
  intros Hs Hd1 Hf Hv.
  destruct (identifier_starts v Hv) as (Hvs & Hvd & Hvp).
  set (token := sgn ++ d1 ++ frac ++ v).
  set (X := set_capture 2 v (set_capture 1 (sgn ++ d1 ++ frac) no_captures)).
  set (K := fun s1 c1 =>
              run (Capture 2 (Cat (Class ident_start) (Many word_char))) s1
                  (set_capture 1 (consumed token s1) c1) at_end).
  assert (HK : K v no_captures = Some X).
  { unfold K. rewrite identifier_group by exact Hv. unfold X. do 2 f_equal.
    unfold token. rewrite <- !append_assoc. rewrite consumed_app.
    rewrite !append_assoc. reflexivity. }
  assert (H4 : forall d2, all isdigit d2 = true ->
             run (Many isdigit) (d2 ++ v) no_captures K = Some X).
  { intros d2 Hd2. apply run_many_greedy; assumption. }
  assert (H3 : run (Cat (Maybe (Chr ".")) (Many isdigit)) (frac ++ v) no_captures K
               = Some X).
  { rewrite run_cat. destruct Hf as [-> | (d2 & -> & Hd2)].
    - rewrite append_nil. unfold Chr. rewrite run_maybe_skip by exact Hvp.
      apply (H4 "" eq_refl).
    - rewrite append_cons, append_nil. unfold Chr.
      apply run_maybe_take; [reflexivity | apply H4, Hd2]. }
  assert (Hfs : starts isdigit (frac ++ v) = false
                /\ starts sign_char (frac ++ v) = false).
  { destruct Hf as [-> | (d2 & -> & _)]; [rewrite append_nil; auto |].
    rewrite append_cons. split; reflexivity. }
  assert (H2 : run (Cat (Many isdigit) (Cat (Maybe (Chr ".")) (Many isdigit)))
                   (d1 ++ frac ++ v) no_captures K = Some X).
  { rewrite run_cat. apply run_many_greedy; [exact Hd1 | apply Hfs | exact H3]. }
  assert (H1 : run (Cat (Maybe (Class sign_char))
                     (Cat (Many isdigit) (Cat (Maybe (Chr ".")) (Many isdigit))))
                   token no_captures K = Some X).
  { rewrite run_cat. unfold token. destruct Hs as [-> | [-> | ->]].
    - rewrite append_nil. rewrite run_maybe_skip; [exact H2 |].
      apply starts_app_false; [| apply Hfs].
      apply (all_starts isdigit); [| exact Hd1].
      intros a Ha. apply isdigit_class, Ha.
    - rewrite append_cons, append_nil. apply run_maybe_take; [reflexivity | exact H2].
    - rewrite append_cons, append_nil. apply run_maybe_take; [reflexivity | exact H2]. }
  unfold regex_match, termPattern. rewrite run_cat, run_capture.
  fold token. change (run _ token no_captures _) with
    (run (Cat (Maybe (Class sign_char))
            (Cat (Many isdigit) (Cat (Maybe (Chr ".")) (Many isdigit))))
         token no_captures K).
  rewrite H1. reflexivity.
Qed.

(** The coefficient of a term: 1 without coefficient text or with a bare
    [+], -1 with a bare [-], and what [stod] makes of the text otherwise. *)
Lemma parseTerm_identifier v line :
  identifier v = true ->
  parseTerm v line = OK {| coefficient := dZ 1; variable := v |}
  /\ parseTerm ("+" ++ v) line = OK {| coefficient := dZ 1; variable := v |}
  /\ parseTerm ("-" ++ v) line = OK {| coefficient := dZ (-1); variable := v |}.
Proof.
  intros Hv. unfold parseTerm.
  pose proof (termPattern_match "" "" "" v (or_introl eq_refl) eq_refl
                (or_introl eq_refl) Hv) as H0.
  pose proof (termPattern_match "+" "" "" v (or_intror (or_introl eq_refl)) eq_refl
                (or_introl eq_refl) Hv) as H1.
  pose proof (termPattern_match "-" "" "" v (or_intror (or_intror eq_refl)) eq_refl
                (or_introl eq_refl) Hv) as H2.
  rewrite !append_nil in H0. unfold groups in *.
  repeat split.
  - destruct (regex_match termPattern v) as [m |]; [| discriminate].
    cbn in H0. injection H0 as -> -> _. reflexivity.
  - change ("+" ++ "" ++ "" ++ v) with ("+" ++ v) in H1.
    destruct (regex_match termPattern ("+" ++ v)) as [m |]; [| discriminate].
    cbn in H1. injection H1 as -> -> _. reflexivity.
  - change ("-" ++ "" ++ "" ++ v) with ("-" ++ v) in H2.
    destruct (regex_match termPattern ("-" ++ v)) as [m |]; [| discriminate].
    cbn in H2. injection H2 as -> -> _. reflexivity.
Qed.

Lemma parseTerm_coefficient sgn d1 frac v line :
  sgn = "" \/ sgn = "+" \/ sgn = "-" ->
  all isdigit d1 = true ->
  frac = "" \/ (exists d2, frac = "." ++ d2 /\ all isdigit d2 = true) ->
  d1 ++ frac <> "" ->
  identifier v = true ->
  parseTerm (sgn ++ d1 ++ frac ++ v) line =
    coeff ← stod (sgn ++ d1 ++ frac); OK {| coefficient := coeff; variable := v |}.
Proof.
  intros Hs Hd1 Hf Hne Hv. unfold parseTerm.
  pose proof (termPattern_match sgn d1 frac v Hs Hd1 Hf Hv) as H. unfold groups in H.
  destruct (regex_match termPattern (sgn ++ d1 ++ frac ++ v)) as [m |]; [| discriminate].
  cbn in H. injection H as -> -> _. cbn zeta.
  assert (Hn : forall t, (t = "" \/ t = "+" \/ t = "-") ->
                 (sgn ++ d1 ++ frac =? t)%string = false).
  { intros t Ht. apply String.eqb_neq. intros E.
    destruct d1 as [| a d1].
    - destruct Hf as [-> | (d2 & -> & _)]; [apply Hne; reflexivity |].
      destruct Hs as [-> | [-> | ->]]; destruct Ht as [-> | [-> | ->]];
        rewrite ?append_cons, ?append_nil in E; discriminate.
    - cbn [all] in Hd1. apply andb_true_iff in Hd1 as [Ha _].
      destruct Hs as [-> | [-> | ->]]; destruct Ht as [-> | [-> | ->]];
        rewrite ?append_cons, ?append_nil in E; try discriminate;
        injection E as -> _; discriminate. }
  rewrite !Hn by auto. reflexivity.
Qed.

(** ** The bound pattern on well-formed lines *)

Lemma word_group {R : Type} var rest c (K : string -> captures -> option R) x :
  word var = true -> starts word_char rest = false ->
  K rest (set_capture 1 var c) = Some x ->
  run (Capture 1 (Many1 word_char)) (var ++ rest) c K = Some x.
Proof.
  destruct var as [| a var]; [discriminate |]. cbn [word]. intros H Hr HK.
  apply andb_true_iff in H as [Ha Hv].
  rewrite run_capture. unfold Many1. rewrite run_cat, append_cons, run_class by exact Ha.
  apply run_many_greedy; [exact Hv | exact Hr |].
  rewrite <- append_cons, consumed_app. exact HK.
Qed.

Lemma operator_group {R : Type} o rest c (K : string -> captures -> option R) x :
  operator3 o = true ->
  K rest (set_capture 2 o c) = Some x ->
  run bound_operator (o ++ rest) c K = Some x.
Proof.
  unfold operator3, bound_operator. intros Ho HK.
  apply orb_true_iff in Ho as [Ho | Ho]; [apply orb_true_iff in Ho as [Ho | Ho] |];
    apply String.eqb_eq in Ho; subst o;
    rewrite run_capture, ?append_cons, append_nil; cbn [run Str Chr];
    cbn [Ascii.eqb Bool.eqb andb];
    rewrite ?consumed_cons, consumed_none by (cbn [String.length]; lia);
    rewrite HK; reflexivity.
Qed.

Lemma number_group sg d1 frac c :
  sg = "" \/ sg = "-" ->
  digits1 d1 = true ->
  frac = "" \/ (exists d2, frac = "." ++ d2 /\ all isdigit d2 = true) ->
  run bound_number (sg ++ d1 ++ frac) c at_end
    = Some (set_capture 3 (sg ++ d1 ++ frac) c).
Proof.
  intros Hs Hd1 Hf. set (lit := sg ++ d1 ++ frac).
  set (k3 := fun s1 c1 => at_end s1 (set_capture 3 (consumed lit s1) c1)).
  set (X := set_capture 3 lit c).
  assert (H4 : forall d2, all isdigit d2 = true -> run (Many isdigit) d2 c k3 = Some X).
  { intros d2 Hd2. unfold k3. rewrite (run_many_at_end isdigit d2 c Hd2 lit 3).
    rewrite consumed_all. reflexivity. }
  assert (H3 : run (Cat (Maybe (Chr ".")) (Many isdigit)) frac c k3 = Some X).
  { rewrite run_cat. unfold Chr. destruct Hf as [-> | (d2 & -> & Hd2)].
    - rewrite run_maybe_skip by reflexivity. apply (H4 "" eq_refl).
    - rewrite append_cons, append_nil. apply run_maybe_take; [reflexivity | apply H4, Hd2]. }
  assert (Hfs : starts isdigit frac = false).
  { destruct Hf as [-> | (d2 & -> & _)]; reflexivity. }
  destruct d1 as [| a d1]; [discriminate |]. cbn [digits1] in Hd1.
  apply andb_true_iff in Hd1 as [Ha Hd1].
  assert (H2 : run (Cat (Many1 isdigit) (Cat (Maybe (Chr ".")) (Many isdigit)))
                   (String a d1 ++ frac) c k3 = Some X).
  { rewrite run_cat. unfold Many1. rewrite run_cat, append_cons, run_class by exact Ha.
    apply run_many_greedy; [exact Hd1 | exact Hfs | exact H3]. }
  unfold bound_number. rewrite run_capture, run_cat. fold lit. fold k3.
  unfold lit. unfold Chr. destruct Hs as [-> | ->].
  - rewrite append_nil. rewrite run_maybe_skip; [exact H2 |].
    rewrite append_cons. cbn [starts]. apply isdigit_class, Ha.
  - rewrite append_cons, append_nil. apply run_maybe_take; [reflexivity | exact H2].
Qed.

Lemma boundPattern_match var ws1 o ws2 sg d1 frac :
  word var = true -> all isspace ws1 = true -> operator3 o = true ->
  all isspace ws2 = true ->
  sg = "" \/ sg = "-" ->
  digits1 d1 = true ->
  frac = "" \/ (exists d2, frac = "." ++ d2 /\ all isdigit d2 = true) ->
  groups (regex_match boundPattern (var ++ ws1 ++ o ++ ws2 ++ sg ++ d1 ++ frac))
    = Some (var, o, sg ++ d1 ++ frac).
Proof.
  intros Hvar Hw1 Ho Hw2 Hs Hd1 Hf.
  set (lit := sg ++ d1 ++ frac).
  assert (Hlit : starts isspace lit = false).
  { unfold lit. destruct d1 as [| a d1]; [discriminate |]. cbn [digits1] in Hd1.
    apply andb_true_iff in Hd1 as [Ha _].
    destruct Hs as [-> | ->]; [| reflexivity].
    rewrite append_nil, append_cons. cbn [starts]. apply isdigit_class, Ha. }
  assert (Hop : starts isspace (o ++ ws2 ++ lit) = false
                /\ starts word_char (o ++ ws2 ++ lit) = false).
  { unfold operator3 in Ho.
    apply orb_true_iff in Ho as [Ho | Ho]; [apply orb_true_iff in Ho as [Ho | Ho] |];
      apply String.eqb_eq in Ho; subst o; split; reflexivity. }
  assert (Hrest : starts word_char (ws1 ++ o ++ ws2 ++ lit) = false).
  { apply starts_app_false; [| apply Hop].
    apply (all_starts isspace); [| exact Hw1]. intros a Ha. apply isspace_class, Ha. }
  set (X := set_capture 3 lit (set_capture 2 o (set_capture 1 var no_captures))).
  assert (H : regex_match boundPattern (var ++ ws1 ++ o ++ ws2 ++ lit) = Some X).
  { unfold regex_match.
    change boundPattern with
      (Cat (Capture 1 (Many1 word_char))
         (Cat (Many isspace) (Cat bound_operator (Cat (Many isspace) bound_number)))).
    rewrite run_cat. apply word_group; [exact Hvar | exact Hrest |].
    rewrite run_cat. apply run_many_greedy; [exact Hw1 | apply Hop |].
    rewrite run_cat. apply operator_group; [exact Ho |].
    rewrite run_cat. apply run_many_greedy; [exact Hw2 | exact Hlit |].
    apply number_group; assumption. }
  rewrite H. reflexivity.
Qed.

(** A line that the bound pattern matches begins with a word character:
    it is a line of content. *)
Lemma boundPattern_head s m :
  regex_match boundPattern s = Some m -> starts word_char s = true.
Proof.
  unfold regex_match, boundPattern. cbn [run Many1].
  destruct s as [| a s]; [discriminate |]. cbn [starts].
  destruct (word_char a); [reflexivity | discriminate].
Qed.

Lemma bound_match_is_content s m :
  regex_match boundPattern s = Some m -> is_content s = true.
Proof.
  intros H. pose proof (boundPattern_head s m H) as Hh.
  assert (Hn : forall k, regex_match boundPattern k = None -> (s =? k)%string = false).
  { intros k Hk. apply String.eqb_neq. intros ->. congruence. }
  destruct s as [| a s]; [discriminate |]. cbn [starts] in Hh.
  destruct (word_char_class a Hh) as (_ & Ht & Hc).
  unfold is_content, skipped, isBlank, is_direction, is_header.
  destruct (trim_cons_other a s Ht) as [t ->].
  change (String a t =? "")%string with false.
  cbn [starts_with]. rewrite Hc. cbn [andb orb negb].
  rewrite !Hn by reflexivity. reflexivity.
Qed.

Lemma narrow_cases val b :
  narrow ">=" val b = set_lower val b
  /\ narrow "<=" val b = set_upper val b
  /\ narrow "=" val b = set_lower val (set_upper val b).
Proof. repeat split. Qed.

(** ** The direction line *)

Lemma at_bounds_type var f m : type (at_bounds var f m) = type m.
Proof. reflexivity. Qed.

Lemma declarations_fields cur line m :
  type (declarations cur line m) = type m
  /\ objective (declarations cur line m) = objective m
  /\ constraints (declarations cur line m) = constraints m.
Proof.
  unfold declarations. generalize (split line ","). intros vars. revert m.
  induction vars as [| var vars IH]; intros m; cbn [foldl]; [auto |].
  destruct (IH (declare cur var m)) as (-> & -> & ->). auto.
Qed.

Lemma declarations_bounds cur line m1 m2 :
  bounds m1 = bounds m2 ->
  bounds (declarations cur line m1) = bounds (declarations cur line m2).
Proof.
  unfold declarations. generalize (split line ","). intros vars. revert m1 m2.
  induction vars as [| var vars IH]; intros m1 m2 H; cbn [foldl]; [exact H |].
  apply IH. unfold declare, at_bounds. cbn [bounds]. rewrite H. reflexivity.
Qed.

Lemma boundLine_type line n m m' : boundLine line n m = OK m' -> type m' = type m.
Proof.
  unfold boundLine. destruct (find "free" line); [intros [= <-]; reflexivity |].
  destruct (regex_match boundPattern line); [| discriminate].
  intros H. apply bind_OK in H as (val & _ & [= <-]). reflexivity.
Qed.

(** Once the flag is set no line assigns [model.type]. *)
Lemma parseLine_type_kept st raw st' :
  objectiveParsed st = true -> parseLine st raw = OK st' ->
  type (model st') = type (model st).
Proof.
  intros Ho. parseLine_cases st raw; cbn zeta.
  - intros [= <-]. reflexivity.
  - rewrite Ho. discriminate.
  - intros [= <-]. reflexivity.
  - destruct (current st); cbn; intros H.
    + discriminate.
    + apply bind_OK in H as (c & _ & [= <-]). reflexivity.
    + apply bind_OK in H as (m' & Hb & [= <-]). cbn. eapply boundLine_type, Hb.
    + injection H as <-. cbn. apply declarations_fields.
    + injection H as <-. cbn. apply declarations_fields.
  - discriminate.
Qed.

Lemma parseLines_type_kept lines : forall st st',
  objectiveParsed st = true -> parseLines st lines = OK st' ->
  type (model st') = type (model st).
Proof.
  induction lines as [| raw rest IH]; intros st st' Ho; cbn [parseLines].
  - intros [= <-]. reflexivity.
  - intros H. apply bind_OK in H as (st1 & H1 & H2).
    rewrite (IH st1 st' (parseLine_objectiveParsed _ _ _ H1 Ho) H2).
    eapply parseLine_type_kept; eassumption.
Qed.

Lemma direction_sets_flag st raw st' :
  is_direction (trim raw) = true -> parseLine st raw = OK st' ->
  objectiveParsed st' = true.
Proof.
  intros Hd. rewrite (parseLine_direction st raw Hd).
  destruct (objectiveParsed st); [discriminate |]. intros [= <-]. reflexivity.
Qed.

Lemma parseLines_flag lines : forall st st',
  parseLines st lines = OK st' ->
  objectiveParsed st = true \/ has_direction lines = true ->
  objectiveParsed st' = true.
Proof.
  induction lines as [| raw rest IH]; intros st st'; cbn [parseLines has_direction existsb].
  - intros [= <-] [H | H]; [exact H | discriminate].
  - intros H Hor. apply bind_OK in H as (st1 & H1 & H2).
    apply (IH st1 st' H2). destruct Hor as [Ho | Hd].
    + left. eapply parseLine_objectiveParsed; eassumption.
    + apply orb_true_iff in Hd as [Hd | Hd].
      * left. eapply direction_sets_flag; eassumption.
      * right. exact Hd.
Qed.

(** ** What the shared flag does to the sections *)

Lemma boundLine_fields line n m m' :
  boundLine line n m = OK m' ->
  type m' = type m /\ objective m' = objective m /\ constraints m' = constraints m.
Proof.
  unfold boundLine. destruct (find "free" line); [intros [= <-]; auto |].
  destruct (regex_match boundPattern line); [| discriminate].
  intros H. apply bind_OK in H as (val & _ & [= <-]). auto.
Qed.

(** No model that [parseFile] returns has both a direction taken from the
    file and an objective.  After a direction line the flag
    [objectiveParsed] is set, the objective branch is closed for good and
    [current] never becomes [CONSTRAINTS]: objective and constraints stay
    empty.  After an objective line a direction line throws: [type] keeps
    whatever it held uninitialised. *)
Lemma direction_excludes_objective u lines : forall st st',
  (current st <> CONSTRAINTS
   /\ terms (objective (model st)) = [] /\ constraints (model st) = []
   /\ (objectiveParsed st = false -> type (model st) = any_type u))
  \/ (objectiveParsed st = true /\ type (model st) = any_type u) ->
  parseLines st lines = OK st' ->
  (current st' <> CONSTRAINTS
   /\ terms (objective (model st')) = [] /\ constraints (model st') = []
   /\ (objectiveParsed st' = false -> type (model st') = any_type u))
  \/ (objectiveParsed st' = true /\ type (model st') = any_type u).
Proof.
  induction lines as [| raw rest IH]; intros st st' Hinv; cbn [parseLines].
  - intros [= <-]. exact Hinv.
  - intros H. apply bind_OK in H as (st1 & H1 & H2). apply (IH st1 st'); [| exact H2].
    clear IH H2. destruct Hinv as [(Hc & Ht & Hcs & Hty) | (Ho & Hty)].
    + revert H1. parseLine_cases st raw; cbn zeta.
      * intros [= <-]. left. auto.
      * destruct (objectiveParsed st); [discriminate |]. intros [= <-].
        left. cbn. repeat split; auto. discriminate.
      * intros [= <-]. left. cbn. repeat split; auto.
        -- destruct (trim raw =? "Bounds:")%string; [discriminate |].
           destruct (trim raw =? "Integer:")%string; discriminate.
        -- congruence.
      * destruct (current st) eqn:Hcur; cbn; intros H.
        -- discriminate.
        -- contradiction.
        -- apply bind_OK in H as (m' & Hb & [= <-]). left. cbn.
           destruct (boundLine_fields _ _ _ _ Hb) as (_ & -> & ->).
           rewrite Hcur. repeat split; auto; congruence.
        -- injection H as <-. left. cbn.
           destruct (declarations_fields INTEGERS (trim raw) (model st))
             as (_ & -> & ->).
           rewrite Hcur. repeat split; auto; congruence.
        -- injection H as <-. left. cbn.
           destruct (declarations_fields BINARIES (trim raw) (model st))
             as (_ & -> & ->).
           rewrite Hcur. repeat split; auto; congruence.
      * intros H. apply bind_OK in H as (ts & _ & [= <-]). right. cbn. auto.
    + right. split.
      * eapply parseLine_objectiveParsed; eassumption.
      * rewrite <- Hty. eapply parseLine_type_kept; eassumption.
Qed.

Lemma no_model_has_direction_and_objective u text m :
  parseStream u text = OK m ->
  (terms (objective m) = [] /\ constraints m = []) \/ type m = any_type u.
Proof.
  unfold parseStream. intros H. apply bind_OK in H as (st & H & [= <-]).
  assert (Hinit : (current (initial u) <> CONSTRAINTS
                   /\ terms (objective (model (initial u))) = []
                   /\ constraints (model (initial u)) = []
                   /\ (objectiveParsed (initial u) = false ->
                       type (model (initial u)) = any_type u))
                  \/ (objectiveParsed (initial u) = true
                      /\ type (model (initial u)) = any_type u)).
  { left. cbn. repeat split; auto; discriminate. }
  destruct (direction_excludes_objective u _ _ _ Hinit H) as [(_ & ? & ? & _) | (_ & ?)];
    auto.
Qed.

(** The bounds map changes only on a line read in one of the three
    sections: the lines read as objective or as constraint make no entry. *)
Lemma bounds_written_in_sections_only st raw st' :
  parseLine st raw = OK st' ->
  bounds (model st') = bounds (model st)
  \/ (objectiveParsed st = true
      /\ (current st = BOUNDS \/ current st = INTEGERS \/ current st = BINARIES)).
Proof.
  parseLine_cases st raw; cbn zeta.
  - intros [= <-]. left; reflexivity.
  - destruct (objectiveParsed st); [discriminate |]. intros [= <-]. left; reflexivity.
  - intros [= <-]. left; reflexivity.
  - destruct (current st); cbn; intros H.
    + discriminate.
    + apply bind_OK in H as (c & _ & [= <-]). left; reflexivity.
    + right. auto.
    + right. auto.
    + right. auto.
  - intros H. apply bind_OK in H as (ts & _ & [= <-]). left; reflexivity.
Qed.

(** ** Exceptions of std::stod *)

Lemma stod_exn s e :
  stod s = Throw e -> e = StodInvalidArgument \/ e = StodOutOfRange.
Proof.
  unfold stod. destruct (skip_spaces s) as [| a t]; cbn zeta.
  - destruct (magnitude "") as [[| b | q] |]; try discriminate.
    + destruct (Qle_bool _ q); [| discriminate]. intros [= <-]. auto.
    + intros [= <-]. auto.
  - destruct (match String a t with
              | String "-" t0 => (true, t0)
              | String "+" t0 => (false, t0)
              | _ => (false, String a t)
              end) as [neg s2].
    destruct (magnitude s2) as [[| b | q] |]; try discriminate.
    + destruct (Qle_bool _ q); [| discriminate]. intros [= <-]. auto.
    + intros [= <-]. auto.
Qed.

(** When the left-hand side of a constraint line is read and its right-hand
    side is not a number, the exception of [parseConstraint] is the one of
    [stod]: it reports no line. *)
Lemma parseConstraint_rhs_exn lineStr line m ts e :
  regex_match constraintPattern lineStr = Some m ->
  parseExpression (m 1%nat) line = OK ts ->
  stod (m 3%nat) = Throw e ->
  parseConstraint lineStr line = Throw e
  /\ exn_line e = None /\ isFormatError e = false.
Proof.
  intros Hm Hts He. unfold parseConstraint. rewrite Hm, Hts, bind_ret_l, He.
  destruct (stod_exn _ _ He) as [-> | ->]; repeat split.
Qed.

(** ** Evaluations *)

(** C1.  The text "Max\n3x + 2y\nx + y <= 10\n" is not parsed into a model:
    the direction line sets [objectiveParsed], so the objective line is not
    read as the objective; it reaches the section dispatch while [current]
    is still [NONE], and [parseFile] throws "Line 2: Unexpected line or
    misplaced section." for whatever the uninitialised members held. *)
Theorem objective_after_direction_is_rejected (u : Indeterminate) :
  parseStream u (unlines ["Max"; "3x + 2y"; "x + y <= 10"]) = Throw (UnexpectedLine 2).
Proof. vm_compute; reflexivity. Qed.

(** C2.  The constraint reader does not return the operator of the line
    "x + y <= 10": the greedy first group takes the [<] as well, and the
    expression it returns has the operator [=], with the terms read from
    "x + y <" and the right-hand side 10. *)
Theorem constraint_le_is_read_as_eq :
  groups (regex_match constraintPattern "x + y <= 10") = Some ("x + y <", "=", " 10")
  /\ parseConstraint "x + y <= 10" 3 =
       OK {| terms := [ {| coefficient := dZ 1; variable := "x" |};
                        {| coefficient := dZ 1; variable := "y" |} ];
             rhs := dZ 10; op := "="; lineNumber := 3 |}.
Proof. split; vm_compute; reflexivity. Qed.

(** C3.  The text "3x + 2y\nx + y <= 10\n" is parsed into a model whose
    bounds map is empty: no entry is made for [x] or [y], and [loadModel]
    throws the [out_of_range] of [at] on the first objective term. *)
Theorem referenced_variable_has_no_bound (u : Indeterminate) :
  exists m,
    parseStream u (unlines ["3x + 2y"; "x + y <= 10"]) = OK m
    /\ variable <$> terms (objective m) = ["x"; "y"]
    /\ bounds m = ∅
    /\ loadModel m = Throw AtOutOfRange.
Proof.
  eexists. split; [vm_compute; reflexivity |].
  repeat split; vm_compute; reflexivity.
Qed.

(** C4.  Neither kind of malformed constraint line is reported as a
    line-numbered format error.  The line "x <= 5 <= 10", with two comparison operators, is
    accepted as the constraint [x = 10]; on the line "x <= abc" the
    exception is the [invalid_argument] of [stod], which carries no line
    number and is not one of the parser's format errors. *)
Theorem malformed_constraints_not_reported (u : Indeterminate) :
  parseConstraint "x <= 5 <= 10" 2 =
    OK {| terms := [ {| coefficient := dZ 1; variable := "x" |} ];
          rhs := dZ 10; op := "="; lineNumber := 2 |}
  /\ parseConstraint "x <= abc" 2 = Throw StodInvalidArgument
  /\ parseStream u (unlines ["x"; "x <= abc"]) = Throw StodInvalidArgument
  /\ exn_line StodInvalidArgument = None
  /\ isFormatError StodInvalidArgument = false.
Proof. repeat split; vm_compute; reflexivity. Qed.

(** C5.  The token ".x", a lone [.] for coefficient, passes the term
    pattern with the coefficient text "." and the exception is the
    [invalid_argument] of [stod], without line number or token; the same
    happens through the expression reader and the whole parser. *)
Theorem lone_dot_coefficient_not_reported (u : Indeterminate) (line : Z) :
  groups (regex_match termPattern ".x") = Some (".", "x", "")
  /\ parseTerm ".x" line = Throw StodInvalidArgument
  /\ parseExpression "3y + .x" line = Throw StodInvalidArgument
  /\ parseStream u (unlines [".x"]) = Throw StodInvalidArgument
  /\ parseTerm ".x" line <> Throw (InvalidTermFormat line ".x").
Proof. repeat split; try (vm_compute; reflexivity). discriminate. Qed.

(** X27.  A text in which a direction line [l] comes after lines that hold
    a direction line already is never parsed into a model: [parseFile]
    throws.  When the lines before [l] were read without an exception, the
    exception is "Line N: Duplicate optimization type." with N the number
    of [l], whatever follows [l]; otherwise it is the exception of that
    earlier line.  Up to [l] no line after the first direction line has
    assigned [model.type]. *)
Theorem duplicate_direction_is_rejected (u : Indeterminate)
    (before : list string) (l : string) (after : list string) :
  has_direction before = true ->
  is_direction (trim l) = true ->
  exists e,
    parseLines (initial u) (before ++ l :: after) = Throw e
    /\ (forall text, getlines "010" text = (before ++ l :: after)%list ->
          parseStream u text = Throw e)
    /\ match parseLines (initial u) before with
       | OK st =>
           e = DuplicateOptimizationType (Z.of_nat (List.length before) + 1)
           /\ isDuplicateSectionError e = true
           /\ exn_line e = Some (Z.of_nat (List.length before) + 1)
           /\ (forall pre1 d post1 s1,
                 before = (pre1 ++ d :: post1)%list -> is_direction (trim d) = true ->
                 parseLines (initial u) (pre1 ++ [d]) = OK s1 ->
                 type (model st) = type (model s1))
       | Throw e' => e = e'
       end.
Proof.
  intros Hdir Hl.
  destruct (parseLines (initial u) before) as [st | e'] eqn:Hpre.
  - assert (Hthrow : parseLines (initial u) (before ++ l :: after) =
              Throw (DuplicateOptimizationType (Z.of_nat (List.length before) + 1))).
    { rewrite parseLines_app, Hpre, bind_ret_l. cbn [parseLines].
      rewrite (parseLine_direction st l Hl).
      rewrite (parseLines_flag before _ _ Hpre (or_intror Hdir)).
      rewrite (parseLines_lineNo before _ _ Hpre). reflexivity. }
    eexists. split; [exact Hthrow |]. split.
    { intros text Ht. unfold parseStream. rewrite Ht, Hthrow. reflexivity. }
    repeat split.
    intros pre1 d post1 s1 -> Hd H1.
    replace (pre1 ++ d :: post1)%list with ((pre1 ++ [d]) ++ post1)%list in Hpre
      by (rewrite <- app_assoc; reflexivity).
    rewrite parseLines_app, H1, bind_ret_l in Hpre.
    eapply parseLines_type_kept; [| exact Hpre].
    rewrite parseLines_app in H1. apply bind_OK in H1 as (s0 & _ & H1).
    cbn [parseLines] in H1. apply bind_OK in H1 as (s & H1 & [= <-]).
    eapply direction_sets_flag; eassumption.
  - exists e'. split; [rewrite parseLines_app, Hpre; reflexivity |]. split; [| reflexivity].
    intros text Ht. unfold parseStream. rewrite Ht, parseLines_app, Hpre. reflexivity.
Qed.

Lemma duplicate_direction_is_rejected_witness :
  parseStream {| any_type := MINIMIZE; any_lineNumber := 0 |}
    (unlines ["Max"; "Bounds:"; "x free"; "Max"; "y free"])
  = Throw (DuplicateOptimizationType 4).
Proof.
  destruct (duplicate_direction_is_rejected {| any_type := MINIMIZE; any_lineNumber := 0 |}
              ["Max"; "Bounds:"; "x free"] "Max" ["y free"] eq_refl eq_refl)
    as (e & _ & Htext & He).
  rewrite (Htext (unlines ["Max"; "Bounds:"; "x free"; "Max"; "y free"]) eq_refl).
  destruct (parseLines _ ["Max"; "Bounds:"; "x free"]) as [st | e'] eqn:Hpre.
  - destruct He as (-> & _). reflexivity.
  - vm_compute in Hpre. discriminate Hpre.
Defined.

(** C6.  A second direction line is not reported as a duplicate at its
    line.  In the text "Max\n3x + 2y\nx + y <= 10\nMax\n" line 4 is never
    reached: the first [Max] sets [objectiveParsed], the objective line is
    taken for misplaced content and [parseFile] throws "Line 2: Unexpected
    line or misplaced section.", which is no duplicate-section error.  With
    the objective first the same flag makes the only direction line of
    "3x + 2y\nx + y <= 10\nMax\n" a duplicate at line 3, and of two
    direction lines after the objective it is the first occurrence, line 2,
    that the exception names. *)
Theorem second_direction_line_not_reported (u : Indeterminate) :
  parseStream u (unlines ["Max"; "3x + 2y"; "x + y <= 10"; "Max"])
    = Throw (UnexpectedLine 2)
  /\ isDuplicateSectionError (UnexpectedLine 2) = false
  /\ parseStream u (unlines ["3x + 2y"; "x + y <= 10"; "Max"])
     = Throw (DuplicateOptimizationType 3)
  /\ parseStream u (unlines ["3x + 2y"; "Max"; "Max"])
     = Throw (DuplicateOptimizationType 2).
Proof. repeat split; vm_compute; reflexivity. Qed.

(** ** Declarations and bound lines *)

Lemma declare_eq cur var m :
  bounds (declare cur var m) !! var = Some (declared cur (record_of var m)).
Proof. unfold declare, at_bounds. cbn [bounds]. apply subscript_eq. Qed.

Lemma declare_ne cur var m w :
  var <> w -> bounds (declare cur var m) !! w = bounds m !! w.
Proof. unfold declare, at_bounds. cbn [bounds]. apply subscript_ne. Qed.

Lemma declared_idempotent cur b : declared cur (declared cur b) = declared cur b.
Proof. destruct cur; reflexivity. Qed.

(** After the loop over the names of a line, the record of every name of the
    line is the earlier one with the declaration applied, and the others
    are untouched. *)
Lemma declarations_lookup cur vars : forall m v,
  bounds (foldl (fun m var => declare cur var m) m vars) !! v =
    if decide (v ∈ vars) then Some (declared cur (record_of v m)) else bounds m !! v.
Proof.
  induction vars as [| x vars IH]; intros m v; cbn [foldl].
  - rewrite decide_False by apply not_elem_of_nil. reflexivity.
  - rewrite IH. destruct (decide (v = x)) as [-> | Hne].
    + rewrite (decide_True (P := x ∈ x :: vars)) by apply list_elem_of_here.
      unfold record_of at 1. rewrite declare_eq. cbn [default]. unfold id.
      rewrite declared_idempotent. destruct (decide (x ∈ vars)); reflexivity.
    + unfold record_of at 1. rewrite declare_ne by congruence.
      destruct (decide (v ∈ vars)) as [Hin | Hnin].
      * rewrite decide_True by (apply list_elem_of_further, Hin). reflexivity.
      * rewrite decide_False; [reflexivity |].
        intros Hin. apply elem_of_cons in Hin as [? | ?]; contradiction.
Qed.

(** C8.  In the BINARY section the line "a, b" leaves both [a] and [b]
    with kind BINARY, lower 0 and upper 1, whatever lower and upper their
    records held before; [isFree] is kept and no other record changes.
    The same holds for every line of content read in the section and every
    name between its commas.  Through the whole parser: after "a >= 5" and
    "a <= 7" in a Bounds section, "a, b" in a Binary section leaves [a] and
    [b] binary in [0, 1]. *)
Theorem binary_line_overrides_bounds (st : Locals) :
  reachable st -> current st = BINARIES ->
  (exists st',
     parseLine st "a, b" = OK st'
     /\ bounds (model st') !! "a" =
          Some {| lower := dZ 0; upper := dZ 1;
                  isFree := isFree (record_of "a" (model st)); kind := BINARY |}
     /\ bounds (model st') !! "b" =
          Some {| lower := dZ 0; upper := dZ 1;
                  isFree := isFree (record_of "b" (model st)); kind := BINARY |}
     /\ (forall v, v <> "a" -> v <> "b" ->
           bounds (model st') !! v = bounds (model st) !! v)
     /\ current st' = BINARIES)
  /\ (forall raw,
        is_content (trim raw) = true ->
        exists st',
          parseLine st raw = OK st'
          /\ current st' = BINARIES
          /\ forall v,
               bounds (model st') !! v =
                 if decide (v ∈ split (trim raw) ",")
                 then Some {| lower := dZ 0; upper := dZ 1;
                              isFree := isFree (record_of v (model st));
                              kind := BINARY |}
                 else bounds (model st) !! v)
  /\ (forall u, exists m,
        parseStream u (unlines ["Max"; "Bounds:"; "a >= 5"; "a <= 7"; "Binary:"; "a, b"])
          = OK m
        /\ bounds m !! "a" =
             Some {| lower := dZ 0; upper := dZ 1; isFree := false; kind := BINARY |}
        /\ bounds m !! "b" =
             Some {| lower := dZ 0; upper := dZ 1; isFree := false; kind := BINARY |}).
Proof.
  intros Hr Hc.
  assert (Ho : objectiveParsed st = true) by (apply reachable_section; congruence).
  assert (Hgen : forall raw,
            is_content (trim raw) = true ->
            exists st',
              parseLine st raw = OK st'
              /\ current st' = BINARIES
              /\ forall v,
                   bounds (model st') !! v =
                     if decide (v ∈ split (trim raw) ",")
                     then Some {| lower := dZ 0; upper := dZ 1;
                                  isFree := isFree (record_of v (model st));
                                  kind := BINARY |}
                     else bounds (model st) !! v).
  { intros raw Hl. eexists. split.
    { rewrite (parseLine_content st raw Ho Hl). cbn zeta. rewrite Hc. reflexivity. }
    split; [exact Hc |]. intros v.
    cbn [with_model with_lineNo model]. unfold declarations.
    rewrite declarations_lookup. destruct (decide (v ∈ split (trim raw) ",")); reflexivity. }
  split; [| split; [exact Hgen |]].
  - destruct (Hgen "a, b" eq_refl) as (st' & H1 & H2 & H3).
    exists st'. split; [exact H1 |]. repeat split.
    + rewrite H3. reflexivity.
    + rewrite H3. reflexivity.
    + intros v Ha Hb. rewrite H3. change (split (trim "a, b") ",") with ["a"; "b"].
      rewrite decide_False; [reflexivity |].
      intros Hin. apply elem_of_cons in Hin as [? | Hin]; [contradiction |].
      apply elem_of_cons in Hin as [? | Hin]; [contradiction |].
      apply not_elem_of_nil in Hin. exact Hin.
    + exact H2.
  - intros u. eexists. split; [vm_compute; reflexivity |].
    split; vm_compute; reflexivity.
Qed.

Lemma binary_line_overrides_bounds_witness :
  exists st',
    parseLine {| model := at_bounds "a" (narrow ">=" (dZ 5))
                            (set_type MAXIMIZE
                               (default_LPModel {| any_type := MINIMIZE; any_lineNumber := 0 |}));
                 lineNo := 4; current := BINARIES; objectiveParsed := true |}
              "a, b" = OK st'
    /\ bounds (model st') !! "a" =
         Some {| lower := dZ 0; upper := dZ 1; isFree := false; kind := BINARY |}.
Proof.
  destruct (binary_line_overrides_bounds
              {| model := at_bounds "a" (narrow ">=" (dZ 5))
                            (set_type MAXIMIZE
                               (default_LPModel {| any_type := MINIMIZE; any_lineNumber := 0 |}));
                 lineNo := 4; current := BINARIES; objectiveParsed := true |}
              (ex_intro _ {| any_type := MINIMIZE; any_lineNumber := 0 |}
                 (ex_intro _ ["Max"; "Bounds:"; "a >= 5"; "Binary:"] eq_refl))
              eq_refl) as [(st' & H1 & H2 & _) _].
  exists st'. split; [exact H1 |]. rewrite H2. reflexivity.
Defined.

Lemma boundLine_free line n m i :
  find "free" line = Some i ->
  boundLine line n m = OK (at_bounds (trim (substr 0 i line)) (set_isFree true) m).
Proof. unfold boundLine. intros ->. reflexivity. Qed.

Lemma boundLine_assign line n m var o lit val :
  find "free" line = None ->
  groups (regex_match boundPattern line) = Some (var, o, lit) ->
  stod lit = OK val ->
  boundLine line n m = OK (at_bounds var (narrow o val) m).
Proof.
  unfold boundLine, groups. intros -> Hg Hv.
  destruct (regex_match boundPattern line) as [mt |]; [| discriminate].
  cbn in Hg. injection Hg as <- <- <-. rewrite Hv. reflexivity.
Qed.

Lemma parseLine_bound st raw m' :
  objectiveParsed st = true -> current st = BOUNDS ->
  is_content (trim raw) = true ->
  boundLine (trim raw) (lineNo st + 1) (model st) = OK m' ->
  parseLine st raw = OK (with_model (fun _ => m') (with_lineNo (lineNo st + 1) st)).
Proof.
  intros Ho Hc Hl Hb. rewrite (parseLine_content st raw Ho Hl). cbn zeta.
  rewrite Hc, Hb. reflexivity.
Qed.

(** What a line read in the BOUNDS section does to the bounds map: nothing,
    or one record is taken by [operator[]] and changed in place. *)
Lemma bounds_section_step st raw st' :
  objectiveParsed st = true -> current st = BOUNDS ->
  parseLine st raw = OK st' ->
  bounds (model st') = bounds (model st)
  \/ exists var,
       (forall v, v <> var -> bounds (model st') !! v = bounds (model st) !! v)
       /\ (bounds (model st') !! var = Some (set_isFree true (record_of var (model st)))
           \/ exists o val,
                bounds (model st') !! var = Some (narrow o val (record_of var (model st)))).
Proof.
  intros Ho Hc. parseLine_cases st raw; cbn zeta.
  - intros [= <-]. left; reflexivity.
  - rewrite Ho. discriminate.
  - intros [= <-]. left; reflexivity.
  - rewrite Hc. intros H. apply bind_OK in H as (m' & Hb & [= <-]).
    right. cbn [with_model with_lineNo model]. unfold boundLine in Hb.
    destruct (find "free" (trim raw)) as [i |].
    + injection Hb as <-. exists (trim (substr 0 i (trim raw))). split.
      * intros v Hv. apply subscript_ne. congruence.
      * left. apply subscript_eq.
    + destruct (regex_match boundPattern (trim raw)) as [mt |]; [| discriminate].
      apply bind_OK in Hb as (val & _ & [= <-]). exists (mt 1%nat). split.
      * intros v Hv. apply subscript_ne. congruence.
      * right. eexists _, _. apply subscript_eq.
  - discriminate.
Qed.

Lemma parseLine_bound_assignment st raw var o lit val :
  objectiveParsed st = true -> current st = BOUNDS ->
  find "free" (trim raw) = None ->
  groups (regex_match boundPattern (trim raw)) = Some (var, o, lit) ->
  stod lit = OK val ->
  parseLine st raw =
    OK (with_model (fun _ => at_bounds var (narrow o val) (model st))
          (with_lineNo (lineNo st + 1) st)).
Proof.
  intros Ho Hc Hf Hg Hv. apply parseLine_bound; [exact Ho | exact Hc | |].
  - destruct (regex_match boundPattern (trim raw)) as [m |] eqn:Hm; [| discriminate].
    eapply bound_match_is_content, Hm.
  - eapply boundLine_assign; eassumption.
Qed.

(** C7.  In the BOUNDS section the lines "x free", "y >= 2", "y <= 8" set
    [isFree] in the record of [x] and leave the record of [y] with lower 2
    and upper 8, the second narrowing keeping the first; the records are
    the earlier ones (the default [Bound] on first mention) changed in that
    member only, and no other record changes.  A line "z = 5" sets lower
    and upper of [z] together.  So does every line: one made of a name, an
    operator and a number, in which "free" does not occur, changes the
    record of that name by [narrow] ([>=] the lower bound, [<=] the upper
    bound, [=] both) and no other record; and any line read in the section
    changes at most the record it names.  Through the whole parser the
    three lines give x = (-inf, +inf, free) and y = (2, 8). *)
Theorem bound_lines_accumulate (st : Locals) :
  reachable st -> current st = BOUNDS ->
  (exists st',
     parseLines st ["x free"; "y >= 2"; "y <= 8"] = OK st'
     /\ bounds (model st') !! "x" = Some (set_isFree true (record_of "x" (model st)))
     /\ bounds (model st') !! "y" =
          Some (set_upper (dZ 8) (set_lower (dZ 2) (record_of "y" (model st))))
     /\ (forall v, v <> "x" -> v <> "y" ->
           bounds (model st') !! v = bounds (model st) !! v))
  /\ (exists st',
        parseLine st "z = 5" = OK st'
        /\ bounds (model st') !! "z" =
             Some (set_lower (dZ 5) (set_upper (dZ 5) (record_of "z" (model st))))
        /\ (forall v, v <> "z" -> bounds (model st') !! v = bounds (model st) !! v))
  /\ (forall raw var ws1 o ws2 sg d1 frac val,
        trim raw = var ++ ws1 ++ o ++ ws2 ++ sg ++ d1 ++ frac ->
        word var = true -> all isspace ws1 = true -> operator3 o = true ->
        all isspace ws2 = true -> sg = "" \/ sg = "-" -> digits1 d1 = true ->
        frac = "" \/ (exists d2, frac = "." ++ d2 /\ all isdigit d2 = true) ->
        find "free" (trim raw) = None ->
        stod (sg ++ d1 ++ frac) = OK val ->
        exists st',
          parseLine st raw = OK st'
          /\ bounds (model st') !! var = Some (narrow o val (record_of var (model st)))
          /\ (forall v, v <> var -> bounds (model st') !! v = bounds (model st) !! v)
          /\ narrow ">=" val (record_of var (model st))
               = set_lower val (record_of var (model st))
          /\ narrow "<=" val (record_of var (model st))
               = set_upper val (record_of var (model st))
          /\ narrow "=" val (record_of var (model st))
               = set_lower val (set_upper val (record_of var (model st))))
  /\ (forall raw st',
        parseLine st raw = OK st' ->
        bounds (model st') = bounds (model st)
        \/ exists var,
             (forall v, v <> var -> bounds (model st') !! v = bounds (model st) !! v)
             /\ (bounds (model st') !! var = Some (set_isFree true (record_of var (model st)))
                 \/ exists o val,
                      bounds (model st') !! var =
                        Some (narrow o val (record_of var (model st)))))
  /\ (forall u, exists m,
        parseStream u (unlines ["Max"; "Bounds:"; "x free"; "y >= 2"; "y <= 8"]) = OK m
        /\ bounds m !! "x" =
             Some {| lower := dneg INFINITY; upper := INFINITY; isFree := true;
                     kind := CONTINUOUS |}
        /\ bounds m !! "y" =
             Some {| lower := dZ 2; upper := dZ 8; isFree := false; kind := CONTINUOUS |}).
Proof.
  intros Hr Hc.
  assert (Ho : objectiveParsed st = true) by (apply reachable_section; congruence).
  split; [| split; [| split; [| split]]].
  - pose (st1 := with_model (fun _ => at_bounds "x" (set_isFree true) (model st))
                   (with_lineNo (lineNo st + 1) st)).
    pose (st2 := with_model (fun _ => at_bounds "y" (narrow ">=" (dZ 2)) (model st1))
                   (with_lineNo (lineNo st1 + 1) st1)).
    pose (st3 := with_model (fun _ => at_bounds "y" (narrow "<=" (dZ 8)) (model st2))
                   (with_lineNo (lineNo st2 + 1) st2)).
    assert (H1 : parseLine st "x free" = OK st1).
    { exact (parseLine_bound st "x free" _ Ho Hc eq_refl
               (boundLine_free "x free" _ _ 2%nat eq_refl)). }
    assert (H2 : parseLine st1 "y >= 2" = OK st2).
    { exact (parseLine_bound st1 "y >= 2" _ Ho Hc eq_refl
               (boundLine_assign "y >= 2" _ _ "y" ">=" "2" (dZ 2) eq_refl eq_refl eq_refl)). }
    assert (H3 : parseLine st2 "y <= 8" = OK st3).
    { exact (parseLine_bound st2 "y <= 8" _ Ho Hc eq_refl
               (boundLine_assign "y <= 8" _ _ "y" "<=" "8" (dZ 8) eq_refl eq_refl eq_refl)). }
    exists st3. split.
    { cbn [parseLines]. rewrite H1, bind_ret_l, H2, bind_ret_l, H3. reflexivity. }
    clear H1 H2 H3. subst st3.
    subst st1 st2.
    cbn [with_model with_lineNo model at_bounds bounds].
    repeat split.
    + rewrite !subscript_ne by discriminate. apply subscript_eq.
    + rewrite subscript_eq, subscript_eq. unfold record_of.
      rewrite subscript_ne by discriminate. reflexivity.
    + intros v Hx Hy. rewrite !subscript_ne by congruence. reflexivity.
  - eexists. split.
    { apply (parseLine_bound st "z = 5" _ Ho Hc eq_refl
               (boundLine_assign "z = 5" _ _ "z" "=" "5" (dZ 5) eq_refl eq_refl eq_refl)). }
    cbn [with_model with_lineNo model at_bounds bounds]. split.
    + apply subscript_eq.
    + intros v Hv. apply subscript_ne. congruence.
  - intros raw var ws1 o ws2 sg d1 frac val Hraw Hvar Hw1 Hop Hw2 Hsg Hd1 Hfr Hfree Hval.
    eexists. split.
    { apply (parseLine_bound_assignment st raw var o (sg ++ d1 ++ frac) val Ho Hc Hfree);
        [| exact Hval].
      rewrite Hraw. apply boundPattern_match; assumption. }
    cbn [with_model with_lineNo model at_bounds bounds]. split; [apply subscript_eq |].
    split; [intros v Hv; apply subscript_ne; congruence |]. repeat split.
  - intros raw st'. apply bounds_section_step; assumption.
  - intros u. eexists. split; [vm_compute; reflexivity |].
    split; vm_compute; reflexivity.
Qed.

Lemma bound_lines_accumulate_witness :
  (exists st',
     parseLines {| model := set_type MAXIMIZE
                              (default_LPModel {| any_type := MINIMIZE; any_lineNumber := 0 |});
                   lineNo := 2; current := BOUNDS; objectiveParsed := true |}
                ["x free"; "y >= 2"; "y <= 8"] = OK st'
     /\ isFree <$> bounds (model st') !! "x" = Some true
     /\ lower <$> bounds (model st') !! "y" = Some (dZ 2)
     /\ upper <$> bounds (model st') !! "y" = Some (dZ 8))
  /\ (exists st',
        parseLine {| model := set_type MAXIMIZE
                                (default_LPModel {| any_type := MINIMIZE; any_lineNumber := 0 |});
                     lineNo := 2; current := BOUNDS; objectiveParsed := true |}
                  "  cost2   <=  -12.50 " = OK st'
        /\ upper <$> bounds (model st') !! "cost2" = Some (Fin (-25 # 2))).
Proof.
  destruct (bound_lines_accumulate
              {| model := set_type MAXIMIZE
                            (default_LPModel {| any_type := MINIMIZE; any_lineNumber := 0 |});
                 lineNo := 2; current := BOUNDS; objectiveParsed := true |}
              (ex_intro _ {| any_type := MINIMIZE; any_lineNumber := 0 |}
                 (ex_intro _ ["Max"; "Bounds:"] eq_refl))
              eq_refl) as ((st' & H1 & H2 & H3 & _) & _ & Hgen & _).
  split.
  - exists st'. split; [exact H1 |]. rewrite H2, H3. repeat split.
  - destruct (Hgen "  cost2   <=  -12.50 " "cost2" "   " "<=" "  " "-" "12" ".50"
                (Fin (-25 # 2)) eq_refl eq_refl eq_refl eq_refl eq_refl
                (or_intror eq_refl) eq_refl
                (or_intror (ex_intro _ "50" (conj eq_refl eq_refl))) eq_refl eq_refl)
      as (st2 & G1 & G2 & _).
    exists st2. split; [exact G1 |]. rewrite G2. reflexivity.
Defined.

(** ** Independence of what the indeterminate members held *)

Lemma boundLine_agree line n m1 m2 :
  bounds m1 = bounds m2 ->
  match boundLine line n m1, boundLine line n m2 with
  | OK a, OK b =>
      bounds a = bounds b /\ type a = type m1 /\ type b = type m2
      /\ objective a = objective m1 /\ objective b = objective m2
      /\ constraints a = constraints m1 /\ constraints b = constraints m2
  | Throw e1, Throw e2 => e1 = e2
  | _, _ => False
  end.
Proof.
  intros Hb. unfold boundLine. destruct (find "free" line).
  - cbn. rewrite Hb. repeat split.
  - destruct (regex_match boundPattern line); [| reflexivity].
    destruct (stod _); cbn; [| reflexivity]. rewrite Hb. repeat split.
Qed.

Lemma skipped_not_direction line : skipped line = true -> is_direction line = false.
Proof.
  intros Hs. destruct (is_direction line) eqn:Hd; [| reflexivity].
  unfold is_direction in Hd.
  apply orb_true_iff in Hd as [Hd | Hd]; apply String.eqb_eq in Hd; subst line;
    discriminate.
Qed.

Lemma parseLine_agree d s1 s2 raw :
  agree d s1 s2 ->
  match parseLine s1 raw, parseLine s2 raw with
  | OK a, OK b => agree (d || is_direction (trim raw)) a b
  | Throw e1, Throw e2 => e1 = e2
  | _, _ => False
  end.
Proof.
  intros (Hn & Hc & Hp & Ht & Hr & Ho & Hcs & Hbs & Hty).
  parseLine_cases s1 raw; cbn zeta.
  - rewrite (parseLine_skipped s2 raw Hskip).
    rewrite (skipped_not_direction _ Hskip), orb_false_r.
    unfold agree. cbn. rewrite Hn. repeat split; first [assumption | congruence].
  - rewrite (parseLine_direction s2 raw Hdir), <- Hp, Hn.
    destruct (objectiveParsed s1); [reflexivity |].
    unfold agree. cbn. repeat split; first [assumption | congruence].
  - symmetry in Hp. rewrite (parseLine_header s2 raw Hp Hskip Hdir Hhead).
    rewrite orb_false_r. unfold agree. cbn. rewrite Hn. repeat split; first [assumption | congruence].
  - symmetry in Hp. rewrite (parseLine_content s2 raw Hp).
    2: { unfold is_content. rewrite Hskip, Hdir, Hhead. reflexivity. }
    cbn zeta. rewrite <- Hc, <- Hn, orb_false_r. destruct (current s1) eqn:Hcur.
    + reflexivity.
    + destruct (parseConstraint (trim raw) (lineNo s1 + 1)); cbn; [| reflexivity].
      unfold agree. cbn. rewrite Hcs. repeat split; first [assumption | congruence].
    + pose proof (boundLine_agree (trim raw) (lineNo s1 + 1) _ _ Hbs) as Hb.
      destruct (boundLine (trim raw) (lineNo s1 + 1) (model s1)) as [a | e1];
        destruct (boundLine (trim raw) (lineNo s1 + 1) (model s2)) as [b | e2];
        cbn; try exact Hb.
      destruct Hb as (Hb & Ha1 & Hb1 & Ha2 & Hb2 & Ha3 & Hb3).
      unfold agree. cbn. rewrite Ha1, Hb1, Ha2, Hb2, Ha3, Hb3.
      repeat split; first [assumption | congruence].
    + unfold agree. cbn.
      destruct (declarations_fields INTEGERS (trim raw) (model s1)) as (-> & -> & ->).
      destruct (declarations_fields INTEGERS (trim raw) (model s2)) as (-> & -> & ->).
      repeat split; try first [assumption | congruence]. apply declarations_bounds, Hbs.
    + unfold agree. cbn.
      destruct (declarations_fields BINARIES (trim raw) (model s1)) as (-> & -> & ->).
      destruct (declarations_fields BINARIES (trim raw) (model s2)) as (-> & -> & ->).
      repeat split; try first [assumption | congruence]. apply declarations_bounds, Hbs.
  - symmetry in Hp. rewrite (parseLine_objective s2 raw Hp Hskip Hdir).
    cbn zeta. rewrite <- Hn, orb_false_r.
    destruct (parseExpression (trim raw) (lineNo s1 + 1)); cbn; [| reflexivity].
    unfold agree. cbn. repeat split; first [assumption | congruence].
Qed.

Lemma parseLines_agree lines : forall d s1 s2,
  agree d s1 s2 ->
  match parseLines s1 lines, parseLines s2 lines with
  | OK a, OK b => agree (d || has_direction lines) a b
  | Throw e1, Throw e2 => e1 = e2
  | _, _ => False
  end.
Proof.
  induction lines as [| raw rest IH]; intros d s1 s2 H;
    cbn [parseLines has_direction existsb].
  - rewrite orb_false_r. exact H.
  - pose proof (parseLine_agree d s1 s2 raw H) as Hs.
    destruct (parseLine s1 raw) as [a | e1]; destruct (parseLine s2 raw) as [b | e2];
      cbn; [| contradiction | contradiction | exact Hs].
    rewrite orb_assoc. apply IH, Hs.
Qed.

Lemma initial_agree u1 u2 : agree false (initial u1) (initial u2).
Proof. unfold agree. cbn. repeat split. discriminate. Qed.

(** Without a direction line [model.type] is never assigned: the model
    returned has whatever the member held, which is why the directions of
    two models are compared below only for a file with a direction line. *)
Lemma type_without_direction_is_indeterminate (u : Indeterminate) :
  exists m, parseStream u (unlines ["3x + 2y"; "x = 1"]) = OK m /\ type m = any_type u.
Proof. eexists. split; vm_compute; reflexivity. Qed.

(** X28.  Two calls of [parseFile] on the same file end alike, whatever the
    members that [LPModel model;] leaves uninitialised held at each call:
    either both throw the same exception, or both return a model, and the
    two models have the same objective terms, right-hand side and operator,
    the same constraints in the same order and the same bounds map.  For a
    file with a direction line they have the same direction as well. *)
Theorem parse_independent_of_earlier_calls (fs : string -> option string)
    (u1 u2 : Indeterminate) (path : string) :
  match parseFile fs u1 path, parseFile fs u2 path with
  | OK m1, OK m2 =>
      terms (objective m1) = terms (objective m2)
      /\ rhs (objective m1) = rhs (objective m2)
      /\ op (objective m1) = op (objective m2)
      /\ constraints m1 = constraints m2
      /\ bounds m1 = bounds m2
      /\ (forall text, fs path = Some text ->
            has_direction (getlines "010" text) = true -> type m1 = type m2)
  | Throw e1, Throw e2 => e1 = e2
  | _, _ => False
  end.
Proof.
  unfold parseFile, parseStream. destruct (fs path) as [text |]; [| reflexivity].
  pose proof (parseLines_agree (getlines "010" text) false _ _ (initial_agree u1 u2)) as H.
  destruct (parseLines (initial u1) _) as [a | e1];
    destruct (parseLines (initial u2) _) as [b | e2]; cbn; try exact H.
  destruct H as (_ & _ & _ & Ht & Hr & Ho & Hcs & Hbs & Hty).
  refine (conj Ht (conj Hr (conj Ho (conj Hcs (conj Hbs _))))).
  intros text' [= <-] Hd. apply Hty. rewrite Hd. reflexivity.
Qed.

(** C9.  Two calls of [parseFile] on the same file can return models with
    different directions.  [LPModel model;] gives [type] no value, and on
    the text "3x + 2y\nx + y <= 10\n" no statement assigns it: the model
    returned has the direction the member happened to hold, MAXIMIZE after
    one call and MINIMIZE after another, with the same objective, the same
    constraints and the same bounds. *)
Theorem direction_differs_between_calls :
  (forall u, exists m,
      parseStream u (unlines ["3x + 2y"; "x + y <= 10"]) = OK m
      /\ type m = any_type u)
  /\ exists m1 m2,
       parseFile (fun _ => Some (unlines ["3x + 2y"; "x + y <= 10"]))
         {| any_type := MAXIMIZE; any_lineNumber := 0 |} "model.lp" = OK m1
       /\ parseFile (fun _ => Some (unlines ["3x + 2y"; "x + y <= 10"]))
            {| any_type := MINIMIZE; any_lineNumber := 0 |} "model.lp" = OK m2
       /\ type m1 = MAXIMIZE /\ type m2 = MINIMIZE
       /\ objective m1 = objective m2
       /\ constraints m1 = constraints m2
       /\ bounds m1 = bounds m2.
Proof.
  split.
  - intros u. eexists. split; vm_compute; reflexivity.
  - eexists. eexists. repeat split; vm_compute; reflexivity.
Qed.

(** C10.  In the BOUNDS section every line of content in which "free"
    occurs, at index [i], is a free declaration for the trimmed text before
    that index: the record of that name gets [isFree = true], nothing else
    in the model changes and no exception is thrown.  On "freedom >= 3" the
    name is the empty string, and no bound is recorded for "freedom". *)
Theorem free_substring_declares_free (st : Locals) :
  reachable st -> current st = BOUNDS ->
  (forall raw i,
     starts_with "//" (trim raw) = false ->
     find "free" (trim raw) = Some i ->
     parseLine st raw =
       OK (with_model (at_bounds (trim (substr 0 i (trim raw))) (set_isFree true))
             (with_lineNo (lineNo st + 1) st)))
  /\ (exists st',
        parseLine st "freedom >= 3" = OK st'
        /\ bounds (model st') !! "" = Some (set_isFree true (record_of "" (model st)))
        /\ bounds (model st') !! "freedom" = bounds (model st) !! "freedom"
        /\ current st' = BOUNDS).
Proof.
  intros Hr Hc.
  assert (Ho : objectiveParsed st = true) by (apply reachable_section; congruence).
  assert (Hgen : forall raw i,
     starts_with "//" (trim raw) = false ->
     find "free" (trim raw) = Some i ->
     parseLine st raw =
       OK (with_model (at_bounds (trim (substr 0 i (trim raw))) (set_isFree true))
             (with_lineNo (lineNo st + 1) st))).
  { intros raw i Hcom Hf.
    rewrite (parseLine_content st raw Ho (free_line_is_content _ _ Hf Hcom)).
    cbn zeta. rewrite Hc. unfold boundLine. rewrite Hf. reflexivity. }
  split; [exact Hgen |].
  eexists. split; [apply (Hgen "freedom >= 3" 0%nat); reflexivity |].
  change (trim (substr 0 0 (trim "freedom >= 3"))) with "".
  cbn [with_model with_lineNo model current at_bounds bounds].
  split; [apply subscript_eq |]. split; [apply subscript_ne; discriminate | exact Hc].
Qed.

Lemma free_substring_declares_free_witness :
  (exists st',
     parseLine {| model := set_type MAXIMIZE
                             (default_LPModel {| any_type := MINIMIZE; any_lineNumber := 0 |});
                  lineNo := 2; current := BOUNDS; objectiveParsed := true |}
               "freedom >= 3" = OK st'
     /\ isFree <$> bounds (model st') !! "" = Some true
     /\ bounds (model st') !! "freedom" = None)
  /\ (exists st',
        parseLine {| model := set_type MAXIMIZE
                                (default_LPModel {| any_type := MINIMIZE; any_lineNumber := 0 |});
                     lineNo := 2; current := BOUNDS; objectiveParsed := true |}
                  " y is free, z too " = OK st'
        /\ isFree <$> bounds (model st') !! "y is" = Some true).
Proof.
  destruct (free_substring_declares_free
              {| model := set_type MAXIMIZE
                            (default_LPModel {| any_type := MINIMIZE; any_lineNumber := 0 |});
                 lineNo := 2; current := BOUNDS; objectiveParsed := true |}
              (ex_intro _ {| any_type := MINIMIZE; any_lineNumber := 0 |}
                 (ex_intro _ ["Max"; "Bounds:"] eq_refl))
              eq_refl) as [Hgen (st' & H1 & H2 & H3 & _)].
  split.
  - exists st'. split; [exact H1 |]. split.
    + rewrite H2. reflexivity.
    + rewrite H3. reflexivity.
  - eexists. split; [exact (Hgen " y is free, z too " 5%nat eq_refl eq_refl) |].
    reflexivity.
Defined.

(** * Further properties of the code *)

(** ** getline loops: the lines of a file and the items of a list *)

Lemma getlines_item d item rest :
  all (other_than d) item = true ->
  getlines d (item ++ String d rest) = item :: getlines d rest.
Proof.
  induction item as [| c item IH]; intros H.
  - rewrite append_nil. cbn [getlines]. rewrite Ascii.eqb_refl. reflexivity.
  - cbn [all] in H. apply andb_true_iff in H as [Hc H].
    rewrite append_cons. cbn [getlines]. unfold other_than in Hc.
    apply negb_true_iff in Hc. rewrite Hc, (IH H). reflexivity.
Qed.

Lemma getlines_last d item :
  item <> "" -> all (other_than d) item = true -> getlines d item = [item].
Proof.
  induction item as [| c item IH]; intros Hne H; [contradiction |].
  cbn [all] in H. apply andb_true_iff in H as [Hc H].
  cbn [getlines]. unfold other_than in Hc. apply negb_true_iff in Hc. rewrite Hc.
  destruct item as [| c' item']; [reflexivity |].
  rewrite IH by (discriminate || exact H). reflexivity.
Qed.

Lemma getlines_unlines ls :
  Forall (fun l => all (other_than "010") l = true) ls ->
  getlines "010" (unlines ls) = ls.
Proof.
  induction 1 as [| l ls Hl _ IH]; [reflexivity |].
  cbn [unlines]. unfold nl. rewrite append_cons, append_nil.
  rewrite getlines_item by exact Hl. rewrite IH. reflexivity.
Qed.

Lemma getlines_unlines_last ls l :
  Forall (fun l => all (other_than "010") l = true) ls ->
  l <> "" -> all (other_than "010") l = true ->
  getlines "010" (unlines ls ++ l) = (ls ++ [l])%list.
Proof.
  intros Hls Hne Hl. induction Hls as [| l0 ls Hl0 _ IH].
  - rewrite append_nil. apply getlines_last; assumption.
  - cbn [unlines]. unfold nl. rewrite append_cons, append_nil.
    rewrite !append_assoc, append_cons.
    rewrite getlines_item by exact Hl0. rewrite IH. reflexivity.
Qed.

(** X1.  The loop [while (getline(file, line))] reads back the lines a
    text was written from: a text made of lines that hold no newline, each
    ended by a newline, is read as exactly these lines, and a last line that
    is not ended by a newline is read all the same, so that [parseFile]
    gives the same outcome with and without the final newline. *)
Theorem file_lines_round_trip (u : Indeterminate) (ls : list string) (l : string) :
  Forall (fun l => all (other_than "010") l = true) ls ->
  l <> "" -> all (other_than "010") l = true ->
  getlines "010" (unlines ls) = ls
  /\ getlines "010" (unlines ls ++ l) = (ls ++ [l])%list
  /\ parseStream u (unlines ls ++ l) = parseStream u (unlines (ls ++ [l])).
Proof.
  intros Hls Hne Hl. split; [apply getlines_unlines, Hls |].
  split; [apply getlines_unlines_last; assumption |].
  unfold parseStream. rewrite getlines_unlines_last by assumption.
  rewrite getlines_unlines; [reflexivity |].
  apply Forall_app. split; [exact Hls |]. constructor; [exact Hl | constructor].
Qed.

Lemma file_lines_round_trip_witness :
  getlines "010" (unlines ["Min"; ""; "Bounds:"] ++ "x free")
    = ["Min"; ""; "Bounds:"; "x free"].
Proof.
  apply (file_lines_round_trip {| any_type := MINIMIZE; any_lineNumber := 0 |}
           ["Min"; ""; "Bounds:"] "x free").
  - repeat constructor.
  - discriminate.
  - reflexivity.
Defined.

Lemma getlines_join d names last :
  Forall (fun l => all (other_than d) l = true) names ->
  last <> "" -> all (other_than d) last = true ->
  getlines d (String.concat (String d "") (names ++ [last])) = (names ++ [last])%list
  /\ getlines d (String.concat (String d "") (names ++ [last]) ++ String d "")
     = (names ++ [last])%list.
Proof.
  intros Hn Hne Hl. induction Hn as [| n names Hn0 _ IH].
  - cbn [app String.concat]. split; [apply getlines_last; assumption |].
    rewrite getlines_item by exact Hl. reflexivity.
  - destruct IH as [IH1 IH2].
    assert (Hc : String.concat (String d "") ((n :: names) ++ [last]) =
                 n ++ String d (String.concat (String d "") (names ++ [last]))).
    { cbn [app]. destruct names; reflexivity. }
    rewrite Hc. split.
    + rewrite getlines_item by exact Hn0. rewrite IH1. reflexivity.
    + rewrite append_assoc, append_cons. rewrite getlines_item by exact Hn0.
      rewrite IH2. reflexivity.
Qed.

(** X2.  [split] gives back the items that were joined with commas, each
    trimmed, when no item holds a comma and the last one is not empty; an
    empty item between two commas stays as an item.  A comma after the last
    item adds no item. *)
Theorem split_round_trip (names : list string) (last : string) :
  Forall (fun l => all (other_than ",") l = true) names ->
  last <> "" -> all (other_than ",") last = true ->
  split (String.concat "," (names ++ [last])%list) "," = trim <$> (names ++ [last])%list
  /\ split (String.concat "," (names ++ [last])%list ++ ",") "," = trim <$> (names ++ [last])%list.
Proof.
  intros Hn Hne Hl. unfold split.
  destruct (getlines_join "," names last Hn Hne Hl) as [-> ->]. split; reflexivity.
Qed.

Lemma split_round_trip_witness :
  split "x1 ,, y2," "," = ["x1"; ""; "y2"].
Proof.
  exact (proj2 (split_round_trip ["x1 "; ""] " y2"
                  ltac:(repeat constructor) ltac:(discriminate) eq_refl)).
Defined.

(** ** trim and isBlank *)

Lemma all_app p (a b : string) : all p (a ++ b) = all p a && all p b.
Proof.
  induction a as [| c a IH]; [reflexivity |].
  rewrite append_cons. cbn [all]. rewrite IH, andb_assoc. reflexivity.
Qed.

Lemma find_last_none s :
  find_last_not_of trim_set s = None <-> all trim_set s = true.
Proof.
  induction s as [| c s IH]; cbn [find_last_not_of all]; [tauto |].
  destruct (find_last_not_of trim_set s) as [i |].
  - split; [discriminate |]. intros H. apply andb_true_iff in H as [_ H].
    apply IH in H. discriminate.
  - destruct (trim_set c); cbn [andb].
    + split; [intros _; apply IH; reflexivity | reflexivity].
    + split; discriminate.
Qed.

Lemma trim_cons_kept c s : trim_set c = false -> trim (String c s) = String c (rtrim s).
Proof.
  intros Hc. unfold trim, rtrim. cbn [find_first_not_of find_last_not_of]. rewrite Hc.
  destruct (find_last_not_of trim_set s) as [b |]; unfold substr.
  - replace (S b - 0 + 1)%nat with (S (S b)) by lia. reflexivity.
  - cbn [Nat.sub Nat.add substring]. rewrite substring_0_0. reflexivity.
Qed.

Lemma rtrim_cons c s :
  rtrim (String c s) =
    match find_last_not_of trim_set s with
    | Some _ => String c (rtrim s)
    | None => if trim_set c then "" else String c ""
    end.
Proof.
  unfold rtrim. cbn [find_last_not_of].
  destruct (find_last_not_of trim_set s) as [b |]; [reflexivity |].
  destruct (trim_set c); [reflexivity |]. unfold substr. cbn [substring].
  rewrite substring_0_0. reflexivity.
Qed.

Lemma last_is_cons p c s : s <> "" -> last_is p (String c s) = last_is p s.
Proof. destruct s; [contradiction | reflexivity]. Qed.

Lemma rtrim_spec s :
  exists b, s = rtrim s ++ b /\ all trim_set b = true
            /\ (rtrim s = "" \/ last_is kept (rtrim s) = true).
Proof.
  induction s as [| c s (b & Hs & Hb & Hl)].
  - exists "". repeat split. left; reflexivity.
  - rewrite rtrim_cons. destruct (find_last_not_of trim_set s) as [i |] eqn:Hf.
    + exists b. rewrite append_cons, <- Hs. repeat split; [exact Hb |]. right.
      assert (Hne : rtrim s <> "").
      { unfold rtrim. rewrite Hf. destruct s; [discriminate | discriminate]. }
      rewrite last_is_cons by exact Hne. destruct Hl; [contradiction | assumption].
    + apply find_last_none in Hf. destruct (trim_set c) eqn:Hc.
      * exists (String c s). repeat split; [| left; reflexivity].
        cbn [all]. rewrite Hc, Hf. reflexivity.
      * exists s. repeat split; [exact Hf |]. right. cbn [last_is]. unfold kept.
        rewrite Hc. reflexivity.
Qed.

Lemma rtrim_fixed t : last_is kept t = true -> rtrim t = t.
Proof.
  induction t as [| c t IH]; [discriminate |]. intros H. rewrite rtrim_cons.
  destruct t as [| c' t'].
  - cbn [find_last_not_of last_is] in *. unfold kept in H.
    apply negb_true_iff in H. rewrite H. reflexivity.
  - rewrite last_is_cons in H by discriminate. rewrite (IH H).
    destruct (find_last_not_of trim_set (String c' t')) eqn:Hf; [reflexivity |].
    apply find_last_none in Hf. exfalso. clear IH. revert H Hf.
    generalize (String c' t'). intros t. induction t as [| x t IHt]; [discriminate |].
    cbn [all]. intros H Hall. apply andb_true_iff in Hall as [Hx Hall].
    destruct t as [| y t].
    + cbn [last_is] in H. unfold kept in H. rewrite Hx in H. discriminate.
    + rewrite last_is_cons in H by discriminate. apply IHt; assumption.
Qed.

Lemma trim_spec s :
  exists a b,
    s = a ++ trim s ++ b /\ all trim_set a = true /\ all trim_set b = true
    /\ (trim s = "" \/ (starts kept (trim s) = true /\ last_is kept (trim s) = true)).
Proof.
  induction s as [| c s (a & b & Hs & Ha & Hb & Hl)].
  - exists "", "". repeat split. left; reflexivity.
  - destruct (trim_set c) eqn:Hc.
    + rewrite (trim_cons_space c s Hc). exists (String c a), b.
      rewrite append_cons, <- Hs. repeat split; [| exact Hb | exact Hl].
      cbn [all]. rewrite Hc, Ha. reflexivity.
    + rewrite (trim_cons_kept c s Hc).
      destruct (rtrim_spec s) as (b' & Hs' & Hb' & Hl').
      exists "", b'. rewrite append_nil, append_cons, <- Hs'.
      repeat split; [exact Hb' |]. right. split.
      * cbn [starts]. unfold kept. rewrite Hc. reflexivity.
      * destruct Hl' as [-> | Hl'].
        -- cbn [last_is]. unfold kept. rewrite Hc. reflexivity.
        -- destruct (rtrim s) eqn:Hr; [discriminate |].
           rewrite last_is_cons by discriminate. exact Hl'.
Qed.

Lemma trim_fixed t :
  starts kept t = true -> last_is kept t = true -> trim t = t.
Proof.
  destruct t as [| c t]; [discriminate |]. cbn [starts]. intros Hc Hl.
  unfold kept in Hc. apply negb_true_iff in Hc. rewrite (trim_cons_kept c t Hc).
  destruct t as [| c' t']; [reflexivity |].
  rewrite last_is_cons in Hl by discriminate. rewrite (rtrim_fixed _ Hl). reflexivity.
Qed.

(** X3.  [trim] takes white space (space, tab, carriage return, newline)
    from the two ends of a text and nothing else: the text is some white
    space, then the trimmed text, then some white space, and the trimmed
    text is empty or begins and ends with a character that is no white
    space.  Trimming a trimmed text changes nothing. *)
Theorem trim_strips_both_ends (s : string) :
  (exists a b,
     s = a ++ trim s ++ b /\ all trim_set a = true /\ all trim_set b = true
     /\ (trim s = "" \/ (starts kept (trim s) = true /\ last_is kept (trim s) = true)))
  /\ trim (trim s) = trim s.
Proof.
  split; [apply trim_spec |].
  destruct (trim_spec s) as (_ & _ & _ & _ & _ & [-> | [H1 H2]]); [reflexivity |].
  apply trim_fixed; assumption.
Qed.

(** X4.  [isBlank] holds exactly of the texts made of white space only
    (the empty text among them). *)
Theorem isBlank_iff_white_space (s : string) :
  isBlank s = true <-> all trim_set s = true.
Proof.
  unfold isBlank. rewrite String.eqb_eq. split.
  - intros H. destruct (trim_spec s) as (a & b & Hs & Ha & Hb & _).
    rewrite H, append_nil in Hs. rewrite Hs, all_app, Ha, Hb. reflexivity.
  - induction s as [| c s IH]; [reflexivity |]. cbn [all]. intros H.
    apply andb_true_iff in H as [Hc H]. rewrite (trim_cons_space c s Hc). apply IH, H.
Qed.

(** ** What a match is made of *)

Lemma many_sound {R : Type} p s (k : string -> option R) x :
  many p s k = Some x ->
  exists pre s1, s = pre ++ s1 /\ all p pre = true /\ k s1 = Some x.
Proof.
  induction s as [| a s IH]; cbn [many].
  - intros H. exists "", "". auto.
  - destruct (p a) eqn:Ha.
    + destruct (many p s k) as [y |] eqn:Hm.
      * intros [= ->]. destruct (IH eq_refl) as (pre & s1 & -> & Hp & Hk).
        exists (String a pre), s1. repeat split; [| exact Hk].
        cbn [all]. rewrite Ha, Hp. reflexivity.
      * intros H. exists "", (String a s). auto.
    + intros H. exists "", (String a s). auto.
Qed.

(** Every result of the search went through the continuation, after a text
    of the language of the pattern. *)
Lemma run_sound {R : Type} r : forall s c (k : string -> captures -> option R) x,
  run r s c k = Some x ->
  exists p s1 c1, s = p ++ s1 /\ matches r p c c1 /\ k s1 c1 = Some x.
Proof.
  induction r as [| q | r1 IH1 r2 IH2 | r1 IH1 r2 IH2 | q | i r IH];
    intros s c k x; cbn [run].
  - intros H. exists "", s, c. repeat split; [constructor | exact H].
  - destruct s as [| a s]; [discriminate |]. destruct (q a) eqn:Ha; [| discriminate].
    intros H. exists (String a ""), s, c. repeat split; [constructor; exact Ha | exact H].
  - intros H. apply IH1 in H as (p1 & s1 & c1 & -> & M1 & H).
    apply IH2 in H as (p2 & s2 & c2 & -> & M2 & H).
    exists (p1 ++ p2), s2, c2. rewrite append_assoc.
    repeat split; [econstructor; eassumption | exact H].
  - destruct (run r1 s c k) as [y |] eqn:H1.
    + intros [= ->]. apply IH1 in H1 as (p & s1 & c1 & -> & M & H).
      exists p, s1, c1. repeat split; [apply matches_Or_l, M | exact H].
    + intros H. apply IH2 in H as (p & s1 & c1 & -> & M & H).
      exists p, s1, c1. repeat split; [apply matches_Or_r, M | exact H].
  - intros H. apply many_sound in H as (pre & s1 & -> & Hp & H).
    exists pre, s1, c. repeat split; [constructor; exact Hp | exact H].
  - intros H. apply IH in H as (p & s1 & c1 & -> & M & H).
    rewrite consumed_app in H.
    exists p, s1, (set_capture i p c1). repeat split; [constructor; exact M | exact H].
Qed.

Lemma regex_match_sound r s m :
  regex_match r s = Some m -> matches r s no_captures m.
Proof.
  unfold regex_match. intros H. apply run_sound in H as (p & s1 & c1 & -> & M & H).
  destruct s1; [| discriminate]. injection H as <-.
  replace (p ++ "") with p; [exact M |].
  clear. induction p as [| a p IH]; [reflexivity |]. rewrite append_cons, <- IH. reflexivity.
Qed.

Lemma match_here_sound r s x :
  match_here r s = Some x -> exists s1 c1, s = x ++ s1 /\ matches r x no_captures c1.
Proof.
  unfold match_here. intros H. apply run_sound in H as (p & s1 & c1 & -> & M & H).
  rewrite consumed_app in H. injection H as <-. eauto.
Qed.

(** Inversion of [matches] at the constructors of the patterns. *)
Ltac invert_matches :=
  repeat match goal with
  | H : matches Empty _ _ _ |- _ => inversion H; subst; clear H
  | H : matches (Class _) _ _ _ |- _ => inversion H; subst; clear H
  | H : matches (Cat _ _) _ _ _ |- _ => inversion H; subst; clear H
  | H : matches (Or _ _) _ _ _ |- _ => inversion H; subst; clear H
  | H : matches (Many _) _ _ _ |- _ => inversion H; subst; clear H
  | H : matches (Capture _ _) _ _ _ |- _ => inversion H; subst; clear H
  end.

Lemma sign_text a : sign_char a = true -> String a "" = "+" \/ String a "" = "-".
Proof.
  unfold sign_char. intros H.
  apply orb_true_iff in H as [H | H]; apply Ascii.eqb_eq in H; subst; auto.
Qed.

Lemma termPattern_sound token m :
  regex_match termPattern token = Some m ->
  exists sg d1 dt d2,
    m 1%nat = sg ++ d1 ++ dt ++ d2 /\ token = (sg ++ d1 ++ dt ++ d2) ++ m 2%nat
    /\ coefficient_text sg d1 dt d2 /\ identifier (m 2%nat) = true.
Proof.
  intros H. apply regex_match_sound in H.
  unfold termPattern, Maybe, Chr in H. invert_matches;
    repeat match goal with
    | H : sign_char _ = true |- _ => apply sign_text in H
    | H : Ascii.eqb "." _ = true |- _ => apply Ascii.eqb_eq in H; subst
    end;
    match goal with
    | |- context [set_capture 2 (String ?a "" ++ ?w) (set_capture 1 (?sg ++ ?d1 ++ ?dt ++ ?d2) _)] =>
        exists sg, d1, dt, d2
    end;
    unfold set_capture; cbn [Nat.eqb];
    (split; [reflexivity |]); (split; [reflexivity |]);
    (split; [unfold coefficient_text; intuition auto |]);
    rewrite append_cons, append_nil; cbn [identifier];
    apply andb_true_iff; split; assumption.
Qed.

Lemma parseTerm_shape (token : string) (line : Z) (t : Term) :
  parseTerm token line = OK t ->
  identifier (variable t) = true
  /\ exists sg d1 dt d2,
       token = (sg ++ d1 ++ dt ++ d2) ++ variable t
       /\ coefficient_text sg d1 dt d2
       /\ (sg ++ d1 ++ dt ++ d2 = "" \/ sg ++ d1 ++ dt ++ d2 = "+" ->
             coefficient t = dZ 1)
       /\ (sg ++ d1 ++ dt ++ d2 = "-" -> coefficient t = dZ (-1))
       /\ (sg ++ d1 ++ dt ++ d2 <> "" -> sg ++ d1 ++ dt ++ d2 <> "+" ->
           sg ++ d1 ++ dt ++ d2 <> "-" ->
             stod (sg ++ d1 ++ dt ++ d2) = OK (coefficient t)).
Proof.
  unfold parseTerm.
  destruct (regex_match termPattern token) as [m |] eqn:Hm; [| discriminate].
  destruct (termPattern_sound token m Hm) as (sg & d1 & dt & d2 & H1 & Ht & Hc & Hv).
  cbn zeta. rewrite H1. set (text := sg ++ d1 ++ dt ++ d2) in *.
  intros H. apply bind_OK in H as (coeff & Hcoeff & [= <-]). cbn [variable coefficient].
  split; [exact Hv |]. exists sg, d1, dt, d2. fold text.
  split; [exact Ht |]. split; [exact Hc |].
  split; [| split].
  - intros [E | E]; rewrite E in Hcoeff; cbn in Hcoeff; congruence.
  - intros E. rewrite E in Hcoeff. cbn in Hcoeff. congruence.
  - intros N0 N1 N2. apply String.eqb_neq in N0, N1, N2.
    rewrite N0, N1, N2 in Hcoeff. exact Hcoeff.
Qed.

(** X5.  A term that [parseTerm] returns names an identifier (a letter or
    underscore, then letters, digits and underscores): the token is a
    coefficient text (optional sign, digits, optional point, digits)
    followed by exactly that identifier, and the coefficient is 1 when the
    text is empty or [+], -1 when it is [-], and what [stod] makes of the
    text otherwise. *)
Theorem parseTerm_returns_identifier (token : string) (line : Z) (t : Term) :
  parseTerm token line = OK t ->
  identifier (variable t) = true
  /\ exists sg d1 dt d2,
       token = (sg ++ d1 ++ dt ++ d2) ++ variable t
       /\ coefficient_text sg d1 dt d2
       /\ (sg ++ d1 ++ dt ++ d2 = "" \/ sg ++ d1 ++ dt ++ d2 = "+" ->
             coefficient t = dZ 1)
       /\ (sg ++ d1 ++ dt ++ d2 = "-" -> coefficient t = dZ (-1))
       /\ (sg ++ d1 ++ dt ++ d2 <> "" -> sg ++ d1 ++ dt ++ d2 <> "+" ->
           sg ++ d1 ++ dt ++ d2 <> "-" ->
             stod (sg ++ d1 ++ dt ++ d2) = OK (coefficient t)).
Proof. apply parseTerm_shape. Qed.

Lemma parseTerm_returns_identifier_witness :
  identifier (variable {| coefficient := Fin (-7 # 2); variable := "x_2" |}) = true.
Proof.
  exact (proj1 (parseTerm_returns_identifier "-3.5x_2" 4
                  {| coefficient := Fin (-7 # 2); variable := "x_2" |} eq_refl)).
Defined.

(** ** The expression reader *)

Lemma mapM_OK {A B : Type} (f : A -> result B) l ys :
  mapM f l = OK ys -> Forall2 (fun x y => f x = OK y) l ys.
Proof.
  revert ys. induction l as [| x l IH]; intros ys; cbn [mapM].
  - intros [= <-]. constructor.
  - intros H. apply bind_OK in H as (y & Hy & H). apply bind_OK in H as (k & Hk & [= <-]).
    constructor; [exact Hy | apply IH, Hk].
Qed.

Lemma mapM_Throw {A B : Type} (f : A -> result B) l e :
  mapM f l = Throw e -> exists x, x ∈ l /\ f x = Throw e.
Proof.
  induction l as [| x l IH]; cbn [mapM]; [discriminate |].
  destruct (f x) as [y |] eqn:Hx.
  - rewrite bind_ret_l. destruct (mapM f l) as [k |] eqn:Hk; [discriminate |].
    intros [= <-]. destruct (IH eq_refl) as (x' & Hin & Hx').
    exists x'. split; [apply list_elem_of_further, Hin | exact Hx'].
  - intros [= <-]. exists x. split; [apply list_elem_of_here | exact Hx].
Qed.

Lemma matches_from_here r s : forall n x,
  x ∈ matches_from r n s -> exists t, match_here r t = Some x.
Proof.
  induction s as [| a s IH]; intros n x; destruct n; cbn [matches_from];
    try (intros H; apply not_elem_of_nil in H; contradiction).
  - destruct (match_here r (String a s)) as [[| b m] |] eqn:Hm; try apply IH.
    intros H. apply elem_of_cons in H as [-> | H]; [eauto | eapply IH, H].
  - apply IH.
Qed.

Lemma remove_spaces_app (a b : string) :
  remove_spaces (a ++ b) = remove_spaces a ++ remove_spaces b.
Proof.
  induction a as [| c a IH]; [reflexivity |]. rewrite append_cons. cbn [remove_spaces].
  destruct (isspace c); [exact IH | rewrite append_cons, IH; reflexivity].
Qed.

Lemma remove_spaces_spaces ws : all isspace ws = true -> remove_spaces ws = "".
Proof.
  induction ws as [| c ws IH]; [reflexivity |]. cbn [all remove_spaces]. intros H.
  apply andb_true_iff in H as [-> H]. apply IH, H.
Qed.

Lemma remove_spaces_none s : all nonspace s = true -> remove_spaces s = s.
Proof.
  induction s as [| c s IH]; [reflexivity |]. cbn [all remove_spaces]. intros H.
  apply andb_true_iff in H as [Hc H]. unfold nonspace in Hc. apply negb_true_iff in Hc.
  rewrite Hc, (IH H). reflexivity.
Qed.

Lemma all_impl (p q : ascii -> bool) s :
  (forall a, p a = true -> q a = true) -> all p s = true -> all q s = true.
Proof.
  intros Hpq. induction s as [| c s IH]; [reflexivity |]. cbn [all]. intros H.
  apply andb_true_iff in H as [Hc H]. rewrite (Hpq c Hc), (IH H). reflexivity.
Qed.

Lemma digit_nonspace a : isdigit a = true -> nonspace a = true.
Proof. intros H. unfold nonspace. apply negb_true_iff. apply isdigit_class, H. Qed.

Lemma word_nonspace a : word_char a = true -> nonspace a = true.
Proof. intros H. unfold nonspace. apply negb_true_iff. apply word_char_class, H. Qed.

Lemma identifier_nonspace v : identifier v = true -> all nonspace v = true.
Proof.
  destruct v as [| a v]; [discriminate |]. cbn [identifier all]. intros H.
  apply andb_true_iff in H as [Ha Hv]. apply andb_true_iff. split.
  - apply word_nonspace. apply ident_start_class, Ha.
  - apply (all_impl word_char); [apply word_nonspace | exact Hv].
Qed.

Lemma coefficient_text_nonspace sg d1 dt d2 :
  coefficient_text sg d1 dt d2 ->
  all nonspace sg = true /\ all nonspace d1 = true /\ all nonspace dt = true
  /\ all nonspace d2 = true.
Proof.
  intros (Hs & H1 & Ht & H2). repeat split.
  - destruct Hs as [-> | [-> | ->]]; reflexivity.
  - apply (all_impl isdigit); [apply digit_nonspace | exact H1].
  - destruct Ht as [-> | ->]; reflexivity.
  - apply (all_impl isdigit); [apply digit_nonspace | exact H2].
Qed.

(** A match of the token pattern: sign, white space, coefficient digits,
    identifier. *)
Lemma tokenPattern_sound t x :
  match_here tokenPattern t = Some x ->
  exists sg ws d1 dt d2 v,
    x = sg ++ ws ++ d1 ++ dt ++ d2 ++ v
    /\ coefficient_text sg d1 dt d2 /\ all isspace ws = true /\ identifier v = true.
Proof.
  intros H. apply match_here_sound in H as (s1 & c1 & _ & M).
  unfold tokenPattern, Maybe, Chr in M. invert_matches;
    repeat match goal with
    | H : sign_char _ = true |- _ => apply sign_text in H
    | H : Ascii.eqb "." _ = true |- _ => apply Ascii.eqb_eq in H; subst
    end;
    match goal with
    | |- context [?sg ++ ?ws ++ ?d1 ++ ?dt ++ ?d2 ++ String ?a "" ++ ?w] =>
        exists sg, ws, d1, dt, d2, (String a "" ++ w)
    end;
    (split; [reflexivity |]); (split; [unfold coefficient_text; intuition auto |]);
    (split; [assumption |]);
    rewrite append_cons, append_nil; cbn [identifier];
    apply andb_true_iff; split; assumption.
Qed.

Lemma termPattern_accepts sg d1 dt d2 v :
  coefficient_text sg d1 dt d2 -> identifier v = true ->
  exists m, regex_match termPattern (sg ++ d1 ++ dt ++ d2 ++ v) = Some m.
Proof.
  intros (Hs & H1 & Ht & H2) Hv.
  assert (G : forall s g, groups (regex_match termPattern s) = Some g ->
                exists m, regex_match termPattern s = Some m).
  { intros s g. destruct (regex_match termPattern s); [eauto | discriminate]. }
  destruct Ht as [-> | ->].
  - rewrite append_nil. eapply G.
    pose proof (termPattern_match sg (d1 ++ d2) "" v Hs) as H.
    rewrite append_nil, append_assoc in H. apply H; [| auto | exact Hv].
    rewrite all_app, H1, H2. reflexivity.
  - eapply G. pose proof (termPattern_match sg d1 ("." ++ d2) v Hs H1) as H.
    rewrite append_assoc in H. apply H; [| exact Hv]. right. eauto.
Qed.

Lemma parseTerm_exn token line e :
  parseTerm token line = Throw e ->
  (e = InvalidTermFormat line token /\ regex_match termPattern token = None)
  \/ e = StodInvalidArgument \/ e = StodOutOfRange.
Proof.
  unfold parseTerm. destruct (regex_match termPattern token) as [m |].
  - cbn zeta. destruct (_ && _ && _).
    + destruct (stod (m 1%nat)) as [c |] eqn:Hs; [discriminate |].
      intros [= <-]. right. eapply stod_exn, Hs.
    + destruct (m 1%nat =? "-")%string; discriminate.
  - intros [= <-]. left. auto.
Qed.

Lemma token_is_term t x line e :
  match_here tokenPattern t = Some x ->
  parseTerm (remove_spaces x) line = Throw e ->
  e = StodInvalidArgument \/ e = StodOutOfRange.
Proof.
  intros H He. apply tokenPattern_sound in H
    as (sg & ws & d1 & dt & d2 & v & -> & Hc & Hw & Hv).
  destruct (coefficient_text_nonspace _ _ _ _ Hc) as (N0 & N1 & N2 & N3).
  rewrite !remove_spaces_app, (remove_spaces_spaces ws Hw), append_nil in He.
  rewrite !remove_spaces_none in He by (assumption || apply identifier_nonspace, Hv).
  destruct (termPattern_accepts sg d1 dt d2 v Hc Hv) as (m & Hm).
  apply parseTerm_exn in He as [[_ Hn] | He]; [congruence | exact He].
Qed.

Lemma parseExpression_cases (exprStr : string) (line : Z) :
  match parseExpression exprStr line with
  | OK ts => ts <> [] /\ Forall (fun t => identifier (variable t) = true) ts
  | Throw e => e = NoValidTerms line \/ e = StodInvalidArgument \/ e = StodOutOfRange
  end.
Proof.
  unfold parseExpression.
  destruct (mapM _ (sregex_iterator tokenPattern exprStr)) as [ts |] eqn:Hm.
  - rewrite bind_ret_l. destruct ts as [| t ts]; [left; reflexivity |].
    split; [discriminate |]. apply mapM_OK in Hm.
    generalize dependent (t :: ts). clear. intros ts H.
    induction H as [| x y l k Hxy _ IH]; constructor; [| exact IH].
    eapply parseTerm_shape, Hxy.
  - cbn. right. apply mapM_Throw in Hm as (x & Hin & Hx).
    apply matches_from_here in Hin as (t & Ht). eapply token_is_term; eassumption.
Qed.

(** X6.  [parseExpression] returns at least one term, and every term it
    returns names an identifier.  When it throws, the exception is "No
    valid terms found in expression" with the line it was given, or an
    exception of [stod]; it never throws "Invalid term format": every
    token it hands to [parseTerm] has the shape of a term. *)
Theorem parseExpression_outcomes (exprStr : string) (line : Z) :
  match parseExpression exprStr line with
  | OK ts => ts <> [] /\ Forall (fun t => identifier (variable t) = true) ts
  | Throw e => e = NoValidTerms line \/ e = StodInvalidArgument \/ e = StodOutOfRange
  end.
Proof. apply parseExpression_cases. Qed.


Lemma all_app_r p (a b : string) : all p (a ++ b) = true -> all p b = true.
Proof. rewrite all_app. intros H. apply andb_true_iff in H. apply H. Qed.

Lemma identifier_has_start v :
  identifier v = true -> all no_ident_start v = false.
Proof.
  destruct v as [| a v]; [discriminate |]. cbn [identifier all]. intros H.
  apply andb_true_iff in H as [Ha _]. unfold no_ident_start. rewrite Ha. reflexivity.
Qed.

Lemma no_start_no_match t :
  all no_ident_start t = true -> match_here tokenPattern t = None.
Proof.
  intros Ht. destruct (match_here tokenPattern t) as [x |] eqn:H; [| reflexivity].
  pose proof (match_here_sound _ _ _ H) as (s1 & _ & E & _).
  apply tokenPattern_sound in H as (sg & ws & d1 & dt & d2 & v & -> & _ & _ & Hv).
  apply identifier_has_start in Hv. rewrite E in Ht.
  rewrite !all_app in Ht. rewrite Hv in Ht. rewrite !andb_false_r in Ht.
  cbn in Ht. rewrite ?andb_false_r in Ht. discriminate.
Qed.

Lemma matches_from_none q s :
  (forall t, all q t = true -> match_here tokenPattern t = None) ->
  all q s = true -> forall n, matches_from tokenPattern n s = [].
Proof.
  intros Hq. induction s as [| a s IH]; intros Hs n; destruct n; try reflexivity.
  - cbn [matches_from]. rewrite (Hq _ Hs). apply IH.
    cbn [all] in Hs. apply andb_true_iff in Hs. apply Hs.
  - cbn [matches_from]. apply IH. cbn [all] in Hs. apply andb_true_iff in Hs. apply Hs.
Qed.

(** X7.  An expression in which no letter and no underscore occurs (only
    numbers, signs, operators, white space) has no term: [parseExpression]
    throws "No valid terms found in expression" with the line it was
    given. *)
Theorem expression_without_identifier (exprStr : string) (line : Z) :
  all no_ident_start exprStr = true ->
  parseExpression exprStr line = Throw (NoValidTerms line).
Proof.
  intros H. unfold parseExpression, sregex_iterator.
  rewrite (matches_from_none no_ident_start exprStr no_start_no_match H). reflexivity.
Qed.

Lemma expression_without_identifier_witness :
  parseExpression "3 + 4.5 - 7" 12 = Throw (NoValidTerms 12).
Proof. apply expression_without_identifier. reflexivity. Defined.


(** ** A coefficient written apart from its variable *)

Lemma isspace_other a :
  isspace a = true ->
  isdigit a = false /\ ident_start a = false /\ sign_char a = false
  /\ Ascii.eqb "." a = false.
Proof.
  destruct a as [[] [] [] [] [] [] [] []]; vm_compute; intros H;
    try discriminate H; repeat split.
Qed.

Lemma digit_not_point a : isdigit a = true -> a <> "."%char.
Proof. intros H ->. discriminate. Qed.

Lemma digits_then_space D : forall d1 dt d2 v s1 sp rest,
  all isdigit D = true -> isspace sp = true ->
  all isdigit d1 = true -> dt = "" \/ dt = "." -> all isdigit d2 = true ->
  identifier v = true ->
  d1 ++ dt ++ d2 ++ v ++ s1 = D ++ String sp rest -> False.
Proof.
  induction D as [| c D IH]; intros d1 dt d2 v s1 sp rest HD Hsp H1 Ht H2 Hv E.
  - rewrite append_nil in E. destruct (isspace_other sp Hsp) as (Sd & Si & _ & Sp).
    destruct d1 as [| x d1].
    + rewrite append_nil in E. destruct Ht as [-> | ->].
      * rewrite append_nil in E. destruct d2 as [| y d2].
        -- rewrite append_nil in E. destruct v as [| a v]; [discriminate |].
           rewrite append_cons in E. injection E as -> _. cbn [identifier] in Hv.
           rewrite Si in Hv. discriminate.
        -- rewrite append_cons in E. injection E as -> _. cbn [all] in H2.
           rewrite Sd in H2. discriminate.
      * rewrite append_cons in E. injection E as <- _. discriminate.
    + rewrite append_cons in E. injection E as -> _. cbn [all] in H1.
      rewrite Sd in H1. discriminate.
  - cbn [all] in HD. apply andb_true_iff in HD as [Hc HD]. rewrite append_cons in E.
    destruct d1 as [| x d1].
    + rewrite append_nil in E. destruct Ht as [-> | ->].
      * rewrite append_nil in E. destruct d2 as [| y d2].
        -- rewrite append_nil in E. destruct v as [| a v]; [discriminate |].
           rewrite append_cons in E. injection E as -> _. cbn [identifier] in Hv.
           apply andb_true_iff in Hv as [Ha _].
           destruct (ident_start_class c Ha) as (_ & Hd & _). congruence.
        -- rewrite append_cons in E. injection E as -> E. cbn [all] in H2.
           apply andb_true_iff in H2 as [_ H2].
           apply (IH "" "" d2 v s1 sp rest); auto.
      * rewrite append_cons in E. injection E as <- _. discriminate.
    + rewrite append_cons in E. injection E as -> E. cbn [all] in H1.
      apply andb_true_iff in H1 as [_ H1].
      apply (IH d1 dt d2 v s1 sp rest); auto.
Qed.

Lemma digits_no_match c D sp rest :
  isdigit c = true -> all isdigit D = true -> isspace sp = true ->
  match_here tokenPattern (String c D ++ String sp rest) = None.
Proof.
  intros Hc HD Hsp.
  destruct (match_here tokenPattern _) as [x |] eqn:H; [exfalso | reflexivity].
  pose proof (match_here_sound _ _ _ H) as (s1 & _ & E & _).
  apply tokenPattern_sound in H
    as (sg & ws & d1 & dt & d2 & v & -> & (Hs & H1 & Ht & H2) & Hw & Hv).
  destruct (isdigit_class c Hc) as (Cs & _ & _ & Csp & _).
  assert (sg = "").
  { destruct Hs as [-> | [-> | ->]]; [reflexivity | |];
      rewrite !append_cons in E; injection E as -> _; discriminate Cs. }
  subst sg. rewrite append_nil in E.
  assert (ws = "").
  { destruct ws as [| w ws]; [reflexivity |]. rewrite !append_cons in E.
    injection E as <- _. cbn [all] in Hw. rewrite Csp in Hw. discriminate. }
  subst ws. rewrite append_nil in E. symmetry in E.
  rewrite !append_assoc in E.
  apply (digits_then_space (String c D) d1 dt d2 v s1 sp rest); auto.
  cbn [all]. rewrite Hc, HD. reflexivity.
Qed.

Lemma matches_from_digits D sp rest :
  all isdigit D = true -> isspace sp = true ->
  matches_from tokenPattern 0 (D ++ String sp rest)
    = matches_from tokenPattern 0 (String sp rest).
Proof.
  intros HD Hsp. induction D as [| c D IH]; [reflexivity |].
  cbn [all] in HD. apply andb_true_iff in HD as [Hc HD].
  pose proof (digits_no_match c D sp rest Hc HD Hsp) as Hn.
  rewrite append_cons in *. cbn [matches_from]. rewrite Hn. apply IH, HD.
Qed.

Lemma matches_from_skip r s : matches_from r (String.length s) s = [].
Proof. induction s as [| a s IH]; [reflexivity | exact IH]. Qed.

Lemma run_many_none {R : Type} p s c (k : string -> captures -> option R) :
  starts p s = false -> run (Many p) s c k = k s c.
Proof.
  intros H. cbn [run]. destruct s as [| a s]; [reflexivity |].
  cbn [starts] in H. apply many_cons_out, H.
Qed.

Lemma append_nil_r (s : string) : s ++ "" = s.
Proof. induction s as [| a s IH]; [reflexivity |]. rewrite append_cons, IH. reflexivity. Qed.

Lemma run_many_to_end {R : Type} p w c (k : string -> captures -> option R) x :
  all p w = true -> k "" c = Some x -> run (Many p) w c k = Some x.
Proof.
  intros Hw Hk. rewrite <- (append_nil_r w). apply run_many_greedy; auto.
Qed.

Lemma spaces_then_identifier ws v :
  all isspace ws = true -> identifier v = true ->
  match_here tokenPattern (ws ++ v) = Some (ws ++ v).
Proof.
  intros Hw Hv. destruct (identifier_starts v Hv) as (Hvs & Hvd & Hvp).
  assert (Hsp : starts isspace v = false).
  { destruct v as [| a v]; [discriminate |]. cbn [identifier starts] in *.
    apply andb_true_iff in Hv as [Ha _]. apply word_char_class. apply ident_start_class, Ha. }
  unfold match_here, tokenPattern, Chr. rewrite run_capture, run_cat.
  rewrite run_maybe_skip.
  2: { apply starts_app_false; [| exact Hvs].
       apply (all_starts isspace); [| exact Hw]. intros a Ha. apply isspace_other, Ha. }
  rewrite run_cat. apply run_many_greedy; [exact Hw | exact Hsp |].
  rewrite run_cat, run_many_none by exact Hvd.
  rewrite run_cat, run_maybe_skip by exact Hvp.
  rewrite run_cat, run_many_none by exact Hvd.
  destruct v as [| a w]; [discriminate |]. cbn [identifier] in Hv.
  apply andb_true_iff in Hv as [Ha Hw'].
  rewrite run_cat, run_class by exact Ha.
  apply run_many_to_end; [exact Hw' |]. rewrite consumed_all. reflexivity.
Qed.

(** X8.  White space between a coefficient and its variable separates
    them: of digits, then white space, then an identifier, only the
    identifier is read, as a term with coefficient 1; the digits are
    dropped without an exception. *)
Theorem coefficient_apart_is_dropped (d ws v : string) (line : Z) :
  all isdigit d = true -> ws <> "" -> all isspace ws = true -> identifier v = true ->
  parseExpression (d ++ ws ++ v) line = OK [ {| coefficient := dZ 1; variable := v |} ].
Proof.
  intros Hd Hne Hw Hv. unfold parseExpression, sregex_iterator.
  destruct ws as [| sp ws]; [contradiction |].
  pose proof Hw as Hw0. cbn [all] in Hw0. apply andb_true_iff in Hw0 as [Hsp _].
  rewrite append_cons, matches_from_digits by assumption.
  cbn [matches_from]. rewrite <- append_cons.
  rewrite (spaces_then_identifier (String sp ws) v Hw Hv). rewrite append_cons.
  rewrite matches_from_skip. cbn [mapM]. rewrite <- append_cons.
  rewrite remove_spaces_app, (remove_spaces_spaces _ Hw), append_nil.
  rewrite remove_spaces_none by apply identifier_nonspace, Hv.
  destruct (parseTerm_identifier v line Hv) as (-> & _). reflexivity.
Qed.

Lemma coefficient_apart_is_dropped_witness :
  parseExpression "3 x" 1 = OK [ {| coefficient := dZ 1; variable := "x" |} ].
Proof.
  exact (coefficient_apart_is_dropped "3" " " "x" 1 eq_refl ltac:(discriminate) eq_refl eq_refl).
Defined.


(** ** The exceptions of the parser and their line numbers *)

Lemma parseConstraint_exn lineStr line e :
  parseConstraint lineStr line = Throw e ->
  e = InvalidConstraintFormat line \/ e = NoValidTerms line
  \/ e = StodInvalidArgument \/ e = StodOutOfRange.
Proof.
  unfold parseConstraint.
  destruct (regex_match constraintPattern lineStr) as [m |]; [| intros [= <-]; auto].
  pose proof (parseExpression_cases (m 1%nat) line) as He.
  destruct (parseExpression (m 1%nat) line) as [ts | e1].
  - rewrite bind_ret_l. destruct (stod (m 3%nat)) as [v |] eqn:Hs; [discriminate |].
    intros [= <-]. right; right. eapply stod_exn, Hs.
  - intros [= <-]. right. exact He.
Qed.

Lemma boundLine_exn line n m e :
  boundLine line n m = Throw e ->
  e = InvalidBoundFormat n \/ e = StodInvalidArgument \/ e = StodOutOfRange.
Proof.
  unfold boundLine. destruct (find "free" line); [discriminate |].
  destruct (regex_match boundPattern line) as [mt |]; [| intros [= <-]; auto].
  destruct (stod (mt 3%nat)) as [v |] eqn:Hs; [discriminate |].
  intros [= <-]. right. eapply stod_exn, Hs.
Qed.

Lemma parseLine_exn st raw e :
  parseLine st raw = Throw e -> thrown_at (lineNo st + 1) e.
Proof.
  unfold thrown_at. parseLine_cases st raw; cbn zeta.
  - discriminate.
  - destruct (objectiveParsed st); [| discriminate]. intros [= <-]. auto.
  - discriminate.
  - destruct (current st); cbn.
    + intros [= <-]. auto 10.
    + destruct (parseConstraint (trim raw) (lineNo st + 1)) as [c |] eqn:Hc; [discriminate |].
      intros [= <-]. apply parseConstraint_exn in Hc. intuition auto.
    + destruct (boundLine (trim raw) (lineNo st + 1) (model st)) as [m |] eqn:Hb;
        [discriminate |].
      intros [= <-]. apply boundLine_exn in Hb. intuition auto.
    + discriminate.
    + discriminate.
  - pose proof (parseExpression_cases (trim raw) (lineNo st + 1)) as He.
    destruct (parseExpression (trim raw) (lineNo st + 1)) as [ts | e1]; [discriminate |].
    intros [= <-]. intuition auto.
Qed.

Lemma parseLines_exn lines : forall st e,
  parseLines st lines = Throw e ->
  exists before raw after st',
    lines = (before ++ raw :: after)%list
    /\ parseLines st before = OK st'
    /\ lineNo st' = lineNo st + Z.of_nat (List.length before)
    /\ parseLine st' raw = Throw e.
Proof.
  induction lines as [| raw rest IH]; intros st e; cbn [parseLines]; [discriminate |].
  destruct (parseLine st raw) as [st1 |] eqn:H1.
  - rewrite bind_ret_l. intros H.
    apply IH in H as (before & raw' & after & st' & -> & Hb & Hn & Ht).
    exists (raw :: before), raw', after, st'. repeat split.
    + cbn [parseLines]. rewrite H1, bind_ret_l. exact Hb.
    + rewrite Hn, (parseLine_lineNo _ _ _ H1). cbn [List.length]. lia.
    + exact Ht.
  - intros [= <-]. exists [], raw, rest, st. repeat split; [cbn; lia | exact H1].
Qed.

(** X9.  When [parseFile] throws on a text, all the lines before some line
    were read without an exception and the exception comes from reading
    that line; it is one of "Duplicate optimization type", "No valid terms
    found in expression", "Invalid constraint format", "Invalid bound
    format" and "Unexpected line or misplaced section", each with the
    1-based number of that line, or an exception of [stod], which has no
    line number.  "Invalid term format" is never thrown. *)
Theorem exception_names_the_line_read (u : Indeterminate) (text : string) (e : exn) :
  parseStream u text = Throw e ->
  exists before raw after st,
    getlines "010" text = (before ++ raw :: after)%list
    /\ parseLines (initial u) before = OK st
    /\ parseLine st raw = Throw e
    /\ thrown_at (Z.of_nat (List.length before) + 1) e
    /\ (forall n, exn_line e = Some n -> n = Z.of_nat (List.length before) + 1)
    /\ (forall n tok, e <> InvalidTermFormat n tok).
Proof.
  unfold parseStream. intros H.
  destruct (parseLines (initial u) (getlines "010" text)) as [st |] eqn:Hp; [discriminate |].
  injection H as ->.
  apply parseLines_exn in Hp as (before & raw & after & st & Hl & Hb & Hn & Ht).
  exists before, raw, after, st. repeat split; try assumption.
  - apply parseLine_exn in Ht. rewrite Hn in Ht. exact Ht.
  - intros n He. apply parseLine_exn in Ht. rewrite Hn in Ht. cbn [initial lineNo] in Ht.
    unfold thrown_at in Ht.
    destruct Ht as [-> | [-> | [-> | [-> | [-> | [-> | ->]]]]]]; cbn in He;
      try discriminate; injection He as <-; lia.
  - intros n tok ->. apply parseLine_exn in Ht. unfold thrown_at in Ht.
    destruct Ht as [? | [? | [? | [? | [? | [? | ?]]]]]]; discriminate.
Qed.

Lemma exception_names_the_line_read_witness :
  exists before raw after st,
    getlines "010" (unlines ["// model"; "Min"; "Bounds:"; "x free"; "y ? 3"; "z free"])
      = (before ++ raw :: after)%list
    /\ parseLines (initial {| any_type := MINIMIZE; any_lineNumber := 0 |}) before = OK st
    /\ parseLine st raw = Throw (InvalidBoundFormat 5)
    /\ Z.of_nat (List.length before) + 1 = 5.
Proof.
  destruct (exception_names_the_line_read {| any_type := MINIMIZE; any_lineNumber := 0 |}
              (unlines ["// model"; "Min"; "Bounds:"; "x free"; "y ? 3"; "z free"])
              (InvalidBoundFormat 5) eq_refl)
    as (before & raw & after & st & H1 & H2 & H3 & _ & H5 & _).
  exists before, raw, after, st. repeat split; try assumption.
  symmetry. apply H5. reflexivity.
Defined.


(** ** The constraints of a model *)

Lemma parseConstraint_fields lineStr line c :
  parseConstraint lineStr line = OK c ->
  lineNumber c = line /\ op c = "=" /\ terms c <> []
  /\ Forall (fun t => identifier (variable t) = true) (terms c).
Proof.
  intros H. pose proof (parseConstraint_operator _ _ _ H) as Ho. revert H.
  unfold parseConstraint.
  destruct (regex_match constraintPattern lineStr) as [m |]; [| discriminate].
  pose proof (parseExpression_cases (m 1%nat) line) as He.
  destruct (parseExpression (m 1%nat) line) as [ts |]; [| discriminate].
  rewrite bind_ret_l. intros H. apply bind_OK in H as (v & _ & [= <-]).
  cbn [lineNumber terms]. destruct He. auto.
Qed.

Lemma lookup_more (lines : list string) (raw : string) i x :
  lines !! i = Some x -> (lines ++ [raw])%list !! i = Some x.
Proof. intros H. apply lookup_app_l_Some, H. Qed.

Lemma read_at_more lines raw c : read_at lines c -> read_at (lines ++ [raw])%list c.
Proof.
  intros (Hn & x & Hx & Hc). split; [exact Hn |]. exists x.
  split; [apply lookup_more, Hx | exact Hc].
Qed.

Lemma well_read_more lines raw c : well_read lines c -> well_read (lines ++ [raw])%list c.
Proof.
  intros (H1 & H2 & H3 & H4). refine (conj H1 (conj H2 (conj H3 _))).
  apply read_at_more, H4.
Qed.

Lemma objective_at_more lines raw o :
  objective_at lines o -> objective_at (lines ++ [raw])%list o.
Proof.
  intros (Hn & x & Hx & Ho). split; [exact Hn |]. exists x.
  split; [apply lookup_more, Hx | exact Ho].
Qed.

Lemma lookup_last_line (lines : list string) (raw : string) :
  (lines ++ [raw])%list !! Z.to_nat (Z.of_nat (List.length lines) + 1 - 1) = Some raw.
Proof.
  replace (Z.to_nat (Z.of_nat (List.length lines) + 1 - 1)) with (List.length lines) by lia.
  rewrite lookup_app_r by lia. rewrite Nat.sub_diag. reflexivity.
Qed.

Lemma line_number_bound lines c : read_at lines c -> lineNumber c <= Z.of_nat (List.length lines).
Proof.
  intros (Hn & x & Hx & _). apply lookup_lt_Some in Hx. lia.
Qed.

Lemma in_line_order_snoc lines cs c :
  Forall (well_read lines) cs -> Z.of_nat (List.length lines) < lineNumber c ->
  in_line_order cs -> in_line_order (cs ++ [c]).
Proof.
  intros Hcs Hc Ho i j ci cj Hi Hj Hij.
  destruct (decide (j < List.length cs)%nat) as [Hlt | Hge].
  - rewrite lookup_app_l in Hi by lia. rewrite lookup_app_l in Hj by exact Hlt.
    eapply Ho; eassumption.
  - pose proof (lookup_lt_Some _ _ _ Hj) as Hb. rewrite length_app in Hb. cbn in Hb.
    rewrite lookup_app_l in Hi by lia.
    replace j with (List.length cs) in Hj by lia.
    rewrite lookup_app_r, Nat.sub_diag in Hj by lia. injection Hj as <-.
    apply (Forall_lookup_1 _ _ _ _ Hcs) in Hi. destruct Hi as (_ & _ & _ & Hi).
    apply line_number_bound in Hi. lia.
Qed.

Lemma objective_read_more lines raw st st' :
  objective_read lines st ->
  objectiveParsed st' = true ->
  objective (model st') = objective (model st) ->
  constraints (model st') = constraints (model st) ->
  objective_read (lines ++ [raw])%list st'.
Proof.
  unfold objective_read. intros (_ & H1 & H2 & H3) Ho -> ->.
  refine (conj Ho (conj H1 (conj _ H3))). apply objective_at_more, H2.
Qed.

Lemma parseLine_constraints_invariant lines st raw st' :
  constraints_invariant lines st -> parseLine st raw = OK st' ->
  constraints_invariant (lines ++ [raw])%list st'.
Proof.
  unfold constraints_invariant. intros (Hn & Hcs & Hord & Hobj) H.
  assert (Hn' : lineNo st' = Z.of_nat (List.length (lines ++ [raw])%list)).
  { rewrite (parseLine_lineNo _ _ _ H), Hn, length_app. cbn. lia. }
  assert (Hcs' : Forall (well_read (lines ++ [raw])%list) (constraints (model st))).
  { eapply Forall_impl; [exact Hcs |]. intros c. apply well_read_more. }
  revert H. parseLine_cases st raw; cbn zeta.
  - intros [= <-]. cbn. refine (conj _ (conj Hcs' (conj Hord _))).
    + rewrite Hn, length_app. cbn. lia.
    + intros H. eapply objective_read_more; [apply Hobj, H | apply Hobj, H | |];
        reflexivity.
  - destruct (objectiveParsed st) eqn:Ho; [discriminate |]. intros [= <-].
    cbn. refine (conj _ (conj Hcs' (conj Hord _))).
    + rewrite Hn, length_app. cbn. lia.
    + intros H. destruct (Hobj H) as (Hf & _). congruence.
  - intros [= <-]. cbn. refine (conj _ (conj Hcs' (conj Hord _))).
    + rewrite Hn, length_app. cbn. lia.
    + intros [H | H].
      * exfalso. revert H. destruct (trim raw =? "Bounds:")%string; [discriminate |].
        destruct (trim raw =? "Integer:")%string; discriminate.
      * eapply objective_read_more; [apply Hobj; right; exact H | exact Hobj0 | |];
          reflexivity.
  - destruct (current st) eqn:Hcur; cbn; intros H.
    + discriminate.
    + apply bind_OK in H as (c & Hc & [= <-]).
      pose proof (parseConstraint_fields _ _ _ Hc) as (Hl & Hop & Hts & Hid).
      destruct (Hobj (or_introl eq_refl)) as (_ & O1 & O2 & O3).
      pose proof O2 as O2'. destruct O2' as (On & x & Hx & _).
      apply lookup_lt_Some in Hx.
      cbn. refine (conj _ (conj _ (conj _ _))).
      * rewrite Hn, length_app. cbn. lia.
      * apply Forall_app. split; [exact Hcs' |].
        constructor; [| constructor].
        refine (conj Hop (conj Hts (conj Hid _))). split; [lia |]. exists raw.
        rewrite Hl, Hn. split; [apply lookup_last_line |].
        rewrite <- Hn. exact Hc.
      * eapply in_line_order_snoc; [exact Hcs | lia | exact Hord].
      * intros _. unfold objective_read. cbn.
        refine (conj Hobj0 (conj O1 (conj (objective_at_more _ _ _ O2) _))).
        apply Forall_app. split; [exact O3 |]. constructor; [lia | constructor].
    + apply bind_OK in H as (m' & Hb & [= <-]).
      destruct (boundLine_fields _ _ _ _ Hb) as (_ & E1 & E2).
      cbn. rewrite E2. refine (conj _ (conj Hcs' (conj Hord _))).
      * rewrite Hn, length_app. cbn. lia.
      * rewrite Hcur. intros [H | H]; [discriminate |].
        eapply objective_read_more; [apply Hobj; right; exact H | exact Hobj0 | |];
          cbn; auto.
    + injection H as <-.
      destruct (declarations_fields INTEGERS (trim raw) (model st)) as (_ & E1 & E2).
      cbn. rewrite E2. refine (conj _ (conj Hcs' (conj Hord _))).
      * rewrite Hn, length_app. cbn. lia.
      * rewrite Hcur. intros [H | H]; [discriminate |].
        eapply objective_read_more; [apply Hobj; right; exact H | exact Hobj0 | |];
          cbn; auto.
    + injection H as <-.
      destruct (declarations_fields BINARIES (trim raw) (model st)) as (_ & E1 & E2).
      cbn. rewrite E2. refine (conj _ (conj Hcs' (conj Hord _))).
      * rewrite Hn, length_app. cbn. lia.
      * rewrite Hcur. intros [H | H]; [discriminate |].
        eapply objective_read_more; [apply Hobj; right; exact H | exact Hobj0 | |];
          cbn; auto.
  - pose proof (parseExpression_cases (trim raw) (lineNo st + 1)) as He.
    destruct (parseExpression (trim raw) (lineNo st + 1)) as [ts |] eqn:Hts;
      [| discriminate].
    rewrite bind_ret_l. intros [= <-]. destruct He as [He1 He2].
    assert (Hnil : constraints (model st) = []).
    { destruct (constraints (model st)) eqn:E; [reflexivity |].
      destruct Hobj as (Hf & _); [right; discriminate | congruence]. }
    cbn. rewrite Hnil. refine (conj _ (conj _ (conj _ _))).
    + rewrite Hn, length_app. cbn. lia.
    + constructor.
    + intros i j ci cj Hi. rewrite lookup_nil in Hi. discriminate.
    + intros _. unfold objective_read, objective_at. cbn. rewrite Hnil.
      refine (conj eq_refl (conj He1 (conj _ _))); [| constructor].
      split; [lia |]. exists raw. rewrite Hn.
      split; [apply lookup_last_line |]. rewrite <- Hn. exact Hts.
Qed.

Lemma parseLines_constraints_invariant lines : forall done st st',
  constraints_invariant done st -> parseLines st lines = OK st' ->
  constraints_invariant (done ++ lines)%list st'.
Proof.
  induction lines as [| raw rest IH]; intros done st st' Hinv; cbn [parseLines].
  - intros [= <-]. rewrite app_nil_r. exact Hinv.
  - intros H. apply bind_OK in H as (st1 & H1 & H2).
    replace (done ++ raw :: rest)%list with ((done ++ [raw]) ++ rest)%list
      by (rewrite <- app_assoc; reflexivity).
    eapply IH; [| exact H2]. eapply parseLine_constraints_invariant; eassumption.
Qed.

Lemma initial_constraints_invariant u : constraints_invariant [] (initial u).
Proof.
  unfold constraints_invariant. cbn.
  refine (conj _ (conj _ (conj _ _))); [reflexivity | constructor | |].
  - intros i j ci cj Hi. rewrite lookup_nil in Hi. discriminate.
  - intros [H | H]; [discriminate | contradiction].
Qed.

Lemma parseStream_constraints u text m :
  parseStream u text = OK m ->
  exists st, parseLines (initial u) (getlines "010" text) = OK st /\ m = model st
             /\ constraints_invariant (getlines "010" text) st.
Proof.
  unfold parseStream. intros H. apply bind_OK in H as (st & H & [= <-]).
  exists st. refine (conj H (conj eq_refl _)).
  apply (parseLines_constraints_invariant _ [] _ _ (initial_constraints_invariant u) H).
Qed.

(** X10.  In a model that [parseFile] returns, every constraint is what
    [parseConstraint] returned for one line of the file, and its
    [lineNumber] is the 1-based number of that line; it has the operator
    [=], at least one term and identifiers for variables.  The constraints
    are in the order of their lines.  When there is a constraint, the
    objective has at least one term, its terms are what [parseExpression]
    returned for the line whose number is [objective.lineNumber], and that
    line comes before the line of every constraint. *)
Theorem constraints_of_a_model (u : Indeterminate) (text : string) (m : LPModel) :
  parseStream u text = OK m ->
  Forall (well_read (getlines "010" text)) (constraints m)
  /\ in_line_order (constraints m)
  /\ (constraints m <> [] ->
      terms (objective m) <> []
      /\ objective_at (getlines "010" text) (objective m)
      /\ Forall (fun c => lineNumber (objective m) < lineNumber c) (constraints m)).
Proof.
  intros H. apply parseStream_constraints in H as (st & Hp & -> & Hn & Hcs & Hord & Hobj).
  refine (conj Hcs (conj Hord _)).
  intros H. destruct (Hobj (or_intror H)) as (_ & H1 & H2 & H3). auto.
Qed.

Lemma constraints_of_a_model_witness :
  exists m,
    parseStream {| any_type := MINIMIZE; any_lineNumber := 0 |}
      (unlines ["3x + 2y"; ""; "x + y <= 10"; "x - y >= 1"]) = OK m
    /\ Forall (well_read ["3x + 2y"; ""; "x + y <= 10"; "x - y >= 1"]) (constraints m)
    /\ lineNumber <$> constraints m = [3; 4].
Proof.
  eexists. split; [vm_compute; reflexivity |]. split; [| reflexivity].
  exact (proj1 (constraints_of_a_model {| any_type := MINIMIZE; any_lineNumber := 0 |}
                  (unlines ["3x + 2y"; ""; "x + y <= 10"; "x - y >= 1"]) _ eq_refl)).
Defined.

(** ** Bounds entries are never removed *)

Lemma keeps_refl b : keeps b b.
Proof. split; auto. Qed.

Lemma keeps_trans b1 b2 b3 : keeps b1 b2 -> keeps b2 b3 -> keeps b1 b3.
Proof. intros [H1 H2] [H3 H4]. split; auto. Qed.

Lemma grows_refl bs : grows bs bs.
Proof. intros v b H. exists b. split; [exact H | apply keeps_refl]. Qed.

Lemma grows_trans bs1 bs2 bs3 : grows bs1 bs2 -> grows bs2 bs3 -> grows bs1 bs3.
Proof.
  intros H1 H2 v b Hv. destruct (H1 v b Hv) as (b2 & Hv2 & K1).
  destruct (H2 v b2 Hv2) as (b3 & Hv3 & K2). exists b3.
  split; [exact Hv3 | eapply keeps_trans; eassumption].
Qed.

Lemma subscript_grows var f bs :
  (forall b, keeps b (f b)) -> grows bs (subscript var f bs).
Proof.
  intros Hf v b Hv. destruct (decide (var = v)) as [-> | Hne].
  - rewrite subscript_eq, Hv. cbn. eauto.
  - rewrite (subscript_ne _ _ _ _ Hne). exists b. split; [exact Hv | apply keeps_refl].
Qed.

Lemma narrow_keeps o val b : keeps b (narrow o val b).
Proof.
  unfold narrow. destruct (o =? ">=")%string; [split; auto |].
  destruct (o =? "<=")%string; [split; auto |].
  destruct (o =? "=")%string; split; auto.
Qed.

Lemma declared_keeps cur b : keeps b (declared cur b).
Proof. destruct cur; split; cbn; auto; discriminate. Qed.

Lemma boundLine_grows line n m m' :
  boundLine line n m = OK m' -> grows (bounds m) (bounds m').
Proof.
  unfold boundLine. destruct (find "free" line).
  - intros [= <-]. cbn. apply subscript_grows. intros b. split; auto.
  - destruct (regex_match boundPattern line); [| discriminate].
    intros H. apply bind_OK in H as (val & _ & [= <-]). cbn.
    apply subscript_grows. intros b. apply narrow_keeps.
Qed.

Lemma declarations_grows cur line m :
  grows (bounds m) (bounds (declarations cur line m)).
Proof.
  unfold declarations. generalize (split line ","). intros vars. revert m.
  induction vars as [| var vars IH]; intros m; cbn [foldl]; [apply grows_refl |].
  eapply grows_trans; [| apply IH]. cbn. apply subscript_grows.
  intros b. apply declared_keeps.
Qed.

Lemma parseLine_grows st raw st' :
  parseLine st raw = OK st' -> grows (bounds (model st)) (bounds (model st')).
Proof.
  parseLine_cases st raw; cbn zeta.
  - intros [= <-]. apply grows_refl.
  - destruct (objectiveParsed st); [discriminate |]. intros [= <-]. apply grows_refl.
  - intros [= <-]. apply grows_refl.
  - destruct (current st); cbn; intros H.
    + discriminate.
    + apply bind_OK in H as (c & _ & [= <-]). apply grows_refl.
    + apply bind_OK in H as (m' & Hb & [= <-]). cbn. eapply boundLine_grows, Hb.
    + injection H as <-. cbn. apply declarations_grows.
    + injection H as <-. cbn. apply declarations_grows.
  - intros H. apply bind_OK in H as (ts & _ & [= <-]). apply grows_refl.
Qed.

Lemma parseLines_grows lines : forall st st',
  parseLines st lines = OK st' -> grows (bounds (model st)) (bounds (model st')).
Proof.
  induction lines as [| raw rest IH]; intros st st'; cbn [parseLines].
  - intros [= <-]. apply grows_refl.
  - intros H. apply bind_OK in H as (st1 & H1 & H2).
    eapply grows_trans; [eapply parseLine_grows, H1 | eapply IH, H2].
Qed.

(** X11.  Reading further lines never takes back what the bounds hold: a
    variable that has an entry after the lines [before] still has one after
    [before ++ after], an entry marked free stays marked free, and an entry
    declared integer or binary is never continuous again. *)
Theorem bounds_only_grow (u : Indeterminate) (before after : list string) (st' : Locals) :
  parseLines (initial u) (before ++ after) = OK st' ->
  exists st,
    parseLines (initial u) before = OK st
    /\ grows (bounds (model st)) (bounds (model st')).
Proof.
  rewrite parseLines_app. intros H. apply bind_OK in H as (st & H1 & H2).
  exists st. split; [exact H1 | eapply parseLines_grows, H2].
Qed.

Lemma bounds_only_grow_witness :
  exists st st',
    parseLines (initial {| any_type := MINIMIZE; any_lineNumber := 0 |})
      ["Max"; "Binary:"; "x"; "Bounds:"; "x free"] = OK st
    /\ bounds (model st) !! "x"
       = Some {| lower := dZ 0; upper := dZ 1; isFree := true; kind := BINARY |}
    /\ grows (bounds (model st)) (bounds (model st')).
Proof.
  destruct (bounds_only_grow {| any_type := MINIMIZE; any_lineNumber := 0 |}
              ["Max"; "Binary:"; "x"; "Bounds:"; "x free"]
              ["x <= 7"; "Integer:"; "x, y"] _ eq_refl) as (st & H1 & H2).
  exists st. eexists. split; [exact H1 |]. split; [| exact H2].
  vm_compute in H1. injection H1 as <-. reflexivity.
Defined.


(** ** Loading a model *)

Lemma varNameToCol_Some bs v j :
  varNameToCol bs !! v = Some j ->
  exists i b, map_to_list bs !! i = Some (v, b) /\ j = Z.of_nat i + 1.
Proof.
  unfold varNameToCol. intros H. apply elem_of_list_to_map_2 in H.
  apply elem_of_lookup_zip_with in H as (i & x & y & [= -> ->] & Hk & Hs).
  apply lookup_seqZ in Hs as [-> _].
  apply list_lookup_fmap_Some in Hk as ([v' b] & -> & Hk).
  exists i, b. split; [exact Hk | lia].
Qed.

Lemma varNameToCol_is_Some bs v :
  is_Some (varNameToCol bs !! v) <-> is_Some (bs !! v).
Proof.
  rewrite <- !not_eq_None_Some. unfold varNameToCol.
  rewrite <- not_elem_of_list_to_map.
  rewrite fst_zip by (rewrite length_fmap, length_seqZ, length_map_to_list; lia).
  split.
  - intros H E. apply H. intros Hin.
    apply list_elem_of_fmap in Hin as ([v' b] & -> & Hin).
    apply elem_of_map_to_list in Hin. cbn in E. congruence.
  - intros H Hnot. destruct (bs !! v) as [b |] eqn:E; [| congruence].
    apply Hnot. apply list_elem_of_fmap. exists (v, b).
    split; [reflexivity | apply elem_of_map_to_list, E].
Qed.

Lemma at_bind_OK {B : Type} columns v (k : Z -> B) y :
  (idx ← at_ columns v; OK (k idx)) = OK y <->
  exists j, columns !! v = Some j /\ y = k j.
Proof.
  unfold at_. destruct (columns !! v) as [j |]; cbn.
  - split; [intros [= <-]; eauto | intros (j' & [= <-] & ->); reflexivity].
  - split; [discriminate | intros (j' & [=] & _)].
Qed.

Lemma at_bind_Throw {B : Type} columns v (k : Z -> B) e :
  (idx ← at_ columns v; OK (k idx)) = Throw e ->
  e = AtOutOfRange /\ columns !! v = None.
Proof.
  unfold at_. destruct (columns !! v) as [j |]; cbn; [discriminate |].
  intros [= <-]. auto.
Qed.

Lemma mapM_total {A B : Type} (f : A -> result B) l :
  Forall (fun x => exists y, f x = OK y) l -> exists ys, mapM f l = OK ys.
Proof.
  induction 1 as [| x l (y & Hy) _ (ys & Hys)]; cbn [mapM]; [eauto |].
  rewrite Hy, bind_ret_l, Hys. eauto.
Qed.

Lemma row_bnds_OK c : isOperator (op c) = true <-> exists r, row_bnds c = OK r.
Proof.
  unfold isOperator, row_bnds.
  destruct (op c =? "<=")%string; [split; eauto |].
  destruct (op c =? ">=")%string; [split; eauto |].
  destruct (op c =? "=")%string; [split; eauto |].
  split; [discriminate | intros (r & [=])].
Qed.

Lemma row_bnds_Throw c e :
  row_bnds c = Throw e ->
  isOperator (op c) = false /\ e = UnknownConstraintOperator (op c).
Proof.
  unfold isOperator, row_bnds.
  destruct (op c =? "<=")%string; [discriminate |].
  destruct (op c =? ">=")%string; [discriminate |].
  destruct (op c =? "=")%string; [discriminate |].
  intros [= <-]. auto.
Qed.

Lemma terms_columns_OK {B : Type} m (k : Term -> Z -> B) ts ys :
  mapM (fun term => j ← at_ (varNameToCol (bounds m)) (variable term); OK (k term j)) ts
  = OK ys ->
  Forall (has_column m) ts.
Proof.
  intros H. apply mapM_OK in H. induction H as [| t y ts ys Ht _ IH]; constructor; [| exact IH].
  apply (at_bind_OK _ _ (k t)) in Ht as (j & Hj & _).
  apply varNameToCol_is_Some. eauto.
Qed.

Lemma terms_columns_total {B : Type} m (k : Term -> Z -> B) ts :
  Forall (has_column m) ts ->
  exists ys,
    mapM (fun term => j ← at_ (varNameToCol (bounds m)) (variable term); OK (k term j)) ts
    = OK ys.
Proof.
  intros H. apply mapM_total. eapply Forall_impl; [exact H |].
  intros t Ht. apply varNameToCol_is_Some in Ht as [j Hj].
  exists (k t j). apply (at_bind_OK _ _ (k t)). eauto.
Qed.

Lemma loadModel_OK_loadable m p : loadModel m = OK p -> loadable m.
Proof.
  unfold loadModel. cbn zeta. intros H.
  apply bind_OK in H as (obj & Hobj & H). apply bind_OK in H as (rws & Hrws & H).
  apply bind_OK in H as (mat & Hmat & _).
  split.
  - exact (terms_columns_OK m (fun term idx => (idx, coefficient term)) _ _ Hobj).
  - apply mapM_OK in Hrws. apply mapM_OK in Hmat.
    apply Forall_lookup_2. intros i c Hc. split.
    + destruct (Forall2_lookup_l _ _ _ _ _ Hrws Hc) as (r & _ & Hr).
      apply row_bnds_OK. eauto.
    + assert (Hi : imap (fun i con => (i, con)) (constraints m) !! i = Some (i, c)).
      { apply list_lookup_imap_Some. eauto. }
      destruct (Forall2_lookup_l _ _ _ _ _ Hmat Hi) as (r & _ & Hr).
      exact (terms_columns_OK m (fun term j => (Z.of_nat i + 1, j, coefficient term))
               _ _ Hr).
Qed.

Lemma loadable_loadModel_OK m : loadable m -> exists p, loadModel m = OK p.
Proof.
  intros [Ho Hc]. unfold loadModel. cbn zeta.
  destruct (terms_columns_total m (fun term idx => (idx, coefficient term)) _ Ho)
    as (obj & ->).
  rewrite bind_ret_l.
  destruct (mapM_total row_bnds (constraints m)) as (rws & ->).
  { eapply Forall_impl; [exact Hc |]. intros c [Hop _]. apply row_bnds_OK, Hop. }
  rewrite bind_ret_l.
  match goal with |- context [mapM ?f ?l] =>
    destruct (mapM_total f l) as (mat & ->) end.
  { apply Forall_forall. intros [i c] Hin.
    apply elem_of_lookup_imap in Hin as (i' & c' & [= -> ->] & Hl).
    apply (Forall_lookup_1 _ _ _ _ Hc) in Hl as [_ Hl].
    exact (terms_columns_total m (fun term j => (Z.of_nat i' + 1, j, coefficient term))
             _ Hl). }
  rewrite bind_ret_l. eauto.
Qed.

Lemma loadModel_Throw m e :
  loadModel m = Throw e ->
  e = AtOutOfRange
  \/ exists c, c ∈ constraints m /\ isOperator (op c) = false
               /\ e = UnknownConstraintOperator (op c).
Proof.
  unfold loadModel. cbn zeta.
  match goal with |- context [mapM ?f (terms (objective m))] =>
    destruct (mapM f (terms (objective m))) as [obj | e1] eqn:Hobj end.
  - rewrite bind_ret_l.
    destruct (mapM row_bnds (constraints m)) as [rws | e2] eqn:Hrws.
    + rewrite bind_ret_l.
      match goal with |- context [mapM ?f ?l ≫= _] =>
        destruct (mapM f l) as [mat | e3] eqn:Hmat end; [discriminate |].
      intros [= <-]. left.
      apply mapM_Throw in Hmat as ([i c] & _ & Hmat).
      apply mapM_Throw in Hmat as (t & _ & Hmat).
      apply (at_bind_Throw _ _ (fun j => (Z.of_nat i + 1, j, coefficient t))) in Hmat.
      apply Hmat.
    + intros [= <-]. right. apply mapM_Throw in Hrws as (c & Hin & Hc).
      apply row_bnds_Throw in Hc as [Hk ->]. eauto.
  - intros [= <-]. left. apply mapM_Throw in Hobj as (t & _ & Ht).
    apply (at_bind_Throw _ _ (fun idx => (idx, coefficient t))) in Ht. apply Ht.
Qed.

Lemma loadModel_Throw_cases m e :
  loadModel m = Throw e ->
  (e = AtOutOfRange
   /\ exists t, bounds m !! variable t = None
                /\ (t ∈ terms (objective m)
                    \/ exists c, c ∈ constraints m /\ t ∈ terms c))
  \/ (exists c, c ∈ constraints m /\ isOperator (op c) = false
                /\ e = UnknownConstraintOperator (op c)
                /\ Forall (has_column m) (terms (objective m))).
Proof.
  unfold loadModel. cbn zeta.
  match goal with |- context [mapM ?f (terms (objective m))] =>
    destruct (mapM f (terms (objective m))) as [obj | e1] eqn:Hobj end.
  - rewrite bind_ret_l.
    pose proof (terms_columns_OK m (fun term idx => (idx, coefficient term)) _ _ Hobj)
      as Ho.
    destruct (mapM row_bnds (constraints m)) as [rws | e2] eqn:Hrws.
    + rewrite bind_ret_l.
      match goal with |- context [mapM ?f ?l ≫= _] =>
        destruct (mapM f l) as [mat | e3] eqn:Hmat end; [discriminate |].
      intros [= <-]. left.
      apply mapM_Throw in Hmat as ([i c] & Hin & Hmat).
      apply elem_of_lookup_imap in Hin as (i' & c' & [= -> ->] & Hc).
      apply mapM_Throw in Hmat as (t & Ht & Hmat).
      apply (at_bind_Throw _ _ (fun j => (Z.of_nat i' + 1, j, coefficient t))) in Hmat
        as [-> Hnone].
      split; [reflexivity |]. exists t. split.
      * apply eq_None_not_Some. intros Hs. apply varNameToCol_is_Some in Hs.
        rewrite Hnone in Hs. destruct Hs as [? Hs]. discriminate Hs.
      * right. exists c'. split; [eapply list_elem_of_lookup_2, Hc | exact Ht].
    + intros [= <-]. right. apply mapM_Throw in Hrws as (c & Hin & Hc).
      apply row_bnds_Throw in Hc as [Hk ->]. eauto.
  - intros [= <-]. left. apply mapM_Throw in Hobj as (t & Hin & Ht).
    apply (at_bind_Throw _ _ (fun idx => (idx, coefficient t))) in Ht as [-> Hnone].
    split; [reflexivity |]. exists t. split; [| left; exact Hin].
    apply eq_None_not_Some. intros Hs. apply varNameToCol_is_Some in Hs.
    rewrite Hnone in Hs. destruct Hs as [? Hs]. discriminate Hs.
Qed.

(** X12.  What [loadModel] asks of a model.  It comes to its end only for a
    model in which the variable of every term of the objective and of the
    constraints has an entry in [bounds] and every constraint has one of
    the operators [<=], [>=] and [=], the ones that [isOperator] accepts.
    It throws only for a model that is not so: [out_of_range] comes from
    [varNameToCol.at] on a term of the objective or of a constraint whose
    variable has no entry in [bounds], and "Unknown constraint operator: "
    carries the operator of a constraint that [isOperator] refuses and is
    thrown only when every variable of the objective has an entry. *)
Theorem loadModel_outcomes (m : LPModel) :
  match loadModel m with
  | OK p => loadable m
  | Throw e =>
      ~ loadable m
      /\ ((e = AtOutOfRange
           /\ exists t, bounds m !! variable t = None
                        /\ (t ∈ terms (objective m)
                            \/ exists c, c ∈ constraints m /\ t ∈ terms c))
          \/ (exists c, c ∈ constraints m /\ isOperator (op c) = false
                        /\ e = UnknownConstraintOperator (op c)
                        /\ Forall (has_column m) (terms (objective m))))
  end.
Proof.
  destruct (loadModel m) as [p | e] eqn:H.
  - eapply loadModel_OK_loadable, H.
  - split; [| apply loadModel_Throw_cases, H].
    intros Hl. apply loadable_loadModel_OK in Hl as [p Hp]. congruence.
Qed.


Lemma elem_of_concat {A : Type} (x : A) (ls : list (list A)) :
  x ∈ List.concat ls <-> exists l, x ∈ l /\ l ∈ ls.
Proof.
  induction ls as [| l ls IH]; cbn [List.concat].
  - split; [intros H; apply not_elem_of_nil in H; contradiction |].
    intros (l & _ & H). apply not_elem_of_nil in H. contradiction.
  - rewrite elem_of_app, IH. split.
    + intros [H | (l' & H1 & H2)]; [exists l | exists l'];
        (split; [assumption |]); [apply list_elem_of_here | apply list_elem_of_further, H2].
    + intros (l' & H1 & H2). apply elem_of_cons in H2 as [-> | H2]; [left | right]; eauto.
Qed.

Lemma column_of_lookup m p t j :
  cols p = (fun '(name, bound) => (name, col_bnds bound, col_kind bound))
             <$> map_to_list (bounds m) ->
  varNameToCol (bounds m) !! variable t = Some j ->
  column_of m p t j.
Proof.
  intros Hcols Hj. apply varNameToCol_Some in Hj as (i & b & Hi & ->).
  pose proof (lookup_lt_Some _ _ _ Hi) as Hlt. rewrite length_map_to_list in Hlt.
  split; [lia |]. exists b. split.
  - apply elem_of_map_to_list. eapply list_elem_of_lookup_2, Hi.
  - rewrite Hcols, list_lookup_fmap.
    replace (Z.to_nat (Z.of_nat i + 1 - 1)) with i by lia. rewrite Hi. reflexivity.
Qed.

Lemma loadModel_fields m p :
  loadModel m = OK p ->
  cols p = (fun '(name, bound) => (name, col_bnds bound, col_kind bound))
             <$> map_to_list (bounds m)
  /\ Forall2 (fun t e => varNameToCol (bounds m) !! variable t = Some e.1
                         /\ e.2 = coefficient t)
             (terms (objective m)) (obj_coef p)
  /\ Forall2 (fun c r => row_bnds c = OK r) (constraints m) (rows p)
  /\ exists mat,
       matrix p = List.concat mat
       /\ Forall2 (fun ic es =>
                     Forall2 (fun t e => e.1.1 = Z.of_nat ic.1 + 1
                                         /\ varNameToCol (bounds m) !! variable t = Some e.1.2
                                         /\ e.2 = coefficient t)
                             (terms ic.2) es)
                  (imap (fun i con => (i, con)) (constraints m)) mat.
Proof.
  unfold loadModel. cbn zeta. intros H.
  apply bind_OK in H as (obj & Hobj & H). apply bind_OK in H as (rws & Hrws & H).
  apply bind_OK in H as (mat & Hmat & [= <-]). cbn.
  split; [reflexivity |]. split; [| split; [apply mapM_OK, Hrws |]].
  - apply mapM_OK in Hobj. eapply Forall2_impl; [exact Hobj |].
    intros t e He. apply (at_bind_OK _ _ (fun idx => (idx, coefficient t))) in He
      as (j & Hj & ->). auto.
  - exists mat. split; [reflexivity |]. apply mapM_OK in Hmat.
    eapply Forall2_impl; [exact Hmat |]. intros [i c] es Hes. apply mapM_OK in Hes.
    eapply Forall2_impl; [exact Hes |]. intros t e He.
    apply (at_bind_OK _ _ (fun j => (Z.of_nat i + 1, j, coefficient t))) in He
      as (j & Hj & ->). auto.
Qed.

Lemma Forall2_eq_fmap {A B : Type} (g : A -> B) l ys :
  Forall2 (fun x y => y = g x) l ys -> ys = g <$> l.
Proof. induction 1 as [| x y l ys -> _ IH]; [reflexivity |]. cbn. rewrite IH. reflexivity. Qed.

Lemma column_of_at m p t :
  cols p = (fun '(name, bound) => (name, col_bnds bound, col_kind bound))
             <$> map_to_list (bounds m) ->
  has_column m t ->
  column_of m p t (default 0 (varNameToCol (bounds m) !! variable t)).
Proof.
  intros Hcols Ht. apply varNameToCol_is_Some in Ht as [j Hj]. rewrite Hj.
  apply column_of_lookup; assumption.
Qed.

(** X13.  In the problem that [loadModel] builds there is one column for
    every entry of [bounds], the columns have different names, and there is
    one row for every constraint.  The objective coefficients are those of
    the terms of the objective, in their order, and the entries of the
    constraint matrix are those of the terms of the constraints, constraint
    after constraint and term after term, each in the row of the 1-based
    position of its constraint; the column index of each is the one of the
    term's variable: between 1 and the number of columns, with the name, the
    bounds and the kind of that variable at that index. *)
Theorem loadModel_indices (m : LPModel) (p : glp_prob) :
  loadModel m = OK p ->
  List.length (cols p) = size (bounds m)
  /\ NoDup ((fun c => c.1.1) <$> cols p)
  /\ List.length (rows p) = List.length (constraints m)
  /\ exists col : string -> Z,
       Forall (fun t => column_of m p t (col (variable t))) (terms (objective m))
       /\ Forall (fun c => Forall (fun t => column_of m p t (col (variable t))) (terms c))
                 (constraints m)
       /\ obj_coef p = (fun t => (col (variable t), coefficient t))
                         <$> terms (objective m)
       /\ matrix p =
            List.concat
              (imap (fun i c => (fun t => (Z.of_nat i + 1, col (variable t), coefficient t))
                                  <$> terms c)
                    (constraints m)).
Proof.
  intros H. pose proof (loadModel_OK_loadable _ _ H) as [Lo Lc].
  apply loadModel_fields in H as (Hcols & Hobj & Hrws & mat & Hm & Hmat).
  split; [| split; [| split]].
  - rewrite Hcols, length_fmap. apply length_map_to_list.
  - rewrite Hcols, <- list_fmap_compose.
    rewrite (list_fmap_ext _ fst (map_to_list (bounds m)));
      [apply NoDup_fst_map_to_list |].
    intros k [name b] _. reflexivity.
  - symmetry. eapply Forall2_length, Hrws.
  - exists (fun v => default 0 (varNameToCol (bounds m) !! v)).
    split; [| split; [| split]].
    + eapply Forall_impl; [exact Lo |]. intros t. apply column_of_at, Hcols.
    + eapply Forall_impl; [exact Lc |]. intros c [_ Hc].
      eapply Forall_impl; [exact Hc |]. intros t. apply column_of_at, Hcols.
    + apply Forall2_eq_fmap. eapply Forall2_impl; [exact Hobj |].
      intros t [j a] [Hj Ha]. cbn in Hj, Ha. rewrite Hj, Ha. reflexivity.
    + rewrite Hm. f_equal.
      rewrite (Forall2_eq_fmap
                 (fun ic : nat * LinearExpression =>
                    (fun t => (Z.of_nat ic.1 + 1,
                               default 0 (varNameToCol (bounds m) !! variable t),
                               coefficient t)) <$> terms ic.2)
                 (imap (fun i con => (i, con)) (constraints m)) mat).
      * rewrite fmap_imap. apply imap_ext. intros k c _. reflexivity.
      * eapply Forall2_impl; [exact Hmat |]. intros ic es Hes.
        apply Forall2_eq_fmap. eapply Forall2_impl; [exact Hes |].
        intros t [[i j] a] (Hi & Hj & Ha). cbn in Hi, Hj, Ha.
        rewrite Hi, Hj, Ha. reflexivity.
Qed.

Lemma loadModel_indices_witness :
  let m := {| type := MAXIMIZE;
              objective := {| terms := [ {| coefficient := dZ 3; variable := "x" |};
                                         {| coefficient := dZ 2; variable := "y" |} ];
                              rhs := dZ 0; op := ""; lineNumber := 1 |};
              constraints := [ {| terms := [ {| coefficient := dZ 1; variable := "y" |};
                                             {| coefficient := dZ 1; variable := "x" |} ];
                                  rhs := dZ 4; op := "<="; lineNumber := 2 |} ];
              bounds := <["x" := default_Bound]>
                          (<["y" := set_isFree true default_Bound]> ∅) |} in
  exists p,
    loadModel m = OK p
    /\ List.length (cols p) = 2%nat
    /\ List.length (rows p) = 1%nat
    /\ List.length (matrix p) = 2%nat.
Proof.
  intros m. destruct (loadModel m) as [p | e] eqn:Hp;
    [| vm_compute in Hp; discriminate Hp].
  exists p. split; [reflexivity |].
  destruct (loadModel_indices m p Hp) as (H1 & _ & H2 & col & _ & _ & _ & H3).
  split; [rewrite H1; reflexivity |]. split; [rewrite H2; reflexivity |].
  rewrite H3. reflexivity.
Defined.

Lemma rows_of_equalities cs rs :
  Forall (fun c => op c = "=") cs ->
  Forall2 (fun c r => row_bnds c = OK r) cs rs ->
  rs = (fun c => GLP_FX (rhs c)) <$> cs.
Proof.
  intros Hop H. induction H as [| c r cs rs Hr _ IH]; [reflexivity |].
  apply Forall_cons in Hop as [Hc Hop]. cbn [fmap list_fmap].
  rewrite <- (IH Hop). unfold row_bnds in Hr. rewrite Hc in Hr. cbn in Hr.
  injection Hr as <-. reflexivity.
Qed.

Lemma parsed_operators u text m :
  parseStream u text = OK m -> Forall (fun c => op c = "=") (constraints m).
Proof.
  intros H. apply parseStream_constraints in H as (st & _ & -> & _ & Hcs & _).
  eapply Forall_impl; [exact Hcs |]. intros c Hc. apply Hc.
Qed.

(** X14.  For a model that [parseFile] returned, [loadModel] never throws
    "Unknown constraint operator": the only exception of its own is the
    [out_of_range] of [varNameToCol.at], on a term of the objective or of a
    constraint whose variable has no entry in [bounds].  It comes to its
    end only when the variable of every term of the objective and of the
    constraints has an entry in [bounds], and every row it has set is then
    an equality row ([GLP_FX]) at the right-hand side of its constraint. *)
Theorem parsed_model_loads (u : Indeterminate) (text : string) (m : LPModel) :
  parseStream u text = OK m ->
  match loadModel m with
  | Throw e =>
      e = AtOutOfRange
      /\ exists t, bounds m !! variable t = None
                   /\ (t ∈ terms (objective m)
                       \/ exists c, c ∈ constraints m /\ t ∈ terms c)
  | OK p =>
      Forall (has_column m) (terms (objective m))
      /\ Forall (fun c => Forall (has_column m) (terms c)) (constraints m)
      /\ rows p = (fun c => GLP_FX (rhs c)) <$> constraints m
  end.
Proof.
  intros H. apply parsed_operators in H.
  destruct (loadModel m) as [p | e] eqn:Hl.
  - pose proof (loadModel_OK_loadable _ _ Hl) as [Ho Hc].
    split; [exact Ho |]. split.
    + eapply Forall_impl; [exact Hc |]. intros c Hc'. apply Hc'.
    + apply loadModel_fields in Hl as (_ & _ & Hr & _).
      apply rows_of_equalities; assumption.
  - apply loadModel_Throw_cases in Hl as [Hl | (c & Hin & Hk & _)]; [exact Hl |].
    rewrite Forall_forall in H. rewrite (H c Hin) in Hk. discriminate Hk.
Qed.

Lemma parsed_model_loads_witness :
  exists m p,
    parseStream {| any_type := MINIMIZE; any_lineNumber := 0 |}
      (unlines ["3x + 2y"; "x + y <= 4"; "Bounds:"; "x >= 0"; "y free"]) = OK m
    /\ loadModel m = OK p
    /\ rows p = [GLP_FX (dZ 4)].
Proof.
  destruct (parseStream {| any_type := MINIMIZE; any_lineNumber := 0 |}
              (unlines ["3x + 2y"; "x + y <= 4"; "Bounds:"; "x >= 0"; "y free"]))
    as [m | e] eqn:Hm; [| vm_compute in Hm; discriminate Hm].
  pose proof (parsed_model_loads _ _ _ Hm) as H.
  vm_compute in Hm. injection Hm as <-.
  destruct (loadModel _) as [p | e] eqn:Hp; [| vm_compute in Hp; discriminate Hp].
  eexists. exists p. split; [reflexivity |]. split; [exact Hp |].
  destruct H as (_ & _ & ->). reflexivity.
Defined.


(** ** Direction line and objective *)

Lemma parseLine_direction_invariant u d st raw st' :
  direction_invariant u d st -> parseLine st raw = OK st' ->
  direction_invariant u (d || is_direction (trim raw)) st'.
Proof.
  unfold direction_invariant, nothing_read. intros (H1 & H2 & H3).
  parseLine_cases st raw; cbn zeta.
  - rewrite (skipped_not_direction _ Hskip), orb_false_r. intros [= <-]. cbn. auto.
  - rewrite orb_true_r. destruct (objectiveParsed st) eqn:Ho; [discriminate |].
    intros [= <-]. cbn. destruct (H1 eq_refl) as (_ & Hn).
    refine (conj _ (conj _ _)); [discriminate | auto | discriminate].
  - rewrite orb_false_r. intros [= <-]. cbn.
    assert (Hc : (if (trim raw =? "Bounds:")%string then BOUNDS
                  else if (trim raw =? "Integer:")%string then INTEGERS else BINARIES)
                 <> CONSTRAINTS).
    { destruct (trim raw =? "Bounds:")%string; [discriminate |].
      destruct (trim raw =? "Integer:")%string; discriminate. }
    refine (conj _ (conj _ H3)); [congruence |].
    intros Hd. destruct (H2 Hd) as (? & ? & _). auto.
  - rewrite orb_false_r. destruct (current st) eqn:Hcur; cbn; intros H.
    + discriminate.
    + apply bind_OK in H as (c & _ & [= <-]). cbn.
      refine (conj _ (conj _ H3)); [congruence |].
      intros Hd. destruct (H2 Hd) as (_ & _ & Hc). congruence.
    + apply bind_OK in H as (m' & Hb & [= <-]).
      destruct (boundLine_fields _ _ _ _ Hb) as (E0 & E1 & E2).
      cbn. rewrite E0, E1, E2, Hcur.
      refine (conj _ (conj _ H3)); [congruence |].
      intros Hd. destruct (H2 Hd) as (? & ? & _). repeat split; auto; discriminate.
    + injection H as <-.
      destruct (declarations_fields INTEGERS (trim raw) (model st)) as (E0 & E1 & E2).
      cbn. rewrite E0, E1, E2, Hcur.
      refine (conj _ (conj _ H3)); [congruence |].
      intros Hd. destruct (H2 Hd) as (? & ? & _). repeat split; auto; discriminate.
    + injection H as <-.
      destruct (declarations_fields BINARIES (trim raw) (model st)) as (E0 & E1 & E2).
      cbn. rewrite E0, E1, E2, Hcur.
      refine (conj _ (conj _ H3)); [congruence |].
      intros Hd. destruct (H2 Hd) as (? & ? & _). repeat split; auto; discriminate.
  - rewrite orb_false_r. intros H. apply bind_OK in H as (ts & _ & [= <-]). cbn.
    destruct (H1 eq_refl) as (-> & _).
    refine (conj _ (conj _ H3)); discriminate.
Qed.

Lemma parseLines_direction_invariant u lines : forall d st st',
  direction_invariant u d st -> parseLines st lines = OK st' ->
  direction_invariant u (d || has_direction lines) st'.
Proof.
  induction lines as [| raw rest IH]; intros d st st' Hinv;
    cbn [parseLines has_direction existsb].
  - rewrite orb_false_r. intros [= <-]. exact Hinv.
  - intros H. apply bind_OK in H as (st1 & H1 & H2).
    rewrite orb_assoc. eapply IH; [| exact H2].
    eapply parseLine_direction_invariant; eassumption.
Qed.

Lemma parseStream_direction u text m :
  parseStream u text = OK m ->
  if has_direction (getlines "010" text)
  then terms (objective m) = [] /\ constraints m = []
  else type m = any_type u.
Proof.
  unfold parseStream. intros H. apply bind_OK in H as (st & H & [= <-]).
  assert (Hinit : direction_invariant u false (initial u)).
  { unfold direction_invariant, nothing_read. cbn.
    refine (conj _ (conj _ _)); [| discriminate | reflexivity].
    intros _. repeat split. discriminate. }
  pose proof (parseLines_direction_invariant u _ _ _ _ Hinit H) as (_ & H2 & H3).
  cbn [orb] in H2, H3. destruct (has_direction (getlines "010" text)).
  - destruct (H2 eq_refl) as (? & ? & _). auto.
  - apply H3. reflexivity.
Qed.

(** X15.  A model that [parseFile] returns never has both a direction read
    from the file and an objective: when some line of the file is [Max] or
    [Min], the model has no objective term and no constraint; when none is,
    [type] is what the member held before the call. *)
Theorem direction_or_objective (u : Indeterminate) (text : string) (m : LPModel) :
  parseStream u text = OK m ->
  if has_direction (getlines "010" text)
  then terms (objective m) = [] /\ constraints m = []
  else type m = any_type u.
Proof.
  apply parseStream_direction.
Qed.

Lemma direction_or_objective_witness :
  exists m,
    parseStream {| any_type := MINIMIZE; any_lineNumber := 0 |}
      (unlines ["Max"; "Bounds:"; "x >= 1"; "Integer:"; "x"]) = OK m
    /\ terms (objective m) = [] /\ constraints m = []
    /\ bounds m !! "x"
       = Some {| lower := dZ 1; upper := INFINITY; isFree := false; kind := INTEGER |}.
Proof.
  eexists. split; [vm_compute; reflexivity |].
  pose proof (direction_or_objective {| any_type := MINIMIZE; any_lineNumber := 0 |}
                (unlines ["Max"; "Bounds:"; "x >= 1"; "Integer:"; "x"]) _ eq_refl) as H.
  destruct H as [H1 H2]. split; [exact H1 |]. split; [exact H2 | reflexivity].
Defined.

(** ** Lines that are skipped *)

Lemma parseLines_skipped lines : forall st,
  Forall (fun raw => skipped (trim raw) = true) lines ->
  parseLines st lines = OK (with_lineNo (lineNo st + Z.of_nat (List.length lines)) st).
Proof.
  induction lines as [| raw rest IH]; intros st H; cbn [parseLines].
  - destruct st. unfold with_lineNo. cbn. rewrite Z.add_0_r. reflexivity.
  - apply Forall_cons in H as [Hr H]. rewrite (parseLine_skipped st raw Hr), bind_ret_l.
    rewrite (IH _ H). unfold with_lineNo. cbn [lineNo model current objectiveParsed].
    replace (lineNo st + 1 + Z.of_nat (List.length rest))
      with (lineNo st + Z.of_nat (List.length (raw :: rest)))
      by (cbn [List.length]; lia).
    reflexivity.
Qed.

(** X16.  When the first line of a file that is neither blank nor a comment
    is [Max] or [Min], the next such line is rejected unless it is a section
    header, whatever it holds: [parseFile] throws, with the number of that
    line, "Duplicate optimization type." when the line is [Max] or [Min]
    again and "Unexpected line or misplaced section." otherwise. *)
Theorem line_after_direction_is_rejected (u : Indeterminate) (text : string)
    (pre mid rest : list string) (dir raw : string) :
  getlines "010" text = (pre ++ dir :: mid ++ raw :: rest)%list ->
  Forall (fun l => skipped (trim l) = true) pre ->
  is_direction (trim dir) = true ->
  Forall (fun l => skipped (trim l) = true) mid ->
  skipped (trim raw) = false ->
  is_header (trim raw) = false ->
  parseStream u text
  = Throw (if is_direction (trim raw)
           then DuplicateOptimizationType (Z.of_nat (List.length pre + List.length mid) + 2)
           else UnexpectedLine (Z.of_nat (List.length pre + List.length mid) + 2)).
Proof.
  intros Hl Hpre Hdir Hmid Hs Hh. unfold parseStream. rewrite Hl.
  rewrite parseLines_app, (parseLines_skipped pre _ Hpre), bind_ret_l.
  cbn [parseLines]. rewrite (parseLine_direction _ dir Hdir). cbn [initial objectiveParsed
    with_lineNo]. rewrite bind_ret_l.
  rewrite parseLines_app, (parseLines_skipped mid _ Hmid), bind_ret_l.
  cbn [parseLines]. destruct (is_direction (trim raw)) eqn:Hd.
  - rewrite (parseLine_direction _ raw Hd). cbn. do 2 f_equal. lia.
  - rewrite parseLine_content;
      [| reflexivity | unfold is_content; rewrite Hs, Hd, Hh; reflexivity].
    cbn. do 2 f_equal. lia.
Qed.

Lemma line_after_direction_is_rejected_witness :
  parseStream {| any_type := MINIMIZE; any_lineNumber := 0 |}
    (unlines ["// a model"; "Min"; ""; "3x + 2y"; "x + y <= 10"])
  = Throw (UnexpectedLine 4)
  /\ parseStream {| any_type := MINIMIZE; any_lineNumber := 0 |}
       (unlines ["Max"; "Min"])
     = Throw (DuplicateOptimizationType 2).
Proof.
  split.
  - apply (line_after_direction_is_rejected _
             (unlines ["// a model"; "Min"; ""; "3x + 2y"; "x + y <= 10"])
             ["// a model"] [""] ["x + y <= 10"] "Min" "3x + 2y");
      first [reflexivity | repeat constructor].
  - apply (line_after_direction_is_rejected _ (unlines ["Max"; "Min"])
             [] [] [] "Max" "Min");
      first [reflexivity | constructor].
Defined.

(** X17.  A file without a line other than blank lines and comments, the
    empty file among them, is not rejected: [parseFile] returns the model as
    [LPModel model;] made it, without objective terms, constraints and
    bounds. *)
Theorem file_of_comments (u : Indeterminate) (text : string) :
  Forall (fun l => skipped (trim l) = true) (getlines "010" text) ->
  parseStream u text = OK (default_LPModel u).
Proof.
  intros H. unfold parseStream. rewrite (parseLines_skipped _ _ H). reflexivity.
Qed.

Lemma file_of_comments_witness :
  parseStream {| any_type := MAXIMIZE; any_lineNumber := 7 |}
    (unlines ["// nothing to solve"; "   "; ""; "//Max"])
  = OK (default_LPModel {| any_type := MAXIMIZE; any_lineNumber := 7 |}).
Proof.
  apply (file_of_comments {| any_type := MAXIMIZE; any_lineNumber := 7 |}).
  repeat constructor.
Defined.


(** ** The arguments of main *)

Lemma scanArguments_path v rest o :
  scanArguments ("-f" :: v :: rest) o = scanArguments rest (with_inputFile v o)
  /\ scanArguments ("-o" :: v :: rest) o = scanArguments rest (with_outputFile v o).
Proof. split; reflexivity. Qed.

Lemma scanArguments_flag rest o :
  scanArguments ("--dual" :: rest) o = scanArguments rest (with_useDualSimplex o)
  /\ scanArguments ("--log" :: rest) o = scanArguments rest (with_enableLogging o).
Proof. destruct rest; split; reflexivity. Qed.

Lemma scanArguments_command_line items : forall o,
  scanArguments (command_line items) o = inr (foldl assigned o items).
Proof.
  unfold command_line.
  induction items as [| [v | v | |] items IH]; intros o; cbn [fmap list_fmap List.concat
    written app foldl assigned].
  - reflexivity.
  - rewrite (proj1 (scanArguments_path _ _ _)). apply IH.
  - rewrite (proj2 (scanArguments_path _ _ _)). apply IH.
  - rewrite (proj1 (scanArguments_flag _ _)). apply IH.
  - rewrite (proj2 (scanArguments_flag _ _)). apply IH.
Qed.

Lemma scanArguments_cases a rest o :
  (exists v rest', rest = v :: rest' /\ takes_path a = true
     /\ scanArguments (a :: rest) o
        = scanArguments rest' (assigned o (if (a =? "-f")%string then InputFile v
                                           else OutputFile v))
     /\ [a; v] = written (if (a =? "-f")%string then InputFile v else OutputFile v))
  \/ (is_flag a = true
      /\ scanArguments (a :: rest) o
         = scanArguments rest (assigned o (if (a =? "--dual")%string then Dual else Log))
      /\ [a] = written (if (a =? "--dual")%string then Dual else Log))
  \/ (is_flag a = false /\ (takes_path a = true -> rest = [])
      /\ scanArguments (a :: rest) o = inl (UnknownArgument a)).
Proof.
  unfold takes_path, is_flag.
  destruct (a =? "-f")%string eqn:Ef; [apply String.eqb_eq in Ef; subst a |].
  { destruct rest as [| v rest']; [right; right | left; eauto 10].
    repeat split. }
  destruct (a =? "-o")%string eqn:Eo; [apply String.eqb_eq in Eo; subst a |].
  { destruct rest as [| v rest']; [right; right | left; eauto 10].
    repeat split. }
  destruct (a =? "--dual")%string eqn:Ed; [apply String.eqb_eq in Ed; subst a |].
  { right; left. destruct rest; repeat split. }
  destruct (a =? "--log")%string eqn:El; [apply String.eqb_eq in El; subst a |].
  { right; left. destruct rest; repeat split. }
  right; right. cbn [orb]. split; [reflexivity |]. split; [discriminate |].
  destruct rest; cbn [scanArguments]; rewrite ?Ef, ?Eo, Ed, El; reflexivity.
Qed.

Lemma scanArguments_accepts n : forall args o o',
  (List.length args <= n)%nat ->
  scanArguments args o = inr o' ->
  exists items, args = command_line items /\ o' = foldl assigned o items.
Proof.
  induction n as [| n IH]; intros args o o' Hn.
  - destruct args; [| cbn in Hn; lia]. intros [= <-]. exists []. auto.
  - destruct args as [| a rest]; [intros [= <-]; exists []; auto |].
    cbn [List.length] in Hn.
    destruct (scanArguments_cases a rest o)
      as [(v & rest' & -> & _ & -> & Hw) | [(_ & -> & Hw) | (_ & _ & ->)]].
    + intros H. apply IH in H as (items & -> & ->); [| cbn in Hn; lia].
      exists ((if (a =? "-f")%string then InputFile v else OutputFile v) :: items).
      unfold command_line. cbn [fmap list_fmap List.concat foldl]. rewrite <- Hw.
      auto.
    + intros H. apply IH in H as (items & -> & ->); [| lia].
      exists ((if (a =? "--dual")%string then Dual else Log) :: items).
      unfold command_line. cbn [fmap list_fmap List.concat foldl]. rewrite <- Hw.
      auto.
    + discriminate.
Qed.

Lemma scanArguments_rejects n : forall args o e,
  (List.length args <= n)%nat ->
  scanArguments args o = inl e ->
  exists a, e = UnknownArgument a /\ a ∈ args /\ is_flag a = false
            /\ (takes_path a = true -> last args = Some a).
Proof.
  induction n as [| n IH]; intros args o e Hn.
  - destruct args; [discriminate | cbn in Hn; lia].
  - destruct args as [| a rest]; [discriminate |].
    cbn [List.length] in Hn.
    destruct (scanArguments_cases a rest o)
      as [(v & rest' & -> & _ & -> & _) | [(_ & -> & _) | (Hf & Hl & ->)]].
    + intros H. apply IH in H as (b & -> & Hin & Hb & Hlast); [| cbn in Hn; lia].
      exists b. split; [reflexivity |].
      split; [apply list_elem_of_further, list_elem_of_further, Hin |].
      split; [exact Hb |]. intros Hp. specialize (Hlast Hp).
      destruct rest'; [discriminate Hlast | exact Hlast].
    + intros H. apply IH in H as (b & -> & Hin & Hb & Hlast); [| lia].
      exists b. split; [reflexivity |].
      split; [apply list_elem_of_further, Hin |].
      split; [exact Hb |]. intros Hp. specialize (Hlast Hp).
      destruct rest; [discriminate Hlast | exact Hlast].
    + intros [= <-]. exists a. split; [reflexivity |].
      split; [apply list_elem_of_here |]. split; [exact Hf |].
      intros Hp. rewrite (Hl Hp). reflexivity.
Qed.


Lemma paths_need_arguments items : forall o,
  ((if decide (inputFile (foldl assigned o items) = inputFile o) then 0 else 2)
   + (if decide (outputFile (foldl assigned o items) = outputFile o) then 0 else 2)
   <= List.length (command_line items))%nat.
Proof.
  unfold command_line.
  induction items as [| a items IH]; intros o; cbn [foldl fmap list_fmap List.concat].
  - rewrite !decide_True by reflexivity. cbn. lia.
  - specialize (IH (assigned o a)). rewrite length_app.
    destruct a; cbn [assigned written List.length] in *;
      cbn [with_inputFile with_outputFile with_useDualSimplex with_enableLogging
           inputFile outputFile] in IH;
      repeat match goal with
             | |- context [decide ?P] => destruct (decide P)
             | H : context [decide ?P] |- _ => destruct (decide P)
             end; lia.
Qed.

(** X18.  [main] gets past its argument checks exactly on the command lines
    that are a sequence of [-f <path>], [-o <path>], [--dual] and [--log]
    in any order, whose last [-f] and last [-o] give non-empty paths; the
    options are then the ones assigned from left to right.  A path is taken
    as it stands, also when it reads like an option.  The check of [argc]
    rejects none of these command lines. *)
Theorem arguments_accepted (args : list string) (o : Options) :
  main_arguments args = inr o <->
  exists items,
    args = command_line items /\ o = foldl assigned initial_Options items
    /\ inputFile o <> "" /\ outputFile o <> "".
Proof.
  unfold main_arguments. split.
  - destruct (Z.of_nat (List.length args) + 1 <? 5); [discriminate |].
    destruct (scanArguments args initial_Options) as [e | o1] eqn:Hs; [discriminate |].
    destruct ((inputFile o1 =? "")%string || (outputFile o1 =? "")%string) eqn:Hp;
      [discriminate |].
    intros [= <-]. apply orb_false_iff in Hp as [Hi Ho].
    apply String.eqb_neq in Hi, Ho.
    apply (scanArguments_accepts _ _ _ _ (le_n _)) in Hs as (items & -> & ->). eauto.
  - intros (items & -> & -> & Hi & Ho).
    pose proof (paths_need_arguments items initial_Options) as Hlen.
    cbn [initial_Options inputFile outputFile] in Hlen.
    rewrite !decide_False in Hlen by assumption.
    destruct (Z.ltb_spec (Z.of_nat (List.length (command_line items)) + 1) 5); [lia |].
    rewrite scanArguments_command_line.
    apply String.eqb_neq in Hi, Ho. rewrite Hi, Ho. reflexivity.
Qed.

(** X19.  How [main] rejects a command line.  It prints the usage alone
    only when there are fewer than four arguments; the other two rejections
    come with at least four.  "Unknown argument: a" names an argument [a] of
    the command line that is neither [--dual] nor [--log], and when [a] is
    [-f] or [-o] it is the last argument, left without a path.  "Input and
    output file paths are required." comes on a command line of well-formed
    options that leaves one of the two paths empty. *)
Theorem arguments_rejected (args : list string) (e : ArgError) :
  main_arguments args = inl e ->
  match e with
  | Usage => (List.length args < 4)%nat
  | UnknownArgument a =>
      (4 <= List.length args)%nat /\ a ∈ args /\ is_flag a = false
      /\ (takes_path a = true -> last args = Some a)
  | PathsRequired =>
      (4 <= List.length args)%nat
      /\ exists items,
           args = command_line items
           /\ (inputFile (foldl assigned initial_Options items) = ""
               \/ outputFile (foldl assigned initial_Options items) = "")
  end.
Proof.
  unfold main_arguments.
  destruct (Z.ltb_spec (Z.of_nat (List.length args) + 1) 5) as [Hlt | Hge].
  { intros [= <-]. lia. }
  destruct (scanArguments args initial_Options) as [e1 | o1] eqn:Hs.
  - intros [= <-].
    apply (scanArguments_rejects _ _ _ _ (le_n _)) in Hs as (a & -> & Hin & Hf & Hl).
    split; [lia | auto].
  - destruct ((inputFile o1 =? "")%string || (outputFile o1 =? "")%string) eqn:Hp;
      [| discriminate].
    intros [= <-]. split; [lia |].
    apply (scanArguments_accepts _ _ _ _ (le_n _)) in Hs as (items & -> & ->).
    exists items. split; [reflexivity |].
    apply orb_true_iff in Hp as [Hp | Hp]; apply String.eqb_eq in Hp; auto.
Qed.

Lemma arguments_rejected_witness :
  main_arguments ["--log"; "-o"; "out.txt"; "-f"] = inl (UnknownArgument "-f")
  /\ last ["--log"; "-o"; "out.txt"; "-f"] = Some "-f".
Proof.
  split; [reflexivity |].
  apply (arguments_rejected ["--log"; "-o"; "out.txt"; "-f"] (UnknownArgument "-f"));
    reflexivity.
Defined.


(** ** main up to the solver *)

Lemma loadModel_obj_dir m p : loadModel m = OK p -> obj_dir p = type m.
Proof.
  unfold loadModel. cbn zeta. intros H.
  apply bind_OK in H as (obj & _ & H). apply bind_OK in H as (rws & _ & H).
  apply bind_OK in H as (mat & _ & [= <-]). reflexivity.
Qed.

Lemma parseFile_OK fs u path m :
  parseFile fs u path = OK m ->
  exists text, fs path = Some text /\ parseStream u text = OK m.
Proof. unfold parseFile. destruct (fs path) as [text |]; [eauto | discriminate]. Qed.

(** X20.  What [main] has done when it comes to [solver.solve], and how it
    ends before.  It comes to the solver only with accepted arguments, a file
    that [parseFile] read and a model in which every variable of the
    objective and of the constraints has an entry in [bounds]; every row
    of the problem is then an equality row, and when the model has an
    objective the direction handed to GLPK is not one read from the file
    but what the uninitialised member held.  When it ends on an exception
    caught after the argument checks, the exception is one of [parseFile],
    or the [out_of_range] of [loadModel] on a model with a variable that has
    no entry in [bounds]. *)
Theorem main_before_solving (fs : string -> option string) (u : Indeterminate)
    (args : list string) :
  match main_until_solve fs u args with
  | Rejected e => main_arguments args = inl e
  | Failed e =>
      exists o,
        main_arguments args = inr o
        /\ (parseFile fs u (inputFile o) = Throw e
            \/ exists m, parseFile fs u (inputFile o) = OK m
                         /\ e = AtOutOfRange /\ ~ loadable m)
  | Solves o p =>
      main_arguments args = inr o
      /\ exists m,
           parseFile fs u (inputFile o) = OK m
           /\ loadModel m = OK p
           /\ loadable m
           /\ rows p = (fun c => GLP_FX (rhs c)) <$> constraints m
           /\ (terms (objective m) <> [] -> obj_dir p = any_type u)
  end.
Proof.
  unfold main_until_solve.
  destruct (main_arguments args) as [e | o] eqn:Ha; [reflexivity |].
  destruct (parseFile fs u (inputFile o)) as [m | e] eqn:Hf; [| eauto].
  pose proof Hf as Hs. apply parseFile_OK in Hs as (text & _ & Hs).
  destruct (loadModel m) as [p | e] eqn:Hl.
  - split; [reflexivity |]. exists m. split; [exact Hf |]. split; [exact Hl |].
    split; [eapply loadModel_OK_loadable, Hl |]. split.
    + pose proof (loadModel_fields _ _ Hl) as (_ & _ & Hr & _).
      apply rows_of_equalities; [eapply parsed_operators, Hs | exact Hr].
    + intros Hne. rewrite (loadModel_obj_dir _ _ Hl).
      pose proof (parseStream_direction _ _ _ Hs) as Hd.
      destruct (has_direction (getlines "010" text)); [| exact Hd].
      destruct Hd as [Hd _]. contradiction.
  - exists o. split; [reflexivity |]. right. exists m. split; [exact Hf |].
    pose proof (parsed_operators _ _ _ Hs) as Hop.
    pose proof Hl as Hl'. apply loadModel_Throw in Hl' as [-> | (c & Hin & Hk & _)].
    + split; [reflexivity |]. intros Hlo. apply loadable_loadModel_OK in Hlo as [p Hp].
      congruence.
    + rewrite Forall_forall in Hop. rewrite (Hop c Hin) in Hk. discriminate Hk.
Qed.


(** ** Where a constraint line is split *)

Lemma many_app_found {R : Type} p (l t : string) (k : string -> option R) x :
  all p l = true -> many p t k = Some x -> many p (l ++ t) k = Some x.
Proof.
  intros Hl Ht. induction l as [| a l IH]; [exact Ht |].
  cbn [all] in Hl. apply andb_true_iff in Hl as [Ha Hl].
  rewrite append_cons, (many_cons_in _ _ _ _ Ha), (IH Hl). reflexivity.
Qed.

Lemma constraint_tail_needs_equals t c :
  all no_equals t = true -> run constraint_tail t c at_end = None.
Proof.
  intros Hno. destruct (run constraint_tail t c at_end) as [r |] eqn:H; [| reflexivity].
  apply constraint_tail_inv in H as (o & t2 & -> & _ & _ & _ & [-> | [-> | ->]]);
    rewrite all_app in Hno; discriminate Hno.
Qed.

Lemma many_without_equals (g : string -> captures) t :
  all no_equals t = true ->
  many dot t (fun s1 => run constraint_tail s1 (g s1) at_end) = None.
Proof.
  intros Hno.
  destruct (many dot t (fun s1 => run constraint_tail s1 (g s1) at_end)) as [r |] eqn:H;
    [| reflexivity].
  apply many_sound in H as (pre & s1 & -> & _ & H).
  rewrite (constraint_tail_needs_equals s1 _ (all_app_r _ _ _ Hno)) in H. discriminate H.
Qed.

Lemma constraintPattern_split lhs rhs :
  lhs <> "" -> rhs <> "" -> all dot lhs = true -> all dot rhs = true ->
  all no_equals rhs = true ->
  groups (regex_match constraintPattern (lhs ++ "=" ++ rhs)) = Some (lhs, "=", rhs).
Proof.
  intros Hl Hr Hdl Hdr Hno. unfold regex_match.
  change constraintPattern with (Cat (Capture 1 (Many1 dot)) constraint_tail).
  destruct lhs as [| a l]; [contradiction |].
  cbn [all] in Hdl. apply andb_true_iff in Hdl as [Ha Hdl].
  rewrite append_cons. cbn [run Many1]. rewrite Ha.
  set (s := String a (l ++ "=" ++ rhs)).
  set (K := fun s1 : string =>
              run constraint_tail s1 (set_capture 1 (consumed s s1) no_captures) at_end).
  change (groups (many dot (l ++ "=" ++ rhs) K) = Some (String a l, "=", rhs)).
  rewrite (many_app_found dot l ("=" ++ rhs) K
             (set_capture 3 rhs (set_capture 2 "="
                (set_capture 1 (String a l) no_captures))) Hdl).
  - reflexivity.
  - change ("=" ++ rhs) with (String "=" rhs).
    rewrite (many_cons_in dot "=" rhs K eq_refl).
    unfold K at 1.
    rewrite (many_without_equals (fun s1 => set_capture 1 (consumed s s1) no_captures)
               rhs Hno).
    unfold K. rewrite (constraint_tail_eq rhs _ Hr Hdr). do 4 f_equal.
    unfold s. rewrite <- append_cons. apply (consumed_app (String a l) (String "=" rhs)).
Qed.

(** X21.  [parseConstraint] splits a line at its last equals sign: when the
    text after it is not empty and the text before it is not empty, the
    expression is read from all of the text before it, a [<] or [>] in front
    of the equals sign included, the right-hand side from the text after it,
    and the operator stored is [=]. *)
Theorem constraint_is_split_at_last_equals (lhs rhs : string) (line : Z) :
  lhs <> "" -> rhs <> "" -> all dot lhs = true -> all dot rhs = true ->
  all no_equals rhs = true ->
  groups (regex_match constraintPattern (lhs ++ "=" ++ rhs)) = Some (lhs, "=", rhs)
  /\ parseConstraint (lhs ++ "=" ++ rhs) line =
       (ts ← parseExpression lhs line;
        v ← stod rhs;
        OK {| terms := ts; rhs := v; op := "="; lineNumber := line |}).
Proof.
  intros Hl Hr Hdl Hdr Hno.
  pose proof (constraintPattern_split lhs rhs Hl Hr Hdl Hdr Hno) as H.
  split; [exact H |]. unfold parseConstraint. unfold groups in H.
  destruct (regex_match constraintPattern (lhs ++ "=" ++ rhs)) as [m |]; [| discriminate].
  cbn in H. injection H as -> -> ->. reflexivity.
Qed.

Lemma constraint_is_split_at_last_equals_witness :
  parseConstraint "2x - y >= 7" 3 =
    OK {| terms := [ {| coefficient := dZ 2; variable := "x" |};
                     {| coefficient := dZ (-1); variable := "y" |} ];
          rhs := dZ 7; op := "="; lineNumber := 3 |}.
Proof.
  pose proof (proj2 (constraint_is_split_at_last_equals "2x - y >" " 7" 3
                       ltac:(discriminate) ltac:(discriminate) eq_refl eq_refl eq_refl))
    as H.
  etransitivity; [exact H | vm_compute; reflexivity].
Defined.


(** ** White space around a line *)

Lemma trim_white_space_before a s : all trim_set a = true -> trim (a ++ s) = trim s.
Proof.
  induction a as [| c a IH]; [reflexivity |]. cbn [all]. intros H.
  apply andb_true_iff in H as [Hc H]. rewrite append_cons, (trim_cons_space _ _ Hc).
  apply IH, H.
Qed.

Lemma find_last_white_space_after s b :
  all trim_set b = true ->
  find_last_not_of trim_set (s ++ b) = find_last_not_of trim_set s.
Proof.
  intros Hb. induction s as [| c s IH].
  - rewrite append_nil. apply find_last_none, Hb.
  - rewrite append_cons. cbn [find_last_not_of]. rewrite IH. reflexivity.
Qed.

Lemma rtrim_white_space_after s b : all trim_set b = true -> rtrim (s ++ b) = rtrim s.
Proof.
  intros Hb. induction s as [| c s IH].
  - rewrite append_nil. unfold rtrim. rewrite (proj2 (find_last_none b) Hb). reflexivity.
  - rewrite append_cons, !rtrim_cons, (find_last_white_space_after s b Hb), IH.
    reflexivity.
Qed.

Lemma trim_white_space_after s b : all trim_set b = true -> trim (s ++ b) = trim s.
Proof.
  intros Hb. induction s as [| c s IH].
  - rewrite append_nil, <- (append_nil_r b). apply trim_white_space_before, Hb.
  - rewrite append_cons. destruct (trim_set c) eqn:Hc.
    + rewrite !(trim_cons_space _ _ Hc). exact IH.
    + rewrite !(trim_cons_kept _ _ Hc), (rtrim_white_space_after s b Hb). reflexivity.
Qed.

Lemma trim_padded l l' : padded l l' -> trim l' = trim l.
Proof.
  intros (a & b & Ha & Hb & ->).
  rewrite (trim_white_space_before a _ Ha). apply trim_white_space_after, Hb.
Qed.

Lemma parseLine_trim st raw raw' : trim raw' = trim raw -> parseLine st raw' = parseLine st raw.
Proof. unfold parseLine. intros ->. reflexivity. Qed.

Lemma parseLines_padded ls ls' : forall st,
  Forall2 padded ls ls' -> parseLines st ls' = parseLines st ls.
Proof.
  intros st H. revert st. induction H as [| l l' ls ls' Hl _ IH]; intros st; [reflexivity |].
  cbn [parseLines]. rewrite (parseLine_trim st l l' (trim_padded _ _ Hl)).
  destruct (parseLine st l) as [st1 | e]; cbn; [apply IH | reflexivity].
Qed.

(** X22.  White space at the two ends of a line changes nothing of what
    [parseFile] does with the file, so a file with carriage return and
    newline at the end of every line is read like the file with newlines
    alone, and indentation is ignored: two texts whose lines differ only by
    white space before and after give the same model or the same
    exception. *)
Theorem white_space_around_lines (u : Indeterminate) (ls ls' : list string) :
  Forall (fun l => all (other_than "010") l = true) ls ->
  Forall (fun l => all (other_than "010") l = true) ls' ->
  Forall2 padded ls ls' ->
  parseStream u (unlines ls') = parseStream u (unlines ls).
Proof.
  intros H H' Hp. unfold parseStream.
  rewrite (getlines_unlines _ H), (getlines_unlines _ H'), (parseLines_padded _ _ _ Hp).
  reflexivity.
Qed.

Lemma white_space_around_lines_witness :
  parseStream {| any_type := MINIMIZE; any_lineNumber := 0 |}
    (unlines [String "009" ("3x + 2y" ++ String "013" ""); "x = 1" ++ String "013" ""])
  = parseStream {| any_type := MINIMIZE; any_lineNumber := 0 |}
      (unlines ["3x + 2y"; "x = 1"]).
Proof.
  apply white_space_around_lines.
  - repeat constructor.
  - repeat constructor.
  - constructor; [| constructor; [| constructor]].
    + exists (String "009" ""), (String "013" ""). repeat split.
    + exists "", (String "013" ""). repeat split.
Defined.

(** ** Lines that are no constraint *)

Lemma constraintPattern_found lhs rhs :
  lhs <> "" -> rhs <> "" -> all dot (lhs ++ "=" ++ rhs) = true ->
  regex_match constraintPattern (lhs ++ "=" ++ rhs) <> None.
Proof.
  intros Hl Hr Hd. rewrite !all_app in Hd.
  apply andb_true_iff in Hd as [Hdl Hd]. apply andb_true_iff in Hd as [_ Hdr].
  unfold regex_match.
  change constraintPattern with (Cat (Capture 1 (Many1 dot)) constraint_tail).
  destruct lhs as [| a l]; [contradiction |].
  cbn [all] in Hdl. apply andb_true_iff in Hdl as [Ha Hdl].
  rewrite append_cons. cbn [run Many1]. rewrite Ha.
  set (s := String a (l ++ "=" ++ rhs)).
  set (K := fun s1 : string =>
              run constraint_tail s1 (set_capture 1 (consumed s s1) no_captures) at_end).
  change (many dot (l ++ "=" ++ rhs) K <> None).
  assert (Hk : exists x, many dot ("=" ++ rhs) K = Some x).
  { change ("=" ++ rhs) with (String "=" rhs).
    rewrite (many_cons_in dot "=" rhs K eq_refl).
    destruct (many dot rhs K) as [x |]; [eauto |].
    unfold K. rewrite (constraint_tail_eq rhs _ Hr Hdr). eauto. }
  destruct Hk as (x & Hx). rewrite (many_app_found dot l _ K x Hdl Hx). discriminate.
Qed.

Lemma constraintPattern_splits s m :
  regex_match constraintPattern s = Some m -> splits_at_equals s.
Proof.
  unfold regex_match.
  change constraintPattern with (Cat (Capture 1 (Many1 dot)) constraint_tail).
  cbn [run Many1]. destruct s as [| a s]; [discriminate |].
  destruct (dot a) eqn:Ha; [| discriminate]. intros H.
  apply many_sound in H as (pre & s1 & -> & Hpre & H).
  apply constraint_tail_inv in H as (o & t2 & -> & Hne & Hall & _ & Ho).
  split.
  - cbn [all]. rewrite Ha, !all_app, Hpre, Hall.
    destruct Ho as [-> | [-> | ->]]; reflexivity.
  - destruct Ho as [-> | [-> | ->]].
    + exists (String a pre ++ "<"), t2. rewrite !append_assoc.
      repeat split; [discriminate | exact Hne].
    + exists (String a pre ++ ">"), t2. rewrite !append_assoc.
      repeat split; [discriminate | exact Hne].
    + exists (String a pre), t2. repeat split; [discriminate | exact Hne].
Qed.

(** X23.  [parseConstraint] throws "Invalid constraint format" with the
    line number it was given exactly for the texts that have no equals sign
    with text on both sides of it (or that hold a carriage return); for
    every other text its exception, if any, is one of [parseExpression] or
    of [std::stod]. *)
Theorem invalid_constraint_format_iff (lineStr : string) (line : Z) :
  (parseConstraint lineStr line = Throw (InvalidConstraintFormat line)
   <-> ~ splits_at_equals lineStr)
  /\ (forall e, parseConstraint lineStr line = Throw e ->
        e = InvalidConstraintFormat line \/ e = NoValidTerms line
        \/ e = StodInvalidArgument \/ e = StodOutOfRange).
Proof.
  split; [split |].
  - unfold parseConstraint. intros H Hs.
    destruct Hs as (Hd & lhs & rhs & Hl & Hr & ->).
    pose proof (constraintPattern_found lhs rhs Hl Hr Hd) as Hm.
    destruct (regex_match constraintPattern (lhs ++ "=" ++ rhs)) as [m |];
      [| contradiction].
    cbn zeta in H.
    pose proof (parseExpression_cases (m 1%nat) line) as He.
    destruct (parseExpression (m 1%nat) line) as [ts | e1].
    + rewrite bind_ret_l in H.
      destruct (stod (m 3%nat)) as [v | e2] eqn:Hv; [discriminate |].
      injection H as ->. apply stod_exn in Hv as [Hv | Hv]; discriminate Hv.
    + injection H as ->. destruct He as [He | [He | He]]; discriminate He.
  - intros Hn. unfold parseConstraint.
    destruct (regex_match constraintPattern lineStr) as [m |] eqn:Hm; [| reflexivity].
    exfalso. apply Hn. eapply constraintPattern_splits, Hm.
  - intros e. unfold parseConstraint.
    destruct (regex_match constraintPattern lineStr) as [m |]; [| intros [= <-]; auto].
    cbn zeta. pose proof (parseExpression_cases (m 1%nat) line) as He.
    destruct (parseExpression (m 1%nat) line) as [ts | e1].
    + rewrite bind_ret_l. destruct (stod (m 3%nat)) as [v | e2] eqn:Hv; [discriminate |].
      intros [= <-]. apply stod_exn in Hv as [-> | ->]; auto.
    + intros [= <-]. destruct He as [-> | [-> | ->]]; auto.
Qed.


(** ** The Integer section *)

(** X24.  In the Integer section every line of content is read without an
    exception, whatever it holds: each text between its commas, trimmed,
    gets or keeps a record whose kind is INTEGER and whose lower bound,
    upper bound and free mark are the ones it had (those of the default
    [Bound] on first mention), and no other record changes.  A variable
    declared binary before keeps the bounds 0 and 1 and becomes INTEGER. *)
Theorem integer_line_declares (st : Locals) (raw : string) :
  reachable st -> current st = INTEGERS -> is_content (trim raw) = true ->
  exists st',
    parseLine st raw = OK st'
    /\ current st' = INTEGERS
    /\ forall v,
         bounds (model st') !! v =
           if decide (v ∈ split (trim raw) ",")
           then Some {| lower := lower (record_of v (model st));
                        upper := upper (record_of v (model st));
                        isFree := isFree (record_of v (model st));
                        kind := INTEGER |}
           else bounds (model st) !! v.
Proof.
  intros Hr Hc Hl.
  assert (Ho : objectiveParsed st = true) by (apply reachable_section; congruence).
  eexists. split.
  { rewrite (parseLine_content st raw Ho Hl). cbn zeta. rewrite Hc. reflexivity. }
  split; [exact Hc |]. intros v.
  cbn [with_model with_lineNo model]. unfold declarations.
  rewrite declarations_lookup. destruct (decide (v ∈ split (trim raw) ",")); reflexivity.
Qed.

Lemma integer_line_declares_witness :
  exists st st',
    parseLines (initial {| any_type := MINIMIZE; any_lineNumber := 0 |})
      ["Max"; "Binary:"; "x"; "Integer:"] = OK st
    /\ parseLine st " x , y " = OK st'
    /\ bounds (model st') !! "x"
       = Some {| lower := dZ 0; upper := dZ 1; isFree := false; kind := INTEGER |}
    /\ bounds (model st') !! "y"
       = Some {| lower := dneg INFINITY; upper := INFINITY; isFree := false;
                 kind := INTEGER |}.
Proof.
  assert (Hst : exists st,
             parseLines (initial {| any_type := MINIMIZE; any_lineNumber := 0 |})
               ["Max"; "Binary:"; "x"; "Integer:"] = OK st
             /\ current st = INTEGERS
             /\ record_of "x" (model st)
                = {| lower := dZ 0; upper := dZ 1; isFree := false; kind := BINARY |}
             /\ record_of "y" (model st) = default_Bound).
  { eexists. split; [vm_compute; reflexivity |]. repeat split. }
  destruct Hst as (st & Hst & Hcur & Hx & Hy).
  destruct (integer_line_declares st " x , y "
              (ex_intro _ _ (ex_intro _ _ Hst)) Hcur eq_refl) as (st' & H1 & _ & H3).
  exists st, st'. split; [exact Hst |]. split; [exact H1 |].
  change (split (trim " x , y ") ",") with ["x"; "y"] in H3. split.
  - rewrite H3, decide_True by (apply list_elem_of_here). rewrite Hx. reflexivity.
  - rewrite H3, decide_True by (apply list_elem_of_further, list_elem_of_here).
    rewrite Hy. reflexivity.
Defined.


(** ** The direction a model gets *)

Lemma parseLine_flag_false st raw st' :
  parseLine st raw = OK st' -> objectiveParsed st' = false ->
  skipped (trim raw) = true /\ model st' = model st /\ objectiveParsed st = false.
Proof.
  intros H Hf.
  assert (Ho : objectiveParsed st = false).
  { destruct (objectiveParsed st) eqn:E; [| reflexivity].
    rewrite (parseLine_objectiveParsed _ _ _ H E) in Hf. discriminate Hf. }
  revert H. parseLine_cases st raw; cbn zeta; try congruence.
  - intros [= <-]. cbn. auto.
  - rewrite Ho. intros [= <-]. discriminate Hf.
  - intros H. apply bind_OK in H as (ts & _ & [= <-]). discriminate Hf.
Qed.

Lemma parseLines_flag_false lines : forall st st',
  parseLines st lines = OK st' -> objectiveParsed st' = false ->
  Forall (fun l => skipped (trim l) = true) lines /\ model st' = model st.
Proof.
  induction lines as [| raw rest IH]; intros st st'; cbn [parseLines].
  - intros [= <-] _. split; [constructor | reflexivity].
  - intros H Hf. apply bind_OK in H as (st1 & H1 & H2).
    destruct (IH _ _ H2 Hf) as (Hrest & Hm).
    assert (Hf1 : objectiveParsed st1 = false).
    { destruct (objectiveParsed st1) eqn:E; [| reflexivity].
      rewrite (parseLines_flag _ _ _ H2 (or_introl E)) in Hf. discriminate Hf. }
    destruct (parseLine_flag_false _ _ _ H1 Hf1) as (Hs & Hm1 & _).
    split; [constructor; assumption | congruence].
Qed.

Lemma no_direction_after_flag lines : forall st st',
  objectiveParsed st = true -> parseLines st lines = OK st' ->
  has_direction lines = false.
Proof.
  induction lines as [| raw rest IH]; intros st st' Ho;
    cbn [parseLines has_direction existsb]; [reflexivity |].
  intros H. apply bind_OK in H as (st1 & H1 & H2).
  destruct (is_direction (trim raw)) eqn:Hd.
  - rewrite (parseLine_direction st raw Hd), Ho in H1. discriminate H1.
  - cbn [orb]. eapply (IH st1 st'); [| exact H2].
    eapply parseLine_objectiveParsed; eassumption.
Qed.

(** X25.  When [parseFile] returns a model for a file with a direction
    line, that line is the first line of the file that is neither blank nor
    a comment, no line after it is a direction line, and the model has the
    direction it names: MAXIMIZE for [Max], MINIMIZE for [Min]. *)
Theorem direction_of_a_model (u : Indeterminate) (text : string) (m : LPModel)
    (pre post : list string) (dir : string) :
  getlines "010" text = (pre ++ dir :: post)%list ->
  is_direction (trim dir) = true ->
  parseStream u text = OK m ->
  Forall (fun l => skipped (trim l) = true) pre
  /\ has_direction post = false
  /\ type m = if (trim dir =? "Max")%string then MAXIMIZE else MINIMIZE.
Proof.
  intros Hl Hd. unfold parseStream. rewrite Hl, parseLines_app. intros H.
  apply bind_OK in H as (st & H & [= <-]). apply bind_OK in H as (st1 & H1 & H).
  cbn [parseLines] in H. apply bind_OK in H as (st2 & H2 & H3).
  rewrite (parseLine_direction st1 dir Hd) in H2.
  destruct (objectiveParsed st1) eqn:Ho; [discriminate |]. injection H2 as <-.
  destruct (parseLines_flag_false _ _ _ H1 Ho) as (Hpre & _).
  split; [exact Hpre |]. split.
  - eapply no_direction_after_flag; [| exact H3]. reflexivity.
  - erewrite parseLines_type_kept; [| | exact H3]; reflexivity.
Qed.

Lemma direction_of_a_model_witness :
  exists m,
    parseStream {| any_type := MINIMIZE; any_lineNumber := 0 |}
      (unlines ["// profit"; " Max "; "Bounds:"; "x <= 4"]) = OK m
    /\ type m = MAXIMIZE.
Proof.
  eexists. split; [vm_compute; reflexivity |].
  exact (proj2 (proj2 (direction_of_a_model
           {| any_type := MINIMIZE; any_lineNumber := 0 |}
           (unlines ["// profit"; " Max "; "Bounds:"; "x <= 4"]) _
           ["// profit"] ["Bounds:"; "x <= 4"] " Max " eq_refl eq_refl eq_refl))).
Defined.

(** ** A section header before the objective *)

(** X26.  A section header is a header only once the objective or a
    direction line was read.  As the first line of content, [Bounds:],
    [Integer:] or [Binary:] is read as the objective: the model gets the one
    term with coefficient 1 and the variable [Bounds], [Integer] or
    [Binary], no section is entered and the lines that follow are read as
    constraints. *)
Theorem header_before_objective (st : Locals) (raw : string) :
  objectiveParsed st = false -> is_header (trim raw) = true ->
  parseLine st raw =
    OK (with_current CONSTRAINTS
          (with_objectiveParsed true
             (with_model (set_objective
                {| terms := [ {| coefficient := dZ 1;
                                 variable := substr 0 (String.length (trim raw) - 1)
                                                    (trim raw) |} ];
                   rhs := dZ 0; op := ""; lineNumber := lineNo st + 1 |})
                (with_lineNo (lineNo st + 1) st)))).
Proof.
  intros Ho Hh. unfold is_header in Hh.
  assert (Hc : trim raw = "Bounds:" \/ trim raw = "Integer:" \/ trim raw = "Binary:").
  { apply orb_true_iff in Hh as [Hh | Hh]; [apply orb_true_iff in Hh as [Hh | Hh] |];
      apply String.eqb_eq in Hh; auto. }
  destruct Hc as [Hc | [Hc | Hc]];
    rewrite (parseLine_objective st raw Ho) by (rewrite Hc; reflexivity);
    rewrite Hc; reflexivity.
Qed.

Lemma header_before_objective_witness :
  exists m,
    parseStream {| any_type := MINIMIZE; any_lineNumber := 0 |}
      (unlines ["Bounds:"; "x = 4"]) = OK m
    /\ variable <$> terms (objective m) = ["Bounds"]
    /\ List.length (constraints m) = 1%nat
    /\ bounds m = ∅.
Proof.
  pose proof (header_before_objective
                (initial {| any_type := MINIMIZE; any_lineNumber := 0 |})
                "Bounds:" eq_refl eq_refl) as H.
  eexists. split; [| split; [| split]].
  - unfold parseStream. change (getlines "010" (unlines ["Bounds:"; "x = 4"]))
      with ["Bounds:"; "x = 4"]. cbn [parseLines]. rewrite H, bind_ret_l.
    vm_compute. reflexivity.
  - reflexivity.
  - reflexivity.
  - reflexivity.
Defined.
